(** * pgmpy discrete factors: a shallow embedding of [pgmpy/factors/Factor.py]

    The development follows the Python source function by function.

    - [Py]  : the exceptions the module raises, a result type for fallible
              calls, and the few string / list built-ins the code relies on.
    - [Np]  : the fragment of numpy the code uses: [np.double] scalars
              (IEEE 754 binary64, modelled with [spec_float]), the
              [np.seterr(divide='raise')] error state set at import time,
              integer index arrays, [cumprod], [prod], [delete] and fancy
              indexing with negative wrap-around.
    - the [Factor] class, its methods and the module-level functions
      [_bivar_factor_operation], [factor_product] and [factor_divide].

    Integer index arithmetic is carried out in [Z].  A factor's buffer holds
    [prod cardinality] cells, so for the factors considered here every stride
    and flat index is bounded by a buffer length and the 64-bit range of
    numpy's integers is never left.

    The integer quotient and remainder of the source ([/] followed by
    [astype(int64)], [%]) and [range] with a step are modelled for positive
    divisors and steps.  These are the only ones a factor with positive
    cardinalities reaches, and the general statements below are about such
    factors ([wf_Factor]). *)

From Stdlib Require Import ZArith Lia List String Ascii DecimalString DecimalPos.
From Stdlib Require Import SpecFloat.
From stdpp Require Import base option list strings gmap.

Local Open Scope Z_scope.

(** ** Python built-ins *)

Module Py.

(** The exceptions raised in [Factor.py], either explicitly ([raise ...]) or
    by a built-in the code calls.  The constructor names keep the Python
    class and add the site.  In the vocabulary of the specification:
    [ValueError_SizeOfVariablesAndCardinality] is DimensionMismatch,
    [SizeError_IncompetantValueArray] is SizeMismatch, [ScopeError] is
    UnknownVariable, [IndexError_GreaterThanMaxIndex] is IndexOutOfRange,
    [TypeError_VariablenameIndex] is MalformedAssignment,
    [SizeError_GreaterThanMaxValue] is StateOutOfRange and
    [ValueError_NoCommonScope] is UndefinedOperation. *)
Inductive exn : Type :=
  | ValueError_SizeOfVariablesAndCardinality   (* Factor.__init__ *)
  | SizeError_IncompetantValueArray            (* Factor.__init__ *)
  | IndexError_GreaterThanMaxIndex             (* Factor.assignment *)
  | ScopeError (variable : string)             (* "%s not in scope" *)
  | TypeError_VariablenameIndex                (* Factor.reduce: no '_' *)
  | SizeError_GreaterThanMaxValue              (* Factor.reduce *)
  | ValueError_NoCommonScope                   (* division, disjoint scopes *)
  | FloatingPointError                         (* numpy, divide='raise' *)
  | ValueError_NotInList                       (* list.index *)
  | ValueError_Unpack                          (* var, value_index = ... *)
  | ValueError_IntLiteral                      (* int(str) *)
  | ValueError_Broadcast                       (* numpy shape mismatch *)
  | IndexError_OutOfBounds.                    (* list / ndarray indexing *)

Inductive result (A : Type) : Type :=
  | Return (a : A)
  | Raise (e : exn).
Arguments Return {A} a.
Arguments Raise {A} e.

Definition bind {A B} (r : result A) (k : A -> result B) : result B :=
  match r with
  | Return a => k a
  | Raise e => Raise e
  end.

(** A list comprehension [[f(x) for x in l]] whose body may raise. *)
Fixpoint collect {A B} (f : A -> result B) (l : list A) : result (list B) :=
  match l with
  | [] => Return []
  | x :: l' => bind (f x) (fun y => bind (collect f l') (fun ys => Return (y :: ys)))
  end.

(** [range(n)] and [range(start, stop, step)] for a positive step. *)
Definition range (n : Z) : list Z := seqZ 0 n.

Definition range2 (start stop : Z) : list Z := seqZ start (stop - start).

Definition range3 (start stop step : Z) : list Z :=
  (fun k => start + k * step) <$> seqZ 0 ((stop - start + step - 1) / step).

(** [str(i)] for an integer. *)
Definition str (i : Z) : string := NilZero.string_of_int (Z.to_int i).

(** [c in s] for a one-character string [c]. *)
Fixpoint contains (c : ascii) (s : string) : bool :=
  match s with
  | EmptyString => false
  | String a s' => if Ascii.eqb a c then true else contains c s'
  end.

(** [s.split(c)]: cut at every occurrence of the separator. *)
Fixpoint split (c : ascii) (s : string) : list string :=
  match s with
  | EmptyString => [EmptyString]
  | String a s' =>
      if Ascii.eqb a c then EmptyString :: split c s'
      else match split c s' with
           | [] => [String a EmptyString]
           | w :: ws => String a w :: ws
           end
  end.

Definition is_space (a : ascii) : bool :=
  let n := nat_of_ascii a in
  (Nat.eqb n 32 || (Nat.leb 9 n && Nat.leb n 13)
   || (Nat.leb 28 n && Nat.leb n 31))%bool.

Fixpoint lstrip (s : string) : string :=
  match s with
  | String a s' => if is_space a then lstrip s' else s
  | EmptyString => EmptyString
  end.

Fixpoint rev_string (s acc : string) : string :=
  match s with
  | EmptyString => acc
  | String a s' => rev_string s' (String a acc)
  end.

Definition strip (s : string) : string :=
  rev_string (lstrip (rev_string (lstrip s) EmptyString)) EmptyString.

(** [int(s)] on a decimal literal: surrounding ASCII white space, an
    optional sign and a non-empty run of ASCII digits; anything else is a
    [ValueError]. *)
Definition int (s : string) : result Z :=
  let digits (d : string) (sign : Z) :=
    match NilZero.uint_of_string d with
    | Some u => Return (sign * Z.of_N (N.of_uint u))
    | None => Raise ValueError_IntLiteral
    end in
  match strip s with
  | String "-"%char d => digits d (-1)
  | String "+"%char d => digits d 1
  | d => digits d 1
  end.

(** [l.index(x)]: position of the first occurrence. *)
Definition index (x : string) (l : list string) : result Z :=
  match list_find (fun y => y = x) l with
  | Some (i, _) => Return (Z.of_nat i)
  | None => Raise ValueError_NotInList
  end.

(** [x in l] on a list (or on the keys of a dict). *)
Definition mem (x : string) (l : list string) : bool :=
  bool_decide (x ∈ l).

(** [l[i]] on a Python list: a negative index counts from the end. *)
Definition getitem {A} (l : list A) (i : Z) : result A :=
  let n := Z.of_nat (length l) in
  let j := if i <? 0 then i + n else i in
  if (0 <=? j) && (j <? n) then
    match l !! Z.to_nat j with
    | Some a => Return a
    | None => Raise IndexError_OutOfBounds
    end
  else Raise IndexError_OutOfBounds.

Notation "'let!' x ':=' e 'in' k" := (bind e (fun x => k))
  (at level 10, x name, e at level 100, k at level 200).

End Py.
Import Py.

(** ** numpy *)

Module Np.

(** [np.double]: IEEE 754 binary64. *)
Definition double : Type := spec_float.
Definition prec : Z := 53.
Definition emax : Z := 1024.

(** Conversion of a Python integer to [np.double], as done by
    [np.array(value, dtype=np.double)]. *)
Definition of_int (z : Z) : double := binary_normalize prec emax z 0 false.

(** The double nearest to the fraction [n / d] of two small integers, i.e.
    the value of a decimal literal such as [0.75] = [decimal 75 100]. *)
Definition decimal (n d : Z) : double := SFdiv prec emax (of_int n) (of_int d).

Definition mul (x y : double) : double := SFmul prec emax x y.
Definition add (x y : double) : double := SFadd prec emax x y.

Definition is_zero (x : double) : bool :=
  match x with S754_zero _ => true | _ => false end.

(** The IEEE "division by zero" condition: a finite non-zero dividend over a
    zero divisor.  [0/0], [inf/0] and [nan/0] do not signal it ([0/0] signals
    "invalid operation" instead). *)
Definition signals_divide (x y : double) : bool :=
  match x, y with
  | S754_finite _ _ _, S754_zero _ => true
  | _, _ => false
  end.

(** [x / y] on [np.double] scalars under the module's error state.  Line 6
    of the file runs [np.seterr(divide='raise')]: the "divide" condition
    raises [FloatingPointError]; the other conditions ("invalid", "over",
    "under") keep their default and only warn, so the IEEE result is
    returned. *)
Definition true_divide (x y : double) : result double :=
  if signals_divide x y then Raise FloatingPointError
  else Return (SFdiv prec emax x y).

(** [a / s] for an array [a] and a scalar [s]. *)
Definition true_divide_scalar (a : list double) (s : double) : result (list double) :=
  collect (fun x => true_divide x s) a.

(** The order in which [np.sum] adds the elements of a contiguous float
    array (the pairwise summation of numpy's [add] loop).  Fewer than 8
    elements are added from left to right, starting from [0.0].  A block of
    at most 128 elements runs 8 accumulators over its groups of 8, adds the
    accumulators as a balanced tree and then adds the elements left over,
    from left to right.  A longer array is cut in two at [n/2] rounded down
    to a multiple of 8, and the sums of the two parts are added. *)
Definition PW_BLOCKSIZE : nat := 128.

(** [k] rounds of [r[j] += a[i + j]] for [j] in 0..7; returns the
    accumulators and the elements not yet read. *)
Fixpoint accumulate8 (k : nat) (r a : list double) : list double * list double :=
  match k with
  | O => (r, a)
  | S k' => accumulate8 k' (zip_with add r (take 8 a)) (drop 8 a)
  end.

Definition block_sum (a : list double) : double :=
  match accumulate8 (length a / 8 - 1) (take 8 a) (drop 8 a) with
  | ([r0; r1; r2; r3; r4; r5; r6; r7], rest) =>
      fold_left add rest
                (add (add (add r0 r1) (add r2 r3)) (add (add r4 r5) (add r6 r7)))
  | _ => fold_left add a (S754_zero false)
  end.

(** [fuel] bounds the depth of the cuts; the length of the array is always
    enough (lemma [pairwise_sum_cut] below). *)
Fixpoint pairwise_sum_fuel (fuel : nat) (a : list double) : double :=
  let n := length a in
  if (n <? 8)%nat then fold_left add a (S754_zero false)
  else if (n <=? PW_BLOCKSIZE)%nat then block_sum a
  else
    match fuel with
    | O => block_sum a
    | S fuel' =>
        let n2 := (n / 2 - (n / 2) mod 8)%nat in
        add (pairwise_sum_fuel fuel' (take n2 a)) (pairwise_sum_fuel fuel' (drop n2 a))
    end.

Definition pairwise_sum (a : list double) : double :=
  pairwise_sum_fuel (length a) a.

(** [np.sum] of a float array: the reduction starts from the identity [0.0]
    of [add] and adds the pairwise sum of the array to it. *)
Definition sum_double (a : list double) : double :=
  add (S754_zero false) (pairwise_sum a).

(** [np.prod] and [np.sum] of an integer array. *)
Definition prod (a : list Z) : Z := fold_right Z.mul 1 a.
Definition sum (a : list Z) : Z := fold_right Z.add 0 a.

(** [np.cumprod]. *)
Fixpoint cumprod_from (acc : Z) (a : list Z) : list Z :=
  match a with
  | [] => []
  | x :: a' => (acc * x) :: cumprod_from (acc * x) a'
  end.
Definition cumprod (a : list Z) : list Z := cumprod_from 1 a.

(** [np.delete(a, i)] for [0 <= i]. *)
Definition delete {A} (a : list A) (i : Z) : list A :=
  base.delete (Z.to_nat i) a.

(** [a[i]] on an array, and [a[idx]] with an integer index array. *)
Definition getitem {A} (a : list A) (i : Z) : result A := Py.getitem a i.
Definition take {A} (a : list A) (idx : list Z) : result (list A) :=
  collect (getitem a) idx.

(** Element-wise [*] on integer arrays, with the broadcast of a one-element
    operand; other shape mismatches raise. *)
Definition multiply (a b : list Z) : result (list Z) :=
  if Nat.eqb (length a) (length b) then Return (zip_with Z.mul a b)
  else match a, b with
       | [x], _ => Return (Z.mul x <$> b)
       | _, [y] => Return ((fun x => x * y) <$> a)
       | _, _ => Raise ValueError_Broadcast
       end.

(** [acc += a] on float arrays of the same shape. *)
Definition iadd (acc a : list double) : result (list double) :=
  if Nat.eqb (length acc) (length a) then Return (zip_with add acc a)
  else match a with
       | [y] => Return ((fun x => add x y) <$> acc)
       | _ => Raise ValueError_Broadcast
       end.

Definition zeros (n : Z) : list double :=
  repeat (S754_zero false) (Z.to_nat n).

End Np.

(** ** The Factor class *)

(** An object of class [Factor].  [variables] is the [OrderedDict] from a
    variable to its list of state labels, kept as an association list in
    insertion order. *)
Record Factor : Type := mkFactor {
  variables : list (string * list string);
  cardinality : list Z;
  values : list Np.double
}.

(** [OrderedDict] item assignment and deletion. *)
Fixpoint odict_set (k : string) (v : list string) (d : list (string * list string))
  : list (string * list string) :=
  match d with
  | [] => [(k, v)]
  | (k', v') :: d' =>
      if decide (k' = k) then (k', v) :: d' else (k', v') :: odict_set k v d'
  end.

Fixpoint odict_del (k : string) (d : list (string * list string))
  : list (string * list string) :=
  match d with
  | [] => []
  | (k', v') :: d' => if decide (k' = k) then d' else (k', v') :: odict_del k d'
  end.

(** [[variable + '_' + str(index) for index in range(card)]] *)
Definition state_labels (variable : string) (card : Z) : list string :=
  (fun index => variable +:+ "_" +:+ Py.str index) <$> Py.range card.

(** [Factor.__init__] *)
Definition Factor_init (vars : list string) (card : list Z) (value : list Np.double)
  : result Factor :=
  if negb (Nat.eqb (length vars) (length card)) then
    Raise ValueError_SizeOfVariablesAndCardinality
  else
    let od := fold_left (fun d vc => odict_set (fst vc) (state_labels (fst vc) (snd vc)) d)
                        (zip vars card) [] in
    if negb (Z.of_nat (length value) =? Np.prod card) then
      Raise SizeError_IncompetantValueArray
    else Return (mkFactor od card value).

(** [Factor.scope] *)
Definition scope (self : Factor) : list string := fst <$> variables self.

(** One step of the decoding loop of [Factor.assignment], on the pair
    [(assign, ind)]: [assign.insert(0, ind % card); ind = ind/card].  The
    step keeps the floor quotient, which is what [/] computes on integers
    under Python 2.  Under Python 3 [/] is the true division on doubles and
    [map(int, assign)] truncates the remainders; the digits are then the
    same for an index whose magnitude is at most the number of cells of the
    buffer, and differ once the index is not a double (from [2^53] on).
    The statements about [assignment] are restricted to indices between
    [-prod(cardinality)] and [prod(cardinality) - 1]. *)
Definition assign_step (st : list Z * Z) (c : Z) : list Z * Z :=
  ((snd st mod c) :: fst st, snd st / c).

(** The digits of one flat index ([assign] in [Factor.assignment]): the
    cardinalities are visited in reverse, [cardinality[::-1]]. *)
Definition assign_digits (card : list Z) (ind : Z) : list Z :=
  fst (fold_left assign_step (rev card) ([], ind)).

(** [Factor.assignment], on the index array [np.atleast_1d(index)]. *)
Definition assignment (self : Factor) (index : list Z) : result (list (list string)) :=
  let max_index := Np.prod (cardinality self) - 1 in
  if negb (forallb (fun i => i <=? max_index) index) then
    Raise IndexError_GreaterThanMaxIndex
  else
    let assignments := assign_digits (cardinality self) <$> index in
    collect (fun vals =>
            collect (fun kv => Py.getitem (snd (fst kv)) (snd kv))
                 (zip (variables self) vals))
         assignments.

(** [Factor.get_cardinality] *)
Definition get_cardinality (self : Factor) (variable : string) : result Z :=
  if negb (Py.mem variable (scope self)) then Raise (ScopeError variable)
  else let! i := Py.index variable (scope self) in
       Np.getitem (cardinality self) i.

(** A [string, list-type] argument: [if not isinstance(x, list): x = [x]]. *)
Inductive str_or_list : Type :=
  | Str (s : string)
  | StrList (l : list string).

Definition as_list (a : str_or_list) : list string :=
  match a with Str s => [s] | StrList l => l end.

(** [(np.product(card) / np.concatenate(([1], np.cumprod(card)))).astype(int64)]:
    entry [k] is the product of the cardinalities from position [k] on. *)
Definition cum_cardinality (card : list Z) : list Z :=
  (fun c => Np.prod card / c) <$> (1 :: Np.cumprod card).

(** [[j for i in range(0, num_elements, step) for j in range(i, i + inner)]] *)
Definition block_index (num_elements step inner : Z) : list Z :=
  Py.range3 0 num_elements step ≫= (fun i => Py.range2 i (i + inner)).

(** [Factor._marginalize_single_variable] *)
Definition _marginalize_single_variable (self : Factor) (variable : string)
  : result (list Np.double) :=
  let! index := Py.index variable (scope self) in
  let cum := cum_cardinality (cardinality self) in
  let! num_elements := Np.getitem cum 0 in
  let! step := Np.getitem cum index in
  let! inner := Np.getitem cum (index + 1) in
  let sum_index := block_index num_elements step inner in
  let! card_index := Np.getitem (cardinality self) index in
  let marg_factor := Np.zeros (num_elements / card_index) in
  fold_left
    (fun acc i =>
       let! marg := acc in
       let! block := Np.take (values self) ((fun j => j + i * inner) <$> sum_index) in
       Np.iadd marg block)
    (Py.range card_index) (Return marg_factor).

(** A [for] loop whose body updates the object bound to [factor]; an
    exception leaves the object as the body had it at that point. *)
Fixpoint for_each {A} (body : Factor -> A -> Factor * result unit)
         (factor : Factor) (l : list A) : Factor * result unit :=
  match l with
  | [] => (factor, Return tt)
  | x :: l' =>
      match body factor x with
      | (factor', Return _) => for_each body factor' l'
      | (factor', Raise e) => (factor', Raise e)
      end
  end.

(** Body of the elimination loop of [Factor.marginalize]. *)
Definition marginalize_body (factor : Factor) (variable : string) : Factor * result unit :=
  match _marginalize_single_variable factor variable with
  | Raise e => (factor, Raise e)
  | Return vals =>
      let factor := mkFactor (variables factor) (cardinality factor) vals in
      match Py.index variable (scope factor) with
      | Raise e => (factor, Raise e)
      | Return index =>
          (mkFactor (odict_del variable (variables factor))
                    (Np.delete (cardinality factor) index) vals,
           Return tt)
      end
  end.

(** A method call yields the receiver as the call leaves it, and either the
    returned value ([None] for Python's [None]) or the exception. *)
Definition finish_inplace (r : Factor * result unit) : Factor * result (option Factor) :=
  match r with
  | (self', Return _) => (self', Return None)
  | (self', Raise e) => (self', Raise e)
  end.

Definition finish_copy (self : Factor) (r : Factor * result unit)
  : Factor * result (option Factor) :=
  match r with
  | (factor, Return _) => (self, Return (Some factor))
  | (_, Raise e) => (self, Raise e)
  end.

(** [Factor.marginalize] *)
Definition marginalize (self : Factor) (vars : str_or_list) (inplace : bool)
  : Factor * result (option Factor) :=
  let vars := as_list vars in
  match list_find (fun v => Py.mem v (scope self) = false) vars with
  | Some (_, v) => (self, Raise (ScopeError v))
  | None =>
      if inplace then finish_inplace (for_each marginalize_body self vars)
      else
        match Factor_init (scope self) (cardinality self) (values self) with
        | Raise e => (self, Raise e)
        | Return factor => finish_copy self (for_each marginalize_body factor vars)
        end
  end.

(** [self.values / np.sum(self.values)] *)
Definition normalized_values (vals : list Np.double) : result (list Np.double) :=
  Np.true_divide_scalar vals (Np.sum_double vals).

(** [Factor.normalize] *)
Definition normalize (self : Factor) (inplace : bool) : Factor * result (option Factor) :=
  if inplace then
    match normalized_values (values self) with
    | Raise e => (self, Raise e)
    | Return vals => (mkFactor (variables self) (cardinality self) vals, Return None)
    end
  else
    match Factor_init (scope self) (cardinality self) (values self) with
    | Raise e => (self, Raise e)
    | Return factor =>
        match normalized_values (values factor) with
        | Raise e => (self, Raise e)
        | Return vals =>
            (self, Return (Some (mkFactor (variables factor) (cardinality factor) vals)))
        end
    end.

(** The checks and the slice computed by one iteration of the loop of
    [Factor.reduce], up to the assignment to [factor.values]. *)
Definition reduce_slice (factor : Factor) (value : string)
  : result (string * Z * list Np.double) :=
  if negb (Py.contains "_" value) then Raise TypeError_VariablenameIndex
  else
    match Py.split "_" value with
    | [var; value_index] =>
        if negb (Py.mem var (scope factor)) then Raise (ScopeError var)
        else
          let! index := Py.index var (scope factor) in
          let! state := Py.int value_index in
          let! card_index := Np.getitem (cardinality factor) index in
          if negb (state <? card_index) then Raise SizeError_GreaterThanMaxValue
          else
            let cum := cum_cardinality (cardinality factor) in
            let! num_elements := Np.getitem cum 0 in
            let! step := Np.getitem cum index in
            let! inner := Np.getitem cum (index + 1) in
            let index_arr := block_index num_elements step inner in
            let! state' := Py.int value_index in
            let! vals := Np.take (values factor)
                                 ((fun j => j + state' * inner) <$> index_arr) in
            Return (var, index, vals)
    | _ => Raise ValueError_Unpack
    end.

(** Body of the loop of [Factor.reduce]. *)
Definition reduce_body (factor : Factor) (value : string) : Factor * result unit :=
  match reduce_slice factor value with
  | Raise e => (factor, Raise e)
  | Return (var, index, vals) =>
      (mkFactor (odict_del var (variables factor))
                (Np.delete (cardinality factor) index) vals,
       Return tt)
  end.

(** [Factor.reduce] *)
Definition reduce (self : Factor) (vals : str_or_list) (inplace : bool)
  : Factor * result (option Factor) :=
  let vals := as_list vals in
  if inplace then finish_inplace (for_each reduce_body self vals)
  else
    match Factor_init (scope self) (cardinality self) (values self) with
    | Raise e => (self, Raise e)
    | Return factor => finish_copy self (for_each reduce_body factor vals)
    end.

(** ** Binary combination *)

Inductive operation : Type := M | D.

(** [np.delete(np.concatenate((np.array([1]), np.cumprod(card[::-1])))[::-1], 0)]:
    the place value of every position of a scope. *)
Definition cumprod_strides (card : list Z) : list Z :=
  Np.delete (rev (1 :: Np.cumprod (rev card))) 0.

(** [itertools.product] over a list of pools: tuples in lexicographic order, the last
    pool cycling fastest. *)
Fixpoint itertools_product {A} (pools : list (list A)) : list (list A) :=
  match pools with
  | [] => [[]]
  | pool :: pools' =>
      pool ≫= (fun x => cons x <$> itertools_product pools')
  end.

(** [a.values[np.sum(index[a_indexes] * a_cumprod)]] *)
Definition cell_of (vals : list Np.double) (index indexes cumprod : list Z)
  : result Np.double :=
  let! digits := Np.take index indexes in
  let! terms := Np.multiply digits cumprod in
  Np.getitem vals (Np.sum terms).

(** The guarded division of one cell: the [try] / [except FloatingPointError]
    of the ['D'] loop; the handler appends [0]. *)
Definition divide_cell (x y : Np.double) : result Np.double :=
  match Np.true_divide x y with
  | Raise FloatingPointError => Return (Np.of_int 0)
  | r => r
  end.

(** The body of the two loops: ['M'] multiplies the two cells, ['D']
    divides them under the [try]. *)
Definition apply_operation (op : operation) (x y : Np.double) : result Np.double :=
  match op with
  | M => Return (Np.mul x y)
  | D => divide_cell x y
  end.

(** [_bivar_factor_operation] *)
Definition _bivar_factor_operation (phi1 phi2 : Factor) (op : operation) : result Factor :=
  let phi1_vars := scope phi1 in
  let phi2_vars := scope phi2 in
  let common_var_list := filter (fun v => v ∈ phi2_vars) phi1_vars in
  match common_var_list with
  | _ :: _ =>
      let extra := filter (fun v => v ∉ common_var_list) (scope phi2) in
      let vars := phi1_vars ++ extra in
      let! extra_card := collect (get_cardinality phi2) extra in
      let card := cardinality phi1 ++ extra_card in
      let phi1_indexes := Py.range (Z.of_nat (length (variables phi1))) in
      let! phi2_indexes := collect (fun v => Py.index v vars) (scope phi2) in
      let phi1_cumprod := cumprod_strides (cardinality phi1) in
      let phi2_cumprod := cumprod_strides (cardinality phi2) in
      let! vals :=
        collect (fun index =>
                let! x := cell_of (values phi1) index phi1_indexes phi1_cumprod in
                let! y := cell_of (values phi2) index phi2_indexes phi2_cumprod in
                apply_operation op x y)
             (itertools_product (Py.range <$> card)) in
      Factor_init vars card vals
  | [] =>
      let! vals :=
        match op with
        | M => Return (values phi1 ≫= (fun value => Np.mul value <$> values phi2))
        | D => Raise ValueError_NoCommonScope
        end in
      Factor_init (phi1_vars ++ phi2_vars) (cardinality phi1 ++ cardinality phi2) vals
  end.

(** [factor_product]: a left fold over its arguments; [functools.reduce] needs at least
    one argument. *)
Definition factor_product (phi : Factor) (args : list Factor) : result Factor :=
  fold_left (fun acc phi2 => let! phi1 := acc in _bivar_factor_operation phi1 phi2 M)
            args (Return phi).

(** [factor_divide] *)
Definition factor_divide (phi1 phi2 : Factor) : result Factor :=
  _bivar_factor_operation phi1 phi2 D.

(** [Factor.product] and [Factor.divide] *)
Definition product (self : Factor) (factors : list Factor) : result Factor :=
  factor_product self factors.

Definition divide (self factor : Factor) : result Factor :=
  factor_divide self factor.

(** ** Derived notions used in the statements *)

(** The place values of a scope, by recursion on the cardinalities: the
    stride of a position is the product of the cardinalities after it. *)
Fixpoint strides (card : list Z) : list Z :=
  match card with
  | [] => []
  | _ :: cs => Np.prod cs :: strides cs
  end.

(** The flat index of a tuple of state indices, as the binary operation
    computes it: [np.sum(digits * cumprod)]. *)
Definition flat_index (card digits : list Z) : Z :=
  Np.sum (zip_with Z.mul digits (cumprod_strides card)).

(** A tuple of state indices within the cardinalities. *)
Definition in_range (digits card : list Z) : Prop :=
  Forall2 (fun d c => 0 <= d < c) digits card.

(** The class invariant: distinct variables, positive cardinalities, the
    state labels the constructor derives, and a buffer of
    [prod cardinality] cells. *)
Record wf_Factor (f : Factor) : Prop := {
  wf_nodup : NoDup (scope f);
  wf_pos : Forall (fun c => 0 < c) (cardinality f);
  wf_length : length (variables f) = length (cardinality f);
  wf_labels : variables f
              = zip_with (fun v c => (v, state_labels v c)) (scope f) (cardinality f);
  wf_size : Z.of_nat (length (values f)) = Np.prod (cardinality f)
}.

(** The label of state [d] of variable [v]. *)
Definition state_label (v : string) (d : Z) : string := v +:+ "_" +:+ Py.str d.

(** ** Joint cells of two factors *)

(** The scope of a binary combination: the first factor's scope, then the
    variables of the second that the first does not have. *)
Definition union_scope (phi1 phi2 : Factor) : list string :=
  scope phi1 ++
  filter (fun v => v ∉ filter (fun v => v ∈ scope phi2) (scope phi1)) (scope phi2).

(** The value of [f] at the joint assignment [idx] of the scope [vars]: the
    digits of the variables of [f] are picked out of [idx] and weighted by
    the strides of [f], as the binary operation does. *)
Definition value_at (f : Factor) (vars : list string) (idx : list Z) : result Np.double :=
  let! indexes := collect (fun v => Py.index v vars) (scope f) in
  cell_of (values f) idx indexes (cumprod_strides (cardinality f)).

(** [c] is the cardinality of the variable [v] of [f]. *)
Definition card_of (f : Factor) (v : string) (c : Z) : Prop :=
  exists i : nat, scope f !! i = Some v /\ cardinality f !! i = Some c.

(** A variable common to two factors has the same cardinality in both. *)
Definition compatible (phi1 phi2 : Factor) : Prop :=
  forall v c1 c2, card_of phi1 v c1 -> card_of phi2 v c2 -> c1 = c2.

(** The scope of [f] embeds in the joint scope [vars] with cardinalities
    [card]: every variable of [f] occurs in [vars], with the cardinality it
    has in [f]. *)
Definition joint_scope (vars : list string) (card : list Z) (f : Factor) : Prop :=
  NoDup vars /\ length vars = length card /\
  (forall v, v ∈ scope f -> v ∈ vars) /\
  (forall (p : nat) v c c',
     vars !! p = Some v -> card !! p = Some c -> card_of f v c' -> c' = c).

(** ** Valid arguments of the axis operations *)

(** A token that [Factor.reduce] parses as variable [var] in state [state]:
    it contains ['_'], splits into exactly two parts, and the second part
    is an integer literal. *)
Definition parses_as (tok var : string) (state : Z) : Prop :=
  Py.contains "_" tok = true /\
  exists idx, Py.split "_" tok = [var; idx] /\ Py.int idx = Return state.

(** [state] is a state of the variable [var] of the factor. *)
Definition valid_state (f : Factor) (var : string) (state : Z) : Prop :=
  exists (k : nat) (c : Z),
    scope f !! k = Some var /\ cardinality f !! k = Some c /\ 0 <= state < c.

(** The three axis operations with their first argument. *)
Inductive axis_call : Type :=
  | Marginalize (vars : str_or_list)
  | Reduce (vals : str_or_list)
  | Normalize.

Definition run (c : axis_call) (inplace : bool) (self : Factor)
  : Factor * result (option Factor) :=
  match c with
  | Marginalize vars => marginalize self vars inplace
  | Reduce vals => reduce self vals inplace
  | Normalize => normalize self inplace
  end.

(** Valid arguments: distinct variables of the scope for [marginalize];
    tokens naming distinct variables of the scope, each with one of its
    states, for [reduce]; a non-zero total for [normalize]. *)
Definition valid_call (f : Factor) (c : axis_call) : Prop :=
  match c with
  | Marginalize vars =>
      NoDup (as_list vars) /\ forall v, v ∈ as_list vars -> v ∈ scope f
  | Reduce vals =>
      exists parsed : list (string * Z),
        Forall2 (fun tok vs => parses_as tok (fst vs) (snd vs)) (as_list vals) parsed /\
        NoDup (fst <$> parsed) /\
        Forall (fun vs => valid_state f (fst vs) (snd vs)) parsed
  | Normalize => Np.is_zero (Np.sum_double (values f)) = false
  end.

(** ** Objects and identity

    A [Factor] instance has three attributes, each a reference to an object
    of its own: [variables] to an [OrderedDict], [cardinality] to an integer
    array and [values] to an array of doubles.  The methods below are the
    methods of the class once more, this time as programs on the heap:
    [factor = self] aliases the receiver, [Factor(...)] allocates, an
    assignment to an attribute rebinds it to a newly built array, and [del]
    updates the dictionary in place. *)

Definition loc : Type := positive.

Record FactorObject : Type := mkObject {
  variables_ref : loc;
  cardinality_ref : loc;
  values_ref : loc
}.

Record Heap : Type := mkHeap {
  dicts : gmap loc (list (string * list string));
  int_arrays : gmap loc (list Z);
  double_arrays : gmap loc (list Np.double);
  objects : gmap loc FactorObject
}.

(** What an instance looks like to its users: the contents of its three
    attributes. *)
Definition view (h : Heap) (l : loc) : option Factor :=
  match objects h !! l with
  | Some o =>
      match dicts h !! variables_ref o, int_arrays h !! cardinality_ref o,
            double_arrays h !! values_ref o with
      | Some d, Some c, Some v => Some (mkFactor d c v)
      | _, _, _ => None
      end
  | None => None
  end.

(** The instance that a successful [Factor(...)] leaves on the heap: a new
    [OrderedDict], two new arrays ([np.array] copies its argument) and a
    new object that refers to them. *)
Definition new (h : Heap) (f : Factor) : Heap * loc :=
  let d := fresh (dom (dicts h)) in
  let c := fresh (dom (int_arrays h)) in
  let v := fresh (dom (double_arrays h)) in
  let l := fresh (dom (objects h)) in
  (mkHeap (<[d := variables f]> (dicts h))
          (<[c := cardinality f]> (int_arrays h))
          (<[v := values f]> (double_arrays h))
          (<[l := mkObject d c v]> (objects h)), l).

(** A program on the heap: it ends with a new heap and a value or an
    exception.  [None] stands for an attribute access on a location that
    holds no instance, which a Python program cannot write. *)
Definition prog (A : Type) : Type := Heap -> option (Heap * result A).

Definition ret {A} (x : A) : prog A := fun h => Some (h, Return x).

(** A computation that reads no object: its exception, if any, is raised. *)
Definition lift {A} (r : result A) : prog A := fun h => Some (h, r).

Definition and_then {A B} (m : prog A) (k : A -> prog B) : prog B :=
  fun h =>
    match m h with
    | Some (h', Return x) => k x h'
    | Some (h', Raise e) => Some (h', Raise e)
    | None => None
    end.

Notation "'do!' x ':=' e 'in' k" := (and_then e (fun x => k))
  (at level 10, x name, e at level 100, k at level 200).

(** Reading the attributes of an instance. *)
Definition getattrs (l : loc) : prog Factor :=
  fun h => match view h l with
           | Some f => Some (h, Return f)
           | None => None
           end.

(** [Factor(variables, cardinality, value)].  An instance whose
    construction raises is unreachable and is not recorded. *)
Definition Factor_new (vars : list string) (card : list Z) (value : list Np.double)
  : prog loc :=
  fun h =>
    match Factor_init vars card value with
    | Raise e => Some (h, Raise e)
    | Return f => let (h', l) := new h f in Some (h', Return l)
    end.

(** [factor.values = a] for a newly built array [a]. *)
Definition set_values (factor : loc) (a : list Np.double) : prog unit :=
  fun h =>
    match objects h !! factor with
    | Some o =>
        let v := fresh (dom (double_arrays h)) in
        Some (mkHeap (dicts h) (int_arrays h) (<[v := a]> (double_arrays h))
                     (<[factor := mkObject (variables_ref o) (cardinality_ref o) v]>
                        (objects h)),
              Return tt)
    | None => None
    end.

(** [factor.cardinality = a] for a newly built array [a]. *)
Definition set_cardinality (factor : loc) (a : list Z) : prog unit :=
  fun h =>
    match objects h !! factor with
    | Some o =>
        let c := fresh (dom (int_arrays h)) in
        Some (mkHeap (dicts h) (<[c := a]> (int_arrays h)) (double_arrays h)
                     (<[factor := mkObject (variables_ref o) c (values_ref o)]>
                        (objects h)),
              Return tt)
    | None => None
    end.

(** [del(factor.variables[var])]: the dictionary is updated in place. *)
Definition del_variable (factor : loc) (var : string) : prog unit :=
  fun h =>
    match objects h !! factor with
    | Some o =>
        match dicts h !! variables_ref o with
        | Some d =>
            Some (mkHeap (<[variables_ref o := odict_del var d]> (dicts h))
                         (int_arrays h) (double_arrays h) (objects h),
                  Return tt)
        | None => None
        end
    | None => None
    end.

(** A [for] loop whose body acts on the heap. *)
Fixpoint for_each_on {A} (body : A -> prog unit) (l : list A) : prog unit :=
  match l with
  | [] => ret tt
  | x :: l' => do! _ := body x in for_each_on body l'
  end.

Module Method.

(** Body of the elimination loop of [Factor.marginalize]. *)
Definition marginalize_step (factor : loc) (variable : string) : prog unit :=
  do! f := getattrs factor in
  do! vals := lift (_marginalize_single_variable f variable) in
  do! _ := set_values factor vals in
  do! f := getattrs factor in
  do! index := lift (Py.index variable (scope f)) in
  do! _ := del_variable factor variable in
  do! f := getattrs factor in
  set_cardinality factor (Np.delete (cardinality f) index).

(** [Factor.marginalize] *)
Definition marginalize (self : loc) (vars : str_or_list) (inplace : bool)
  : prog (option loc) :=
  let vars := as_list vars in
  do! f := getattrs self in
  match list_find (fun v => Py.mem v (scope f) = false) vars with
  | Some (_, v) => lift (Raise (ScopeError v))
  | None =>
      do! factor := (if inplace then ret self
                     else Factor_new (scope f) (cardinality f) (values f)) in
      do! _ := for_each_on (marginalize_step factor) vars in
      ret (if inplace then None else Some factor)
  end.

(** Body of the loop of [Factor.reduce]. *)
Definition reduce_step (factor : loc) (value : string) : prog unit :=
  do! f := getattrs factor in
  do! slice := lift (reduce_slice f value) in
  let '(var, index, vals) := slice in
  do! _ := set_values factor vals in
  do! _ := del_variable factor var in
  do! f := getattrs factor in
  set_cardinality factor (Np.delete (cardinality f) index).

(** [Factor.reduce] *)
Definition reduce (self : loc) (vals : str_or_list) (inplace : bool)
  : prog (option loc) :=
  let vals := as_list vals in
  do! f := getattrs self in
  do! factor := (if inplace then ret self
                 else Factor_new (scope f) (cardinality f) (values f)) in
  do! _ := for_each_on (reduce_step factor) vals in
  ret (if inplace then None else Some factor).

(** [Factor.normalize] *)
Definition normalize (self : loc) (inplace : bool) : prog (option loc) :=
  if inplace then
    do! f := getattrs self in
    do! vals := lift (normalized_values (values f)) in
    do! _ := set_values self vals in
    ret None
  else
    do! f := getattrs self in
    do! factor := Factor_new (scope f) (cardinality f) (values f) in
    do! g := getattrs factor in
    do! vals := lift (normalized_values (values g)) in
    do! _ := set_values factor vals in
    ret (Some factor).

End Method.

(** A call [self.method(arg, inplace)] on the heap. *)
Definition call (c : axis_call) (inplace : bool) (self : loc) : prog (option loc) :=
  match c with
  | Marginalize vars => Method.marginalize self vars inplace
  | Reduce vals => Method.reduce self vals inplace
  | Normalize => Method.normalize self inplace
  end.

(** Instances built by the constructor never share a dictionary, and the
    objects that an instance refers to exist. *)
Definition separated (h : Heap) : Prop :=
  (forall l1 l2 o1 o2,
     objects h !! l1 = Some o1 -> objects h !! l2 = Some o2 ->
     variables_ref o1 = variables_ref o2 -> l1 = l2) /\
  (forall l o, objects h !! l = Some o ->
     is_Some (dicts h !! variables_ref o) /\
     is_Some (int_arrays h !! cardinality_ref o) /\
     is_Some (double_arrays h !! values_ref o)).

(** What an axis operation makes of a factor [f] on a valid argument:
    [marginalize] and [reduce] leave the scope without the variables named,
    in the old order; [normalize] keeps scope and cardinalities and divides
    every value by the total. *)
Definition outcome (c : axis_call) (f g : Factor) : Prop :=
  match c with
  | Marginalize vars =>
      scope g = filter (fun v => v ∉ as_list vars) (scope f)
  | Reduce vals =>
      exists parsed : list (string * Z),
        Forall2 (fun tok vs => parses_as tok (fst vs) (snd vs)) (as_list vals) parsed /\
        scope g = filter (fun v => v ∉ fst <$> parsed) (scope f)
  | Normalize =>
      variables g = variables f /\ cardinality g = cardinality f /\
      Np.true_divide_scalar (values f) (Np.sum_double (values f)) = Return (values g)
  end.

(** The heap [h'] is the heap [h] after the instance at [l] was brought to
    show [f']: no instance was allocated and every other instance shows
    what it showed. *)
Definition updates (h : Heap) (l : loc) (f' : Factor) (h' : Heap) : Prop :=
  view h' l = Some f' /\
  (forall l', l' <> l -> view h' l' = view h l') /\
  dom (objects h') = dom (objects h) /\
  separated h'.

(** ** The factors of the documented scenarios *)

Local Open Scope string_scope.

(** [Factor(['x1', 'x2', 'x3'], [2, 3, 2], range(12))] *)
Definition phi_x1x2x3 : Factor :=
  {| variables := [("x1", ["x1_0"; "x1_1"]);
                   ("x2", ["x2_0"; "x2_1"; "x2_2"]);
                   ("x3", ["x3_0"; "x3_1"])];
     cardinality := [2; 3; 2];
     values := Np.of_int <$> Py.range 12 |}.

(** [Factor(['x3', 'x1'], [2, 2], [x+1 for x in range(4)])] *)
Definition phi_x3x1 : Factor :=
  {| variables := [("x3", ["x3_0"; "x3_1"]); ("x1", ["x1_0"; "x1_1"])];
     cardinality := [2; 2];
     values := Np.of_int <$> [1; 2; 3; 4] |}.

(** [Factor(['x1'], [2], [0, 1])] and [Factor(['x1'], [2], [3, 1])] *)
Definition phi_zero_one : Factor :=
  {| variables := [("x1", ["x1_0"; "x1_1"])];
     cardinality := [2];
     values := Np.of_int <$> [0; 1] |}.

Definition phi_three_one : Factor :=
  {| variables := [("x1", ["x1_0"; "x1_1"])];
     cardinality := [2];
     values := Np.of_int <$> [3; 1] |}.


(** The value vector that scenario A of the specification lists:
    [0, 0.5, 0.6667, 0.75, 4.0, 2.5, 2.0, 1.75, 8.0, 4.5, 3.3333, 2.75]. *)
Definition scenario_A_listed : list Np.double :=
  [Np.of_int 0; Np.decimal 5 10; Np.decimal 6667 10000; Np.decimal 75 100;
   Np.of_int 4; Np.decimal 25 10; Np.of_int 2; Np.decimal 175 100;
   Np.of_int 8; Np.decimal 45 10; Np.decimal 33333 10000; Np.decimal 275 100].

(** The quotients [phi1[6*x1 + 2*x2 + x3] / phi2[2*x3 + x1]] in the order of
    the joint assignments of (x1, x2, x3). *)
Definition scenario_A_quotients : list Np.double :=
  [Np.of_int 0; Np.decimal 1 3; Np.of_int 2; Np.of_int 1;
   Np.of_int 4; Np.decimal 5 3; Np.of_int 3; Np.decimal 7 4;
   Np.of_int 4; Np.decimal 9 4; Np.of_int 5; Np.decimal 11 4].

(** A factor over a variable of its own, [Factor(['y'], [2], [3, 4])]. *)
Definition phi_y : Factor :=
  {| variables := [("y", ["y_0"; "y_1"])];
     cardinality := [2];
     values := Np.of_int <$> [3; 4] |}.

(** A heap with two instances, [phi_x1x2x3] first. *)
Definition empty_heap : Heap := mkHeap ∅ ∅ ∅ ∅.
Definition heap_one : Heap := fst (new empty_heap phi_x1x2x3).
Definition loc_one : loc := snd (new empty_heap phi_x1x2x3).
Definition heap_two : Heap := fst (new heap_one phi_x3x1).
Definition loc_two : loc := snd (new heap_one phi_x3x1).

Local Close Scope string_scope.

(** ** The remaining methods of the class *)

(** [np.ones(n)] *)
Definition np_ones (n : Z) : list Np.double := repeat (Np.of_int 1) (Z.to_nat n).

(** [Factor.identity_factor].  The constructor is handed the [OrderedDict]
    itself; its length is the number of keys and iterating over it yields
    the keys, i.e. the scope. *)
Definition identity_factor (self : Factor) : result Factor :=
  Factor_init (scope self) (cardinality self) (np_ones (Np.prod (cardinality self))).

(** [x == y] on [np.double]: NaN differs from everything, itself included,
    and the two zeros are equal. *)
Definition float_eq (x y : Np.double) : bool := SFeqb x y.

(** [all(a == b)] on two arrays.  Arrays of the same length are compared
    element by element and a one-element array is broadcast.  For other
    lengths the answer depends on the numpy version (an exception from [==],
    or the scalar [False] on which [all] raises); [None] stands for it. *)
Definition all_equal {A} (eqb : A -> A -> bool) (a b : list A) : option bool :=
  if Nat.eqb (length a) (length b) then Some (forallb id (zip_with eqb a b))
  else match a, b with
       | [x], _ => Some (forallb (eqb x) b)
       | _, [y] => Some (forallb (fun x => eqb x y) a)
       | _, _ => None
       end.

(** [Factor.__eq__] against another [Factor]: the dictionaries are compared
    as ordered sequences of items, then, only if they are equal, the
    cardinalities, then, only if those are all equal, the values. *)
Definition Factor_eq (self other : Factor) : option bool :=
  if bool_decide (variables self = variables other) then
    match all_equal Z.eqb (cardinality self) (cardinality other) with
    | Some true => all_equal float_eq (values self) (values other)
    | r => r
    end
  else Some false.

(** [Factor.__mul__] *)
Definition Factor_mul (self other : Factor) : result Factor := product self [other].

(** A value of the model that is a double: the mantissa and exponent of a
    finite value are the canonical ones of binary64. *)
Definition is_double (x : Np.double) : Prop := valid_binary Np.prec Np.emax x = true.

(** [Factor(['x1'], [8], [1, 1e16, -1e16, -1, 0, 0, 0, 0])]: the values add
    up to [0.0] in the order of [np.sum] and to [-1.0] from left to right. *)
Definition phi_cancel : Factor :=
  {| variables := [("x1"%string, state_labels "x1" 8)];
     cardinality := [8];
     values := Np.of_int <$> [1; 10 ^ 16; - 10 ^ 16; -1; 0; 0; 0; 0] |}.

(** [Factor(['x1'], [2], [0, 0])] *)
Definition phi_zero_zero : Factor :=
  {| variables := [("x1"%string, ["x1_0"%string; "x1_1"%string])];
     cardinality := [2];
     values := Np.of_int <$> [0; 0] |}.

(** A string of ASCII decimal digits. *)
Definition is_digit (a : ascii) : bool :=
  let n := nat_of_ascii a in (Nat.leb 48 n && Nat.leb n 57)%bool.

Fixpoint all_digits (s : string) : bool :=
  match s with
  | EmptyString => true
  | String a s' => (is_digit a && all_digits s')%bool
  end.

(** A factor over a variable whose name contains an underscore,
    [Factor(['x_1'], [2], [3, 4])]. *)
Definition phi_underscore : Factor :=
  {| variables := [("x_1", ["x_1_0"; "x_1_1"])];
     cardinality := [2];
     values := Np.of_int <$> [3; 4] |}.

(** The joint assignment [idx] of the scope [vars] gives the variable [v]
    the state [d]. *)
Definition assigns (vars : list string) (idx : list Z) (v : string) (d : Z) : Prop :=
  exists p : nat, vars !! p = Some v /\ idx !! p = Some d.

(** * Proofs *)

(** Closed decidable facts (membership, absence of duplicates) are settled
    by evaluating their decision procedure. *)
Ltac by_evaluation := apply (bool_decide_unpack _); by vm_compute.

(** The class invariant of a concrete factor. *)
Ltac wf_by_evaluation :=
  constructor; [by_evaluation | repeat constructor | done | done | done].

(** ** Facts about the built-ins *)

Section Builtins.
Context {A B : Type}.
Implicit Types (f : A -> result B).

Lemma collect_Return_fmap f (g : A -> B) (l : list A) :
  (forall x, x ∈ l -> f x = Return (g x)) -> collect f l = Return (g <$> l).
Proof.
  induction l as [|x l IH]; intros Hf; simpl; [done|].
  rewrite Hf by left. simpl. rewrite IH; [done|].
  intros y Hy. apply Hf. by right.
Qed.

Lemma collect_total f (l : list A) :
  (forall x, x ∈ l -> exists y, f x = Return y) -> exists l', collect f l = Return l'.
Proof.
  induction l as [|x l IH]; intros Hf; simpl; [by eexists|].
  destruct (Hf x) as [y ->]; [left|]. simpl.
  destruct IH as [l' ->]; [|by eexists].
  intros z Hz. apply Hf. by right.
Qed.

Lemma collect_length f (l : list A) (l' : list B) : collect f l = Return l' -> length l' = length l.
Proof.
  revert l'. induction l as [|x l IH]; intros l'; simpl.
  - by intros [= <-].
  - destruct (f x); [|done]. simpl.
    destruct (collect f l) as [ys|]; [|done]. simpl.
    intros [= <-]. simpl. f_equal. by apply IH.
Qed.

Lemma collect_lookup f (l : list A) (l' : list B) (i : nat) x :
  collect f l = Return l' -> l !! i = Some x ->
  exists y, l' !! i = Some y /\ f x = Return y.
Proof.
  revert l' i. induction l as [|a l IH]; intros l' i; simpl; [by intros _ ?|].
  destruct (f a) as [b|] eqn:Hfa; [|done]. simpl.
  destruct (collect f l) as [ys|]; [|done]. simpl.
  intros [= <-]. destruct i as [|i]; simpl.
  - intros [= <-]. eauto.
  - intros Hx. by apply IH.
Qed.

End Builtins.

Lemma getitem_lookup {A} (l : list A) (i : Z) a :
  0 <= i -> l !! Z.to_nat i = Some a -> Py.getitem l i = Return a.
Proof.
  intros Hi Hl. unfold Py.getitem.
  pose proof (lookup_lt_Some _ _ _ Hl) as Hlt.
  assert ((i <? 0) = false) as -> by lia.
  assert (((0 <=? i) && (i <? Z.of_nat (length l))) = true) as -> by lia.
  by rewrite Hl.
Qed.

Lemma take_Return {A} (l : list A) (idx : list Z) :
  Forall (fun i => 0 <= i < Z.of_nat (length l)) idx ->
  exists l', Np.take l idx = Return l' /\ length l' = length idx.
Proof.
  intros Hidx. unfold Np.take.
  destruct (collect_total (Np.getitem l) idx) as [l' Hl'].
  - intros i Hi. rewrite Forall_forall in Hidx. specialize (Hidx i Hi).
    destruct (lookup_lt_is_Some_2 l (Z.to_nat i)) as [a Ha]; [lia|].
    exists a. apply getitem_lookup; [lia|done].
  - exists l'. split; [done|]. by eapply collect_length.
Qed.


(** ** Products of cardinalities and strides *)

Lemma prod_app (a b : list Z) : Np.prod (a ++ b) = Np.prod a * Np.prod b.
Proof.
  unfold Np.prod. induction a as [|x a IH]; simpl; [lia|]. rewrite IH. lia.
Qed.

Lemma prod_rev (a : list Z) : Np.prod (rev a) = Np.prod a.
Proof.
  induction a as [|x a IH]; simpl; [done|].
  rewrite prod_app, IH. unfold Np.prod. simpl. lia.
Qed.

Lemma prod_pos (a : list Z) : Forall (fun c => 0 < c) a -> 0 < Np.prod a.
Proof.
  unfold Np.prod. induction 1 as [|x a Hx _ IH]; simpl; lia.
Qed.

Lemma prod_take_drop (a : list Z) (k : nat) :
  Np.prod a = Np.prod (take k a) * Np.prod (drop k a).
Proof. by rewrite <- prod_app, take_drop. Qed.

Lemma cumprod_from_snoc (acc c : Z) (a : list Z) :
  Np.cumprod_from acc (a ++ [c]) = Np.cumprod_from acc a ++ [acc * Np.prod a * c].
Proof.
  revert acc. induction a as [|x a IH]; intros acc; simpl.
  - f_equal. unfold Np.prod. simpl. ring.
  - rewrite IH. f_equal. f_equal. f_equal. unfold Np.prod. simpl. ring.
Qed.

Lemma cumprod_from_lookup (acc : Z) (a : list Z) (j : nat) :
  (j < length a)%nat ->
  Np.cumprod_from acc a !! j = Some (acc * Np.prod (take (S j) a)).
Proof.
  revert acc j. induction a as [|x a IH]; intros acc j Hj; simpl in *; [lia|].
  destruct j as [|j]; simpl.
  - f_equal. unfold Np.prod. destruct a; simpl; lia.
  - rewrite IH by lia. f_equal. unfold Np.prod. simpl. lia.
Qed.

Lemma cumprod_from_length (acc : Z) (a : list Z) :
  length (Np.cumprod_from acc a) = length a.
Proof. revert acc. induction a; intros; simpl; [done|]. by f_equal. Qed.

(** Entry [j] of [cum_cardinality] is the product of the cardinalities from
    position [j] on. *)
Lemma cum_cardinality_lookup (card : list Z) (j : nat) :
  Forall (fun c => 0 < c) card -> (j <= length card)%nat ->
  cum_cardinality card !! j = Some (Np.prod (drop j card)).
Proof.
  intros Hpos Hj. unfold cum_cardinality. rewrite list_lookup_fmap.
  assert ((1 :: Np.cumprod card) !! j = Some (Np.prod (take j card))) as ->.
  { destruct j as [|j]; simpl; [done|].
    unfold Np.cumprod. rewrite cumprod_from_lookup by lia. f_equal. lia. }
  simpl. f_equal. rewrite (prod_take_drop card j).
  assert (0 < Np.prod (take j card)).
  { apply prod_pos. by apply Forall_take. }
  rewrite Z.mul_comm. apply Z.div_mul. lia.
Qed.

Lemma cum_cardinality_length (card : list Z) :
  length (cum_cardinality card) = S (length card).
Proof.
  unfold cum_cardinality, Np.cumprod. rewrite length_fmap. simpl.
  by rewrite cumprod_from_length.
Qed.

(** The stride array of the source is the list of place values. *)
Lemma cumprod_strides_eq (card : list Z) : cumprod_strides card = strides card.
Proof.
  unfold cumprod_strides, Np.delete. simpl.
  enough (rev (Np.cumprod (rev card)) ++ [1] = Np.prod card :: strides card) as ->
    by done.
  induction card as [|c cs IH]; simpl; [done|].
  unfold Np.cumprod in *. rewrite cumprod_from_snoc, rev_app_distr. simpl.
  rewrite IH, prod_rev. f_equal. unfold Np.prod. simpl. lia.
Qed.

Lemma strides_length (card : list Z) : length (strides card) = length card.
Proof. induction card; simpl; [done|]. by f_equal. Qed.

Lemma strides_snoc_last (cs : list Z) (c : Z) : last (strides (cs ++ [c])) = Some 1.
Proof.
  induction cs as [|x cs IH]; simpl; [done|].
  destruct (strides (cs ++ [c])) eqn:E; [|done].
  pose proof (strides_length (cs ++ [c])) as Hlen. rewrite E, length_app in Hlen.
  simpl in Hlen. lia.
Qed.

Lemma flat_index_cons (c d : Z) (cs ds : list Z) :
  flat_index (c :: cs) (d :: ds) = d * Np.prod cs + flat_index cs ds.
Proof. unfold flat_index. by rewrite !cumprod_strides_eq. Qed.

Lemma flat_index_nil : flat_index [] [] = 0.
Proof. done. Qed.

Lemma flat_index_bound (card digits : list Z) :
  in_range digits card -> 0 <= flat_index card digits < Np.prod card.
Proof.
  induction 1 as [|d c ds cs Hd _ IH].
  - rewrite flat_index_nil. unfold Np.prod. simpl. lia.
  - rewrite flat_index_cons. change (Np.prod (c :: cs)) with (c * Np.prod cs). nia.
Qed.

(** ** Decoding a flat index *)

Lemma flat_index_snoc (cs ds : list Z) (c d : Z) :
  length ds = length cs ->
  flat_index (cs ++ [c]) (ds ++ [d]) = flat_index cs ds * c + d.
Proof.
  revert ds. induction cs as [|x cs IH]; intros [|y ds] Hlen; simpl in *; try lia.
  - rewrite flat_index_cons, flat_index_nil. unfold Np.prod. simpl. lia.
  - rewrite !flat_index_cons, IH, prod_app by lia.
    change (Np.prod [c]) with (c * 1). ring.
Qed.

Lemma assign_fold_acc (l acc : list Z) (i : Z) :
  fst (fold_left assign_step l (acc, i)) = fst (fold_left assign_step l ([], i)) ++ acc.
Proof.
  revert acc i. induction l as [|c l IH]; intros acc i; simpl; [done|].
  unfold assign_step at 2 4. simpl.
  rewrite (IH (_ :: acc)), (IH [_]). by rewrite <- app_assoc.
Qed.

(** The digit of the last variable is resolved first: it is the remainder
    of the index by the last cardinality, and the other digits decode the
    quotient. *)
Lemma assign_digits_snoc (cs : list Z) (c i : Z) :
  assign_digits (cs ++ [c]) i = assign_digits cs (i / c) ++ [i mod c].
Proof.
  unfold assign_digits. rewrite rev_app_distr. simpl. unfold assign_step at 2. simpl.
  by rewrite assign_fold_acc.
Qed.

Lemma assign_digits_spec (card : list Z) (i : Z) :
  Forall (fun c => 0 < c) card -> 0 <= i ->
  in_range (assign_digits card i) card /\
  flat_index card (assign_digits card i) = i mod Np.prod card.
Proof.
  revert i. induction card as [|c cs IH] using rev_ind; intros i Hpos Hi.
  - split; [constructor|]. unfold Np.prod. simpl. by rewrite Z.mod_1_r.
  - apply Forall_app in Hpos as [Hcs Hc]. apply Forall_inv in Hc.
    simpl in Hc. rewrite assign_digits_snoc.
    destruct (IH (i / c) Hcs) as [Hr Hf]; [apply Z.div_pos; lia|].
    split.
    + apply Forall2_app; [done|]. constructor; [|constructor].
      by apply Z.mod_pos_bound.
    + rewrite flat_index_snoc by (by eapply Forall2_length).
      rewrite Hf, prod_app. change (Np.prod [c]) with (c * 1).
      rewrite Z.mul_1_r, (Z.mul_comm (Np.prod cs) c).
      pose proof (prod_pos cs Hcs).
      rewrite Z.rem_mul_r by lia. ring.
Qed.

Lemma state_labels_lookup (v : string) (c d : Z) :
  0 <= d < c -> state_labels v c !! Z.to_nat d = Some (state_label v d).
Proof.
  intros Hd. unfold state_labels, Py.range. rewrite list_lookup_fmap.
  assert (seqZ 0 c !! Z.to_nat d = Some d) as ->; [|done].
  apply lookup_seqZ. lia.
Qed.

(** The labels [Factor.assignment] builds from a tuple of state indices. *)
Lemma assignment_labels (f : Factor) (digits : list Z) :
  wf_Factor f -> in_range digits (cardinality f) ->
  collect (fun kv => Py.getitem (snd (fst kv)) (snd kv)) (zip (variables f) digits)
  = Return (zip_with state_label (scope f) digits).
Proof.
  intros Hwf Hr.
  rewrite (collect_Return_fmap _ (fun kv => state_label (fst (fst kv)) (snd kv))).
  - f_equal. unfold scope. generalize (variables f). clear.
    intros vs. revert digits. induction vs as [|[v ls] vs IH]; intros [|d ds]; simpl; try done.
    by rewrite IH.
  - intros [[v ls] d] Hin. simpl.
    apply list_elem_of_lookup in Hin as [j Hj].
    apply lookup_zip_with_Some in Hj as (vl & d' & [= <- <-] & Hv & Hd).
    rewrite (wf_labels f Hwf) in Hv.
    apply lookup_zip_with_Some in Hv as (v' & c & Heq & _ & Hc).
    simplify_eq.
    pose proof (Forall2_lookup_lr _ _ _ _ _ _ Hr Hd Hc) as Hdc. simpl in Hdc.
    apply getitem_lookup; [lia|]. by apply state_labels_lookup.
Qed.

(** ** The constructor establishes the class invariant *)

Lemma odict_set_fresh (k : string) (v : list string) (d : list (string * list string)) :
  k ∉ fst <$> d -> odict_set k v d = d ++ [(k, v)].
Proof.
  induction d as [|[k' v'] d IH]; simpl; [done|]. intros Hk.
  apply not_elem_of_cons in Hk as [Hne Hk].
  destruct (decide (k' = k)); [congruence|]. by rewrite IH.
Qed.

Lemma odict_fold_fresh (vars : list string) (card : list Z) (d : list (string * list string)) :
  NoDup vars -> (forall v, v ∈ vars -> v ∉ fst <$> d) ->
  fold_left (fun d vc => odict_set (fst vc) (state_labels (fst vc) (snd vc)) d)
            (zip vars card) d
  = d ++ zip_with (fun v c => (v, state_labels v c)) vars card.
Proof.
  revert card d. induction vars as [|v vars IH]; intros card d Hnd Hfresh; simpl.
  - by rewrite app_nil_r.
  - destruct card as [|c card]; simpl; [by rewrite app_nil_r|].
    apply NoDup_cons in Hnd as [Hv Hnd].
    rewrite odict_set_fresh by (apply Hfresh; left).
    rewrite IH; [by rewrite <- app_assoc|done|].
    intros w Hw. rewrite fmap_app. simpl. intros Hin.
    apply elem_of_app in Hin as [Hin|Hin].
    + by apply (Hfresh w); [right|].
    + apply list_elem_of_singleton in Hin. by subst.
Qed.

Lemma scope_zip_with (vars : list string) (card : list Z) :
  length vars = length card ->
  fst <$> zip_with (fun v c => (v, state_labels v c)) vars card = vars.
Proof.
  revert card. induction vars as [|v vars IH]; intros [|c card] Hlen; simpl in *; try done.
  f_equal. apply IH. lia.
Qed.

Lemma Factor_init_wf (vars : list string) (card : list Z) (value : list Np.double) :
  NoDup vars -> Forall (fun c => 0 < c) card -> length vars = length card ->
  Z.of_nat (length value) = Np.prod card ->
  exists f, Factor_init vars card value = Return f /\ wf_Factor f /\
            scope f = vars /\ cardinality f = card /\ values f = value /\
            variables f = zip_with (fun v c => (v, state_labels v c)) vars card.
Proof.
  intros Hnd Hpos Hlen Hsize. unfold Factor_init.
  rewrite Hlen, Nat.eqb_refl. simpl.
  rewrite odict_fold_fresh; [|done|intros ? _; apply not_elem_of_nil]. simpl.
  assert ((Z.of_nat (length value) =? Np.prod card) = true) as -> by lia. simpl.
  eexists. split; [done|].
  assert (scope (mkFactor (zip_with (fun v c => (v, state_labels v c)) vars card) card value)
          = vars) as Hscope by (by apply scope_zip_with).
  split; [|done].
  constructor; simpl; rewrite ?Hscope; try done.
  rewrite length_zip_with. lia.
Qed.

(** A factor that satisfies the invariant is rebuilt unchanged by the
    constructor: [Factor(self.scope(), self.cardinality, self.values)]. *)
Lemma Factor_init_copy (f : Factor) :
  wf_Factor f -> Factor_init (scope f) (cardinality f) (values f) = Return f.
Proof.
  intros Hwf.
  destruct (Factor_init_wf (scope f) (cardinality f) (values f))
    as (g & Hg & _ & _ & Hc & Hv & Hvars); try apply Hwf.
  - unfold scope. rewrite length_fmap. apply Hwf.
  - rewrite Hg. f_equal. destruct f, g; simpl in *. subst.
    f_equal. symmetry. apply (wf_labels _ Hwf).
Qed.

Lemma phi_x1x2x3_wf : wf_Factor phi_x1x2x3.
Proof. wf_by_evaluation. Qed.

Lemma phi_x3x1_wf : wf_Factor phi_x3x1.
Proof. wf_by_evaluation. Qed.

(** ** Decoding round trip and the documented scenarios *)

(** C4.  For a factor that satisfies the class invariant and a flat index
    [i] with [0 <= i <= prod(cardinality) - 1], [assignment] decodes [i] into
    one state label per variable; the underlying state indices lie within
    the cardinalities, the last variable of the scope carries the
    fastest-varying digit (its digit is [i mod] its cardinality, its place
    value is 1, and the earlier variables decode the quotient), and
    re-encoding the state indices with the place values that the binary
    operation uses gives [i] back. *)
Theorem C4_assignment_round_trip (f : Factor) (i : Z) :
  wf_Factor f -> 0 <= i <= Np.prod (cardinality f) - 1 ->
  let digits := assign_digits (cardinality f) i in
  assignment f [i] = Return [zip_with state_label (scope f) digits] /\
  in_range digits (cardinality f) /\
  flat_index (cardinality f) digits = i /\
  (forall cs c, cardinality f = cs ++ [c] ->
     digits = assign_digits cs (i / c) ++ [i mod c] /\
     last (cumprod_strides (cardinality f)) = Some 1).
Proof.
  intros Hwf Hi digits.
  destruct (assign_digits_spec (cardinality f) i) as [Hr Hflat];
    [apply Hwf|lia|]. fold digits in Hr, Hflat.
  split; [|split; [done|split]].
  - unfold assignment. simpl.
    assert ((i <=? Np.prod (cardinality f) - 1) = true) as -> by lia. simpl.
    fold digits. by rewrite assignment_labels.
  - rewrite Hflat. apply Z.mod_small. lia.
  - intros cs c Hcard. subst digits. rewrite Hcard. split.
    + apply assign_digits_snoc.
    + rewrite cumprod_strides_eq. apply strides_snoc_last.
Qed.

Lemma C4_witness :
  wf_Factor phi_x1x2x3 /\ 0 <= 7 <= Np.prod (cardinality phi_x1x2x3) - 1 /\
  assignment phi_x1x2x3 [7] = Return [["x1_1"; "x2_0"; "x3_1"]%string] /\
  flat_index (cardinality phi_x1x2x3) [1; 0; 1] = 7.
Proof.
  assert (0 <= 7 <= Np.prod (cardinality phi_x1x2x3) - 1) as Hi by (vm_compute; split; discriminate).
  split; [exact phi_x1x2x3_wf|]. split; [exact Hi|].
  destruct (C4_assignment_round_trip phi_x1x2x3 7 phi_x1x2x3_wf Hi) as (Ha & _ & Hf & _).
  split; [exact Ha | exact Hf].
Defined.

(** *** Division of one cell *)

Lemma divide_cell_total (x y : Np.double) : exists q, divide_cell x y = Return q.
Proof.
  unfold divide_cell, Np.true_divide. destruct (Np.signals_divide x y); by eexists.
Qed.

(** A finite non-zero value over a zero cell raises inside [try] and the
    handler stores 0. *)
Lemma divide_cell_finite_over_zero (s : bool) (m : positive) (e : Z) (s' : bool) :
  divide_cell (S754_finite s m e) (S754_zero s') = Return (Np.of_int 0).
Proof. done. Qed.

(** Zero over zero signals "invalid", which the error state does not raise:
    the handler is not entered and the quotient is NaN. *)
Lemma divide_cell_zero_over_zero (s s' : bool) :
  divide_cell (S754_zero s) (S754_zero s') = Return S754_nan.
Proof. done. Qed.


(** C1 (evaluation at the failing input).  Dividing
    [Factor(['x1'], [2], [0, 1])] by itself returns a factor whose cell
    for [x1_0], where numerator and denominator are both zero, holds NaN and
    not 0; with the numerator 3 in that cell the result is 0. *)
Theorem C1_zero_over_zero_cell :
  divide phi_zero_one phi_zero_one
  = Return (mkFactor (variables phi_zero_one) [2] [S754_nan; Np.of_int 1]) /\
  divide phi_three_one phi_zero_one
  = Return (mkFactor (variables phi_zero_one) [2] [Np.of_int 0; Np.of_int 1]).
Proof. split; by vm_compute. Qed.

(** C2 (counterexample).  The quotient of scenario A is not the listed
    vector: the code's cell 1 holds 1/3 (listed 0.5) and its cell 3 holds 1
    (listed 0.75). *)
Lemma C2_counterexample :
  exists F, divide phi_x1x2x3 phi_x3x1 = Return F /\
            values F !! 1%nat = Some (Np.decimal 1 3) /\
            scenario_A_listed !! 1%nat = Some (Np.decimal 5 10) /\
            values F !! 3%nat = Some (Np.of_int 1) /\
            scenario_A_listed !! 3%nat = Some (Np.decimal 75 100) /\
            values F <> scenario_A_listed.
Proof.
  eexists. split; [by vm_compute|]. simpl. repeat split. by vm_compute.
Qed.

(** C2 (amended).  For phi1 over (x1,x2,x3) with cardinalities (2,3,2) and
    values 0..11, and phi2 over (x3,x1) with cardinalities (2,2) and values
    [1,2,3,4], [phi1.divide(phi2)] returns the factor over (x1,x2,x3) with
    cardinalities (2,3,2) whose buffer is
    [0, 1/3, 2, 1, 4, 5/3, 3, 7/4, 4, 9/4, 5, 11/4] (each fraction rounded
    to the nearest double). *)
Theorem C2_divide_scenario_A :
  divide phi_x1x2x3 phi_x3x1
  = Return (mkFactor (variables phi_x1x2x3) [2; 3; 2] scenario_A_quotients).
Proof. by vm_compute. Qed.

(** C5.  On phi over (x1,x2,x3) with cardinalities (2,3,2) and values
    0..11, [marginalize(['x1', 'x3'])] first sums the two blocks of x1
    (leaving [6, 8, 10, 12, 14, 16] over (x2, x3)), then the two states of
    x3, and leaves the receiver over the scope (x2) with cardinality (3) and
    values [14, 22, 30]; the copy mode returns that same factor. *)
Theorem C5_marginalize_scenario_B :
  let after_x1 :=
    mkFactor [("x2", ["x2_0"; "x2_1"; "x2_2"]); ("x3", ["x3_0"; "x3_1"])]%string
             [3; 2] (Np.of_int <$> [6; 8; 10; 12; 14; 16]) in
  let after_x3 :=
    mkFactor [("x2", ["x2_0"; "x2_1"; "x2_2"])]%string [3]
             (Np.of_int <$> [14; 22; 30]) in
  marginalize phi_x1x2x3 (StrList ["x1"; "x3"]%string) true = (after_x3, Return None) /\
  marginalize phi_x1x2x3 (Str "x1") true = (after_x1, Return None) /\
  marginalize after_x1 (Str "x3") true = (after_x3, Return None) /\
  marginalize phi_x1x2x3 (StrList ["x1"; "x3"]%string) false
  = (phi_x1x2x3, Return (Some after_x3)) /\
  scope after_x3 = ["x2"%string].
Proof. repeat split; by vm_compute. Qed.

(** C7.  On the same phi, [reduce(['x1_0', 'x2_0'])] keeps the block of
    state 0 of x1 ([0..5] over (x2, x3)), then the block of state 0 of x2,
    and leaves the receiver over the scope (x3) with values [0, 1]. *)
Theorem C7_reduce_scenario_C :
  let after_x1 :=
    mkFactor [("x2", ["x2_0"; "x2_1"; "x2_2"]); ("x3", ["x3_0"; "x3_1"])]%string
             [3; 2] (Np.of_int <$> [0; 1; 2; 3; 4; 5]) in
  let after_x2 :=
    mkFactor [("x3", ["x3_0"; "x3_1"])]%string [2] (Np.of_int <$> [0; 1]) in
  reduce phi_x1x2x3 (StrList ["x1_0"; "x2_0"]%string) true = (after_x2, Return None) /\
  reduce phi_x1x2x3 (Str "x1_0") true = (after_x1, Return None) /\
  reduce after_x1 (Str "x2_0") true = (after_x2, Return None) /\
  reduce phi_x1x2x3 (StrList ["x1_0"; "x2_0"]%string) false
  = (phi_x1x2x3, Return (Some after_x2)) /\
  scope after_x2 = ["x3"%string].
Proof. repeat split; by vm_compute. Qed.

(** In-place [reduce] applies a token to the receiver before it looks at
    the next one. *)
Lemma reduce_in_place_step (f f1 : Factor) (tok : string) (toks : list string) :
  reduce_body f tok = (f1, Return tt) ->
  reduce f (StrList (tok :: toks)) true = reduce f1 (StrList toks) true.
Proof. intros Hstep. unfold reduce. simpl. by rewrite Hstep. Qed.

(** C10.  In-place [reduce] is not atomic: on phi over (x1,x2,x3), a list
    whose first token ['x1_0'] is valid and whose second token is malformed,
    names an unknown variable, or names a state out of range raises the
    corresponding error, and the receiver is left with x1 already removed
    from its scope and its buffer already cut down to [0..5]. *)
Theorem C10_reduce_in_place_keeps_earlier_reductions :
  let after_x1 :=
    mkFactor [("x2", ["x2_0"; "x2_1"; "x2_2"]); ("x3", ["x3_0"; "x3_1"])]%string
             [3; 2] (Np.of_int <$> [0; 1; 2; 3; 4; 5]) in
  reduce phi_x1x2x3 (StrList ["x1_0"; "x2"]%string) true
  = (after_x1, Raise TypeError_VariablenameIndex) /\
  reduce phi_x1x2x3 (StrList ["x1_0"; "x7_0"]%string) true
  = (after_x1, Raise (ScopeError "x7")) /\
  reduce phi_x1x2x3 (StrList ["x1_0"; "x2_3"]%string) true
  = (after_x1, Raise SizeError_GreaterThanMaxValue) /\
  after_x1 <> phi_x1x2x3 /\
  scope after_x1 = ["x2"; "x3"]%string.
Proof. repeat split; try by vm_compute. Qed.

(** ** Lists built from equal-sized blocks *)

Lemma length_bind_uniform {A B} (l : list A) (g : A -> list B) (n : nat) :
  (forall y, y ∈ l -> length (g y) = n) -> length (l ≫= g) = (length l * n)%nat.
Proof.
  induction l as [|x l IH]; intros Hg; [done|].
  rewrite bind_cons, length_app, Hg by left. simpl. f_equal.
  apply IH. intros y Hy. apply Hg. by right.
Qed.

Lemma lookup_bind_uniform {A B} (l : list A) (g : A -> list B) (n i j : nat) (x : A) :
  (forall y, y ∈ l -> length (g y) = n) -> l !! i = Some x -> (j < n)%nat ->
  (l ≫= g) !! (i * n + j)%nat = g x !! j.
Proof.
  revert i. induction l as [|a l IH]; intros i Hg Hi Hj; [done|].
  rewrite bind_cons. destruct i as [|i]; simpl in *.
  - injection Hi as ->. rewrite lookup_app_l; [done|]. rewrite Hg by left. lia.
  - rewrite lookup_app_r; rewrite Hg by left; [|lia].
    replace (n + i * n + j - n)%nat with (i * n + j)%nat by lia.
    apply IH; [|done..]. intros y Hy. apply Hg. by right.
Qed.

(** ** Marginalization validates before it eliminates *)

(** C9.  If some variable of the requested list is absent from the scope,
    [marginalize] raises the not-in-scope error for the first such variable
    and the receiver is exactly as before the call, in both modes and
    whatever the other requested variables are. *)
Theorem C9_marginalize_unknown_variable (self : Factor) (vars : str_or_list)
        (inplace : bool) (v : string) :
  v ∈ as_list vars -> v ∉ scope self ->
  exists w, w ∈ as_list vars /\ (w ∉ scope self) /\
            marginalize self vars inplace = (self, Raise (ScopeError w)).
Proof.
  intros Hin Hout. unfold marginalize.
  destruct (list_find_elem_of (fun v => Py.mem v (scope self) = false) (as_list vars) v)
    as [[k w] Hfind]; [done|by apply bool_decide_eq_false|].
  rewrite Hfind. apply list_find_Some in Hfind as (Hk & Hw & _).
  exists w. split; [by eapply list_elem_of_lookup_2|]. split; [|done].
  by apply bool_decide_eq_false in Hw.
Qed.

Lemma C9_witness :
  "x9"%string ∈ as_list (StrList ["x1"; "x9"]%string) /\
  ("x9"%string ∉ scope phi_x1x2x3) /\
  exists w, w ∈ as_list (StrList ["x1"; "x9"]%string) /\ (w ∉ scope phi_x1x2x3) /\
            marginalize phi_x1x2x3 (StrList ["x1"; "x9"]%string) true
            = (phi_x1x2x3, Raise (ScopeError w)).
Proof.
  assert ("x9"%string ∈ as_list (StrList ["x1"; "x9"]%string)) as Hin
    by by_evaluation.
  assert ("x9"%string ∉ scope phi_x1x2x3) as Hout
    by by_evaluation.
  split; [exact Hin|]. split; [exact Hout|].
  exact (C9_marginalize_unknown_variable phi_x1x2x3 (StrList ["x1"; "x9"]%string)
           true "x9"%string Hin Hout).
Defined.

(** ** Factors with disjoint scopes *)

Lemma no_common_variable (phi1 phi2 : Factor) :
  (forall v, v ∈ scope phi1 -> v ∉ scope phi2) ->
  filter (fun v => v ∈ scope phi2) (scope phi1) = [].
Proof.
  intros Hdisj. destruct (filter _ _) as [|w ws] eqn:E; [done|].
  assert (w ∈ filter (fun v => v ∈ scope phi2) (scope phi1)) as Hw
    by (rewrite E; left).
  apply list_elem_of_filter in Hw as [H2 H1]. by destruct (Hdisj w).
Qed.

(** C6.  For two factors whose scopes share no variable, [divide] raises the
    undefined-division [ValueError]; and, the two factors satisfying the
    class invariant, [product] returns the factor over the concatenated
    scope and cardinalities whose buffer is the outer product: for each
    value of the first factor in order, that value times the whole buffer of
    the second, so that the cell at [i * len(phi2.values) + j] is
    [phi1.values[i] * phi2.values[j]]. *)
Theorem C6_disjoint_scopes (phi1 phi2 : Factor) :
  (forall v, v ∈ scope phi1 -> v ∉ scope phi2) ->
  divide phi1 phi2 = Raise ValueError_NoCommonScope /\
  (wf_Factor phi1 -> wf_Factor phi2 ->
   exists F, product phi1 [phi2] = Return F /\ wf_Factor F /\
     variables F = variables phi1 ++ variables phi2 /\
     scope F = scope phi1 ++ scope phi2 /\
     cardinality F = cardinality phi1 ++ cardinality phi2 /\
     values F = values phi1 ≫= (fun a => Np.mul a <$> values phi2) /\
     forall (i j : nat) a b,
       values phi1 !! i = Some a -> values phi2 !! j = Some b ->
       values F !! (i * length (values phi2) + j)%nat = Some (Np.mul a b)).
Proof.
  intros Hdisj. pose proof (no_common_variable phi1 phi2 Hdisj) as Hnil.
  split.
  { unfold divide, factor_divide, _bivar_factor_operation. by rewrite Hnil. }
  intros Hwf1 Hwf2.
  unfold product, factor_product, _bivar_factor_operation. simpl. rewrite Hnil. simpl.
  set (vals := values phi1 ≫= (fun a => Np.mul a <$> values phi2)).
  assert (forall y, y ∈ values phi1 ->
            length (Np.mul y <$> values phi2) = length (values phi2)) as Hblock
    by (intros; by rewrite length_fmap).
  destruct (Factor_init_wf (scope phi1 ++ scope phi2)
              (cardinality phi1 ++ cardinality phi2) vals)
    as (F & HF & HwfF & Hs & Hc & Hv & Hvars).
  - apply NoDup_app. split; [apply Hwf1|]. split; [done|apply Hwf2].
  - apply Forall_app. split; [apply Hwf1|apply Hwf2].
  - rewrite !length_app. unfold scope. rewrite !length_fmap.
    by rewrite (wf_length _ Hwf1), (wf_length _ Hwf2).
  - unfold vals. rewrite (length_bind_uniform _ _ _ Hblock), prod_app.
    rewrite <- (wf_size _ Hwf1), <- (wf_size _ Hwf2). lia.
  - exists F. split; [done|]. split; [done|].
    split; [|split; [done|split; [done|split; [done|]]]].
    + rewrite Hvars, zip_with_app.
      * by rewrite <- (wf_labels _ Hwf1), <- (wf_labels _ Hwf2).
      * unfold scope. rewrite length_fmap. apply Hwf1.
    + intros i j a b Ha Hb. rewrite Hv. unfold vals.
      rewrite (lookup_bind_uniform _ _ _ i j a Hblock Ha).
      * by rewrite list_lookup_fmap, Hb.
      * by eapply lookup_lt_Some.
Qed.

(** ** Axis blocks: the index arithmetic shared by marginalize and reduce *)

Lemma index_lookup_NoDup (l : list string) (k : nat) (v : string) :
  NoDup l -> l !! k = Some v -> Py.index v l = Return (Z.of_nat k).
Proof.
  intros Hnd Hk. unfold Py.index.
  destruct (list_find_elem_of (fun y => y = v) l v) as [[j w] Hfind];
    [by eapply list_elem_of_lookup_2|done|].
  rewrite Hfind. apply list_find_Some in Hfind as (Hj & -> & _).
  by rewrite (NoDup_lookup _ _ _ _ Hnd Hj Hk).
Qed.

Lemma range3_blocks (outer step : Z) :
  0 <= outer -> 0 < step ->
  Py.range3 0 (outer * step) step = (fun o => o * step) <$> seqZ 0 outer.
Proof.
  intros Ho Hs. unfold Py.range3.
  replace (outer * step - 0 + step - 1) with ((step - 1) + outer * step) by lia.
  rewrite Z.div_add, Z.div_small by lia. simpl.
  apply list_fmap_ext. intros _ o _. lia.
Qed.

Lemma block_index_elem (outer c inner j : Z) :
  0 <= outer -> 0 < c -> 0 < inner ->
  j ∈ block_index (outer * (c * inner)) (c * inner) inner ->
  exists o r, j = o * (c * inner) + r /\ 0 <= o < outer /\ 0 <= r < inner.
Proof.
  intros Ho Hc Hi. unfold block_index. rewrite range3_blocks by nia.
  intros Hj. apply list_elem_of_bind in Hj as (i & Hj & Hin).
  apply list_elem_of_fmap in Hin as (o & -> & Ho').
  apply elem_of_seqZ in Ho'. unfold Py.range2 in Hj. apply elem_of_seqZ in Hj.
  exists o, (j - o * (c * inner)). lia.
Qed.

Lemma block_index_length (outer c inner : Z) :
  0 <= outer -> 0 < c -> 0 < inner ->
  length (block_index (outer * (c * inner)) (c * inner) inner)
  = Z.to_nat (outer * inner).
Proof.
  intros Ho Hc Hi. unfold block_index. rewrite range3_blocks by nia.
  rewrite (length_bind_uniform _ _ (Z.to_nat inner)).
  - rewrite length_fmap, length_seqZ. lia.
  - intros i _. unfold Py.range2. rewrite length_seqZ. f_equal. lia.
Qed.

(** The three products around position [k] of a cardinality vector. *)
Lemma prod_split (card : list Z) (k : nat) (c : Z) :
  card !! k = Some c ->
  Np.prod (drop k card) = c * Np.prod (drop (S k) card) /\
  Np.prod card = Np.prod (take k card) * (c * Np.prod (drop (S k) card)) /\
  Np.prod (base.delete k card) = Np.prod (take k card) * Np.prod (drop (S k) card).
Proof.
  intros Hk. rewrite delete_take_drop, prod_app.
  rewrite (prod_take_drop card k), (drop_S _ _ _ Hk). done.
Qed.

Lemma axis_block {A} (card : list Z) (vals : list A) (k : nat) (c off : Z) :
  Forall (fun c => 0 < c) card -> card !! k = Some c ->
  Z.of_nat (length vals) = Np.prod card -> 0 <= off < c ->
  exists blk,
    Np.take vals ((fun j => j + off * Np.prod (drop (S k) card))
                    <$> block_index (Np.prod card) (Np.prod (drop k card))
                                    (Np.prod (drop (S k) card)))
    = Return blk /\
    length blk = Z.to_nat (Np.prod (base.delete k card)).
Proof.
  intros Hpos Hk Hsize Hoff.
  destruct (prod_split card k c Hk) as (Hstep & Hnum & Hdel).
  rewrite Hstep, Hnum, Hdel.
  assert (0 < Np.prod (take k card)) as Houter by (apply prod_pos; by apply Forall_take).
  assert (0 < Np.prod (drop (S k) card)) as Hinner by (apply prod_pos; by apply Forall_drop).
  assert (0 < c) by lia.
  set (outer := Np.prod (take k card)) in *.
  set (inner := Np.prod (drop (S k) card)) in *.
  destruct (take_Return vals
              ((fun j => j + off * inner) <$> block_index (outer * (c * inner)) (c * inner) inner))
    as (blk & Hblk & Hlen).
  - apply Forall_fmap, Forall_forall. intros j Hj. simpl.
    apply block_index_elem in Hj as (o & r & -> & Ho & Hr); [|lia..].
    rewrite Hsize, Hnum.
    assert (off * inner <= (c - 1) * inner) by nia.
    assert ((o + 1) * (c * inner) <= outer * (c * inner)) by nia.
    assert (0 <= o * (c * inner)) by nia.
    assert (0 <= off * inner) by nia. lia.
  - exists blk. split; [done|].
    rewrite Hlen, length_fmap. apply block_index_length; lia.
Qed.

Lemma odict_del_delete (d : list (string * list string)) (k : nat) (v : string) :
  NoDup (fst <$> d) -> (fst <$> d) !! k = Some v -> odict_del v d = base.delete k d.
Proof.
  revert k. induction d as [|[w ls] d IH]; intros k Hnd Hk; [done|].
  simpl in *. apply NoDup_cons in Hnd as [Hw Hnd].
  destruct k as [|k]; simpl in *.
  - injection Hk as ->. by rewrite decide_True.
  - rewrite decide_False.
    + f_equal. by apply IH.
    + intros ->. apply Hw. by eapply list_elem_of_lookup_2.
Qed.

Lemma delete_zip_with {A B C} (g : A -> B -> C) (a : list A) (b : list B) (k : nat) :
  base.delete k (zip_with g a b) = zip_with g (base.delete k a) (base.delete k b).
Proof.
  revert b k. induction a as [|x a IH]; intros [|y b] [|k]; simpl; try done.
  - by destruct a.
  - f_equal. apply IH.
Qed.

Lemma elem_of_delete_ne {A} (l : list A) (k : nat) (v w : A) :
  l !! k = Some v -> w ∈ l -> w <> v -> w ∈ base.delete k l.
Proof.
  intros Hk Hw Hne. rewrite delete_take_drop.
  rewrite <- (take_drop_middle l k v Hk) in Hw.
  apply elem_of_app in Hw as [Hw|Hw]; apply elem_of_app; [by left|right].
  apply elem_of_cons in Hw as [->|Hw]; done.
Qed.

(** Removing position [k] from a factor that satisfies the invariant, with
    a buffer of the reduced size, gives a factor that satisfies it. *)
Lemma axis_removed_wf (f : Factor) (k : nat) (v : string) (vals : list Np.double) :
  wf_Factor f -> scope f !! k = Some v ->
  length vals = Z.to_nat (Np.prod (base.delete k (cardinality f))) ->
  let f' := mkFactor (odict_del v (variables f))
                     (Np.delete (cardinality f) (Z.of_nat k)) vals in
  wf_Factor f' /\ scope f' = base.delete k (scope f) /\
  cardinality f' = base.delete k (cardinality f).
Proof.
  intros Hwf Hk Hlen f'.
  assert (variables f' = base.delete k (variables f)) as Hvars
    by (apply odict_del_delete; [apply Hwf|done]).
  assert (cardinality f' = base.delete k (cardinality f)) as Hcard
    by (unfold f', Np.delete; simpl; by rewrite Nat2Z.id).
  assert (scope f' = base.delete k (scope f)) as Hscope
    by (unfold scope; by rewrite Hvars, list_fmap_delete).
  split; [|done].
  assert (is_Some (variables f !! k)) as Hsome.
  { unfold scope in Hk. rewrite list_lookup_fmap in Hk.
    destruct (variables f !! k); [by eexists|done]. }
  assert (is_Some (cardinality f !! k)) as Hsome'.
  { apply lookup_lt_is_Some. rewrite <- (wf_length _ Hwf).
    by apply lookup_lt_is_Some. }
  constructor.
  - rewrite Hscope. eapply sublist_NoDup; [apply Hwf|apply sublist_delete].
  - rewrite Hcard. apply Forall_delete, Hwf.
  - rewrite Hvars, Hcard, !length_delete by done. by rewrite (wf_length _ Hwf).
  - rewrite Hscope, Hcard, <- delete_zip_with, <- (wf_labels _ Hwf). done.
  - rewrite Hcard. simpl. rewrite Hlen.
    pose proof (prod_pos _ (Forall_delete _ _ k (wf_pos _ Hwf))). lia.
Qed.

Lemma axis_getitems (f : Factor) (k : nat) (v : string) :
  wf_Factor f -> scope f !! k = Some v ->
  exists c, cardinality f !! k = Some c /\ 0 < c /\
    Np.getitem (cardinality f) (Z.of_nat k) = Return c /\
    Np.getitem (cum_cardinality (cardinality f)) 0 = Return (Np.prod (cardinality f)) /\
    Np.getitem (cum_cardinality (cardinality f)) (Z.of_nat k)
    = Return (Np.prod (drop k (cardinality f))) /\
    Np.getitem (cum_cardinality (cardinality f)) (Z.of_nat k + 1)
    = Return (Np.prod (drop (S k) (cardinality f))).
Proof.
  intros Hwf Hk.
  assert (k < length (cardinality f))%nat as Hlt.
  { rewrite <- (wf_length _ Hwf). apply lookup_lt_Some in Hk.
    unfold scope in Hk. by rewrite length_fmap in Hk. }
  destruct (lookup_lt_is_Some_2 _ _ Hlt) as [c Hc].
  exists c. split; [done|]. split.
  { pose proof (wf_pos _ Hwf) as Hpos. rewrite Forall_lookup in Hpos. by eapply Hpos. }
  unfold Np.getitem. repeat split.
  - apply getitem_lookup; [lia|]. by rewrite Nat2Z.id.
  - apply getitem_lookup; [lia|].
    by rewrite (cum_cardinality_lookup _ 0) by (apply Hwf || simpl; lia).
  - apply getitem_lookup; [lia|]. rewrite Nat2Z.id.
    apply cum_cardinality_lookup; [apply Hwf|lia].
  - apply getitem_lookup; [lia|].
    replace (Z.to_nat (Z.of_nat k + 1)) with (S k) by lia.
    apply cum_cardinality_lookup; [apply Hwf|lia].
Qed.

Lemma iadd_fold_ok (blk_of : Z -> result (list Np.double)) (idx : list Z)
      (acc : list Np.double) :
  (forall i, i ∈ idx -> exists blk, blk_of i = Return blk /\ length blk = length acc) ->
  exists r,
    fold_left (fun a i => let! marg := a in let! block := blk_of i in Np.iadd marg block)
              idx (Return acc) = Return r /\
    length r = length acc.
Proof.
  revert acc. induction idx as [|i idx IH]; intros acc Hblk; simpl; [eauto|].
  destruct (Hblk i) as (blk & -> & Hlen); [left|]. simpl.
  unfold Np.iadd at 2. rewrite <- Hlen, Nat.eqb_refl.
  destruct (IH (zip_with Np.add acc blk)) as (r & Hr & Hlr).
  - intros j Hj. destruct (Hblk j) as (b & Hb & Hlb); [by right|].
    exists b. split; [done|]. rewrite length_zip_with. lia.
  - exists r. split; [done|]. rewrite Hlr, length_zip_with. lia.
Qed.

Lemma marginalize_single_ok (f : Factor) (k : nat) (v : string) :
  wf_Factor f -> scope f !! k = Some v ->
  exists vals, _marginalize_single_variable f v = Return vals /\
               length vals = Z.to_nat (Np.prod (base.delete k (cardinality f))).
Proof.
  intros Hwf Hk. unfold _marginalize_single_variable.
  rewrite (index_lookup_NoDup _ k) by (apply Hwf || done). cbn [bind].
  destruct (axis_getitems f k v Hwf Hk) as (c & Hc & Hcpos & G1 & G2 & G3 & G4).
  rewrite G2. cbn [bind]. rewrite G3. cbn [bind]. rewrite G4. cbn [bind].
  rewrite G1. cbn [bind].
  destruct (prod_split _ _ _ Hc) as (Hstep & Hnum & Hdel).
  assert (length (Np.zeros (Np.prod (cardinality f) / c))
          = Z.to_nat (Np.prod (base.delete k (cardinality f)))) as Hzeros.
  { unfold Np.zeros. rewrite repeat_length, Hnum, Hdel. f_equal.
    rewrite Z.mul_assoc, (Z.mul_comm _ c), <- Z.mul_assoc, Z.mul_comm.
    rewrite Z.div_mul by lia. ring. }
  rewrite <- Hzeros.
  apply (iadd_fold_ok
           (fun i => Np.take (values f)
                       ((fun j => j + i * Np.prod (drop (S k) (cardinality f)))
                          <$> block_index (Np.prod (cardinality f))
                                          (Np.prod (drop k (cardinality f)))
                                          (Np.prod (drop (S k) (cardinality f)))))).
  intros i Hi. unfold Py.range in Hi. apply elem_of_seqZ in Hi.
  rewrite Hzeros.
  apply (axis_block _ _ _ c); [apply Hwf|done|apply Hwf|lia].
Qed.

Lemma marginalize_body_ok (f : Factor) (k : nat) (v : string) :
  wf_Factor f -> scope f !! k = Some v ->
  exists f', marginalize_body f v = (f', Return tt) /\ wf_Factor f' /\
             scope f' = base.delete k (scope f) /\
             cardinality f' = base.delete k (cardinality f).
Proof.
  intros Hwf Hk. unfold marginalize_body.
  destruct (marginalize_single_ok f k v Hwf Hk) as (vals & -> & Hlen).
  change (scope (mkFactor (variables f) (cardinality f) vals)) with (scope f).
  rewrite (index_lookup_NoDup _ k) by (apply Hwf || done). simpl.
  eexists. split; [done|]. by apply axis_removed_wf.
Qed.

(** Eliminating a list of distinct variables of the scope, one after the
    other, succeeds and preserves the invariant. *)
Lemma marginalize_loop_ok (vars : list string) (f : Factor) :
  wf_Factor f -> NoDup vars -> (forall v, v ∈ vars -> v ∈ scope f) ->
  exists f', for_each marginalize_body f vars = (f', Return tt) /\ wf_Factor f'.
Proof.
  revert f. induction vars as [|v vars IH]; intros f Hwf Hnd Hin; simpl; [eauto|].
  apply NoDup_cons in Hnd as [Hv Hnd].
  destruct (list_elem_of_lookup_1 (scope f) v) as [k Hk]; [apply Hin; left|].
  destruct (marginalize_body_ok f k v Hwf Hk) as (f1 & -> & Hwf1 & Hs1 & _).
  apply IH; [done..|].
  intros w Hw. rewrite Hs1. apply (elem_of_delete_ne _ _ v); [done| |].
  - apply Hin. by right.
  - intros ->. done.
Qed.

(** ** Reduction of a valid token *)

Lemma reduce_body_ok (f : Factor) (tok v : string) (s : Z) (k : nat) (c : Z) :
  wf_Factor f -> parses_as tok v s ->
  scope f !! k = Some v -> cardinality f !! k = Some c -> 0 <= s < c ->
  exists f', reduce_body f tok = (f', Return tt) /\ wf_Factor f' /\
             scope f' = base.delete k (scope f) /\
             cardinality f' = base.delete k (cardinality f).
Proof.
  intros Hwf (Hcontains & idx & Hsplit & Hint) Hk Hc Hs.
  unfold reduce_body, reduce_slice. rewrite Hcontains, Hsplit. simpl negb. cbv iota.
  assert (Py.mem v (scope f) = true) as ->
    by (apply bool_decide_eq_true; by eapply list_elem_of_lookup_2).
  simpl negb. cbv iota.
  rewrite (index_lookup_NoDup _ k) by (apply Hwf || done). cbn [bind].
  rewrite Hint. cbn [bind].
  destruct (axis_getitems f k v Hwf Hk) as (c' & Hc' & _ & G1 & G2 & G3 & G4).
  assert (c' = c) as -> by congruence.
  rewrite G1. cbn [bind].
  assert ((s <? c) = true) as -> by lia. simpl negb. cbv iota.
  rewrite G2. cbn [bind]. rewrite G3. cbn [bind]. rewrite G4. cbn [bind].
  destruct (axis_block (cardinality f) (values f) k c s) as (vals & -> & Hlen);
    [apply Hwf|done|apply Hwf|done|].
  cbn [bind]. eexists. split; [done|]. by apply axis_removed_wf.
Qed.

Lemma delete_lookup_pair {A B} (a : list A) (b : list B) (j k : nat) (x : A) (y : B) :
  a !! j = Some x -> b !! j = Some y -> j <> k ->
  exists j', base.delete k a !! j' = Some x /\ base.delete k b !! j' = Some y.
Proof.
  intros Ha Hb Hne. destruct (decide (j < k)%nat).
  - exists j. by rewrite !list_lookup_delete_lt.
  - exists (j - 1)%nat. rewrite !list_lookup_delete_ge by lia.
    by replace (S (j - 1)) with j by lia.
Qed.

Lemma reduce_loop_ok (toks : list string) (parsed : list (string * Z)) (f : Factor) :
  wf_Factor f ->
  Forall2 (fun tok vs => parses_as tok (fst vs) (snd vs)) toks parsed ->
  NoDup (fst <$> parsed) ->
  Forall (fun vs => valid_state f (fst vs) (snd vs)) parsed ->
  exists f', for_each reduce_body f toks = (f', Return tt) /\ wf_Factor f'.
Proof.
  intros Hwf Hparse. revert f Hwf.
  induction Hparse as [|tok [v s] toks parsed Htok _ IH]; intros f Hwf Hnd Hvalid;
    simpl in *; [eauto|].
  apply NoDup_cons in Hnd as [Hv Hnd].
  apply Forall_cons in Hvalid as [(k & c & Hk & Hc & Hs) Hvalid].
  destruct (reduce_body_ok f tok v s k c Hwf Htok Hk Hc Hs)
    as (f1 & -> & Hwf1 & Hs1 & Hc1).
  apply IH; [done..|].
  rewrite Forall_forall in *. intros [w t] Hw.
  destruct (Hvalid _ Hw) as (j & c' & Hj & Hc' & Ht). simpl in *.
  assert (j <> k) as Hne.
  { intros ->. assert (w = v) as -> by congruence.
    apply Hv. apply list_elem_of_fmap. by exists (v, t). }
  destruct (delete_lookup_pair _ _ j k w c' Hj Hc' Hne) as (j' & Hj1 & Hj2).
  exists j', c'. by rewrite Hs1, Hc1.
Qed.

(** ** Normalization of a factor with a non-zero total *)

Lemma normalized_values_ok (vals : list Np.double) :
  Np.is_zero (Np.sum_double vals) = false ->
  exists vals', normalized_values vals = Return vals' /\ length vals' = length vals.
Proof.
  intros Hsum. unfold normalized_values, Np.true_divide_scalar.
  destruct (collect_total (fun x => Np.true_divide x (Np.sum_double vals)) vals)
    as [vals' Hvals'].
  - intros x _. unfold Np.true_divide.
    assert (Np.signals_divide x (Np.sum_double vals) = false) as ->; [|by eexists].
    destruct x, (Np.sum_double vals); simpl in *; congruence.
  - exists vals'. split; [done|]. by eapply collect_length.
Qed.

(** ** The axis operations on valid arguments *)

Lemma run_ok (c : axis_call) (f : Factor) :
  wf_Factor f -> valid_call f c ->
  exists g, wf_Factor g /\
            run c true f = (g, Return None) /\
            run c false f = (f, Return (Some g)).
Proof.
  intros Hwf Hvalid. destruct c as [vars|vals|]; simpl in *.
  - destruct Hvalid as [Hnd Hin]. unfold marginalize.
    assert (list_find (fun v => Py.mem v (scope f) = false) (as_list vars) = None) as ->.
    { apply list_find_None, Forall_forall. intros v Hv.
      unfold Py.mem. rewrite (bool_decide_eq_true_2 _ (Hin v Hv)). done. }
    rewrite (Factor_init_copy f Hwf).
    destruct (marginalize_loop_ok (as_list vars) f Hwf Hnd Hin) as (g & -> & Hg).
    by exists g.
  - destruct Hvalid as (parsed & Hparse & Hnd & Hstates). unfold reduce.
    rewrite (Factor_init_copy f Hwf).
    destruct (reduce_loop_ok (as_list vals) parsed f Hwf Hparse Hnd Hstates)
      as (g & -> & Hg).
    by exists g.
  - unfold normalize. rewrite (Factor_init_copy f Hwf).
    destruct (normalized_values_ok (values f) Hvalid) as (vals' & -> & Hlen).
    eexists. split; [|done].
    destruct Hwf. constructor; simpl; try done. by rewrite Hlen.
Qed.

(** ** Enumeration of the joint assignments *)

Lemma in_range_pos (idx card : list Z) :
  in_range idx card -> Forall (fun c => 0 < c) card.
Proof. induction 1; constructor; [lia|done]. Qed.

Lemma product_length (card : list Z) :
  Forall (fun c => 0 < c) card ->
  length (itertools_product (Py.range <$> card)) = Z.to_nat (Np.prod card).
Proof.
  induction 1 as [|c cs Hc Hcs IH]; [done|]. simpl.
  rewrite (length_bind_uniform _ _ (Z.to_nat (Np.prod cs))).
  - unfold Py.range. rewrite length_seqZ.
    change (Np.prod (c :: cs)) with (c * Np.prod cs).
    pose proof (prod_pos cs Hcs). rewrite Z2Nat.inj_mul by lia. done.
  - intros x _. by rewrite length_fmap.
Qed.

Lemma product_elem (card idx : list Z) :
  idx ∈ itertools_product (Py.range <$> card) -> in_range idx card.
Proof.
  revert idx. induction card as [|c cs IH]; intros idx; simpl.
  - intros ->%list_elem_of_singleton. constructor.
  - intros (d & Hidx & Hd)%list_elem_of_bind.
    apply list_elem_of_fmap in Hidx as (ds & -> & Hds).
    apply elem_of_seqZ in Hd. constructor; [lia|by apply IH].
Qed.

Lemma product_lookup (card idx : list Z) :
  in_range idx card ->
  itertools_product (Py.range <$> card) !! Z.to_nat (flat_index card idx) = Some idx.
Proof.
  induction 1 as [|d c ds cs Hd Hr IH]; [done|].
  rewrite fmap_cons. cbn [itertools_product]. rewrite flat_index_cons.
  pose proof (flat_index_bound cs ds Hr) as Hb.
  pose proof (in_range_pos _ _ Hr) as Hpos.
  replace (Z.to_nat (d * Np.prod cs + flat_index cs ds))
    with (Z.to_nat d * Z.to_nat (Np.prod cs) + Z.to_nat (flat_index cs ds))%nat by nia.
  rewrite (lookup_bind_uniform _ _ _ _ _ d).
  - by rewrite list_lookup_fmap, IH.
  - intros x _. by rewrite length_fmap, product_length.
  - apply lookup_seqZ. lia.
  - lia.
Qed.

(** ** Reading one cell through index translation *)

Lemma collect_Forall2 {A B} (f : A -> result B) (l : list A) (l' : list B) :
  Forall2 (fun a b => f a = Return b) l l' -> collect f l = Return l'.
Proof.
  induction 1 as [|a b l l' Hab _ IH]; simpl; [done|]. by rewrite Hab, IH.
Qed.

Lemma pick_digits (cardf card idx indexes : list Z) :
  Forall2 (fun c p => 0 <= p /\ card !! Z.to_nat p = Some c) cardf indexes ->
  in_range idx card ->
  exists digits,
    Forall2 (fun p d => 0 <= p /\ idx !! Z.to_nat p = Some d) indexes digits /\
    in_range digits cardf.
Proof.
  intros Hidx Hr. induction Hidx as [|c p cardf indexes [Hp Hc] _ (digits & Hd & Hdr)].
  - exists []. split; constructor.
  - destruct (Forall2_lookup_r _ _ _ _ _ Hr Hc) as (d & Hd' & Hdc).
    exists (d :: digits). split; constructor; done.
Qed.

Lemma cell_of_ok (vals : list Np.double) (cardf card idx indexes : list Z) :
  Forall2 (fun c p => 0 <= p /\ card !! Z.to_nat p = Some c) cardf indexes ->
  in_range idx card -> Z.of_nat (length vals) = Np.prod cardf ->
  exists digits x,
    Forall2 (fun p d => 0 <= p /\ idx !! Z.to_nat p = Some d) indexes digits /\
    in_range digits cardf /\
    cell_of vals idx indexes (cumprod_strides cardf) = Return x /\
    vals !! Z.to_nat (flat_index cardf digits) = Some x.
Proof.
  intros Hidx Hr Hsize.
  destruct (pick_digits _ _ _ _ Hidx Hr) as (digits & Hd & Hdr).
  pose proof (flat_index_bound _ _ Hdr) as Hb.
  destruct (lookup_lt_is_Some_2 vals (Z.to_nat (flat_index cardf digits))) as [x Hx];
    [lia|].
  exists digits, x. split; [done|]. split; [done|]. split; [|done].
  unfold cell_of, Np.take.
  rewrite (collect_Forall2 _ _ digits).
  - cbn [bind]. unfold Np.multiply.
    assert (length digits = length (cumprod_strides cardf)) as ->.
    { rewrite cumprod_strides_eq, strides_length. by eapply Forall2_length. }
    rewrite Nat.eqb_refl. cbn [bind].
    apply getitem_lookup; [apply Hb|done].
  - eapply Forall2_impl; [exact Hd|]. intros p d [Hp Hpd]. simpl.
    by apply getitem_lookup.
Qed.

(** ** Aligning a factor with a joint scope *)

Lemma scope_length (f : Factor) : wf_Factor f -> length (scope f) = length (cardinality f).
Proof. intros Hwf. unfold scope. rewrite length_fmap. apply Hwf. Qed.

Lemma card_of_fun (f : Factor) (v : string) (c c' : Z) :
  wf_Factor f -> card_of f v c -> card_of f v c' -> c = c'.
Proof.
  intros Hwf (i & Hi & Hc) (j & Hj & Hc').
  assert (i = j) as -> by (eapply NoDup_lookup; [apply Hwf|done..]). congruence.
Qed.

Lemma get_cardinality_ok (f : Factor) (v : string) :
  wf_Factor f -> v ∈ scope f ->
  exists c, get_cardinality f v = Return c /\ card_of f v c /\ 0 < c.
Proof.
  intros Hwf Hv. apply list_elem_of_lookup_1 in Hv as [i Hi].
  destruct (axis_getitems f i v Hwf Hi) as (c & Hc & Hpos & G & _).
  exists c. split; [|split; [by exists i|done]].
  unfold get_cardinality, Py.mem.
  rewrite bool_decide_eq_true_2 by (by eapply list_elem_of_lookup_2). simpl.
  by rewrite (index_lookup_NoDup _ i) by (apply Hwf || done).
Qed.

Lemma extra_card_ok (f : Factor) (l : list string) :
  wf_Factor f -> (forall v, v ∈ l -> v ∈ scope f) ->
  exists cs, collect (get_cardinality f) l = Return cs /\
             Forall2 (card_of f) l cs /\ Forall (fun c => 0 < c) cs.
Proof.
  intros Hwf. induction l as [|v l IH]; intros Hl; simpl.
  - exists []. split; [done|]. split; constructor.
  - destruct (get_cardinality_ok f v Hwf) as (c & -> & Hc & Hpos); [apply Hl; left|].
    destruct IH as (cs & -> & Hcs & Hposs); [intros w Hw; apply Hl; by right|].
    exists (c :: cs). split; [done|]. split; by constructor.
Qed.

Lemma collect_index_ok (vars l : list string) :
  NoDup vars -> (forall v, v ∈ l -> v ∈ vars) ->
  exists indexes,
    collect (fun v => Py.index v vars) l = Return indexes /\
    Forall2 (fun v p => 0 <= p /\ vars !! Z.to_nat p = Some v) l indexes.
Proof.
  intros Hnd. induction l as [|v l IH]; intros Hl; simpl.
  - exists []. split; [done|constructor].
  - destruct (list_elem_of_lookup_1 vars v) as [i Hi]; [apply Hl; left|].
    rewrite (index_lookup_NoDup _ i) by done. cbn [bind].
    destruct IH as (indexes & -> & Hidx); [intros w Hw; apply Hl; by right|].
    exists (Z.of_nat i :: indexes). split; [done|].
    constructor; [|done]. split; [lia|]. by rewrite Nat2Z.id.
Qed.

(** The positions of a factor's own variables at the head of a joint scope
    are [0 .. n-1]. *)
Lemma collect_index_prefix (s extra : list string) :
  NoDup (s ++ extra) ->
  collect (fun v => Py.index v (s ++ extra)) s = Return (Py.range (Z.of_nat (length s))).
Proof.
  intros Hnd. apply collect_Forall2. apply Forall2_same_length_lookup_2.
  - unfold Py.range. rewrite length_seqZ. lia.
  - intros i v p Hv Hp. unfold Py.range in Hp. apply lookup_seqZ in Hp as [-> _].
    simpl. rewrite Z.add_0_l.
    apply index_lookup_NoDup; [done|]. by apply lookup_app_l_Some.
Qed.

Lemma aligned_cards (f : Factor) (vars : list string) (card indexes : list Z) :
  wf_Factor f -> joint_scope vars card f ->
  Forall2 (fun v p => 0 <= p /\ vars !! Z.to_nat p = Some v) (scope f) indexes ->
  Forall2 (fun c p => 0 <= p /\ card !! Z.to_nat p = Some c) (cardinality f) indexes.
Proof.
  intros Hwf (Hnd & Hlen & Hsub & Hcard) Hidx.
  apply Forall2_same_length_lookup_2.
  - rewrite <- (scope_length f Hwf). by eapply Forall2_length.
  - intros i c p Hc Hp.
    destruct (Forall2_lookup_r _ _ _ _ _ Hidx Hp) as (v & Hv & Hp0 & Hvp).
    split; [done|].
    destruct (lookup_lt_is_Some_2 card (Z.to_nat p)) as [c' Hc'].
    { rewrite <- Hlen. by eapply lookup_lt_Some. }
    rewrite Hc'. f_equal. symmetry. eapply Hcard; [done..|]. by exists i.
Qed.

(** A factor embedded in a joint scope has a value at every joint
    assignment. *)
Lemma value_at_ok (f : Factor) (vars : list string) (card idx : list Z) :
  wf_Factor f -> joint_scope vars card f -> in_range idx card ->
  exists x, value_at f vars idx = Return x.
Proof.
  intros Hwf Hj Hr. unfold value_at.
  destruct (collect_index_ok vars (scope f)) as (indexes & -> & Hidx);
    [apply Hj|apply Hj|]. cbn [bind].
  destruct (cell_of_ok (values f) (cardinality f) card idx indexes)
    as (digits & x & _ & _ & Hx & _);
    [by eapply aligned_cards|done|apply Hwf|].
  by exists x.
Qed.

Lemma collect_index_self (s : list string) :
  NoDup s -> collect (fun v => Py.index v s) s = Return (Py.range (Z.of_nat (length s))).
Proof.
  intros Hnd. pose proof (collect_index_prefix s []) as H.
  rewrite app_nil_r in H. by apply H.
Qed.

Lemma cell_of_range (vals : list Np.double) (card idx : list Z) (q : Np.double) :
  in_range idx card ->
  vals !! Z.to_nat (flat_index card idx) = Some q ->
  cell_of vals idx (Py.range (Z.of_nat (length card))) (cumprod_strides card) = Return q.
Proof.
  intros Hr Hq. pose proof (Forall2_length _ _ _ Hr) as Hlen.
  unfold cell_of, Np.take. rewrite (collect_Forall2 _ _ idx).
  - cbn [bind]. unfold Np.multiply.
    rewrite cumprod_strides_eq, strides_length, Hlen, Nat.eqb_refl. cbn [bind].
    apply getitem_lookup.
    + pose proof (flat_index_bound _ _ Hr) as Hb. unfold flat_index in Hb.
      rewrite cumprod_strides_eq in Hb. lia.
    + unfold flat_index in Hq. by rewrite cumprod_strides_eq in Hq.
  - apply Forall2_same_length_lookup_2.
    + unfold Py.range. rewrite length_seqZ. lia.
    + intros i p d Hp Hd. unfold Py.range in Hp. apply lookup_seqZ in Hp as [-> _].
      simpl. apply getitem_lookup; [lia|].
      by replace (Z.to_nat (0 + Z.of_nat i)) with i by lia.
Qed.

(** The value of a factor at a joint assignment of its own scope is the
    cell at the flat index of the assignment. *)
Lemma value_at_self (F : Factor) (idx : list Z) (q : Np.double) :
  wf_Factor F -> in_range idx (cardinality F) ->
  values F !! Z.to_nat (flat_index (cardinality F) idx) = Some q ->
  value_at F (scope F) idx = Return q.
Proof.
  intros Hwf Hr Hq. unfold value_at.
  rewrite collect_index_self by apply Hwf. cbn [bind].
  rewrite (scope_length F Hwf). by apply cell_of_range.
Qed.

(** ** The binary operation on factors with a common variable *)

Lemma bivar_common_ok (f1 f2 : Factor) (op : operation) :
  wf_Factor f1 -> wf_Factor f2 -> compatible f1 f2 ->
  (exists v, v ∈ scope f1 /\ v ∈ scope f2) ->
  exists F extra_card,
    _bivar_factor_operation f1 f2 op = Return F /\ wf_Factor F /\
    scope F = union_scope f1 f2 /\
    cardinality F = cardinality f1 ++ extra_card /\
    joint_scope (scope F) (cardinality F) f1 /\
    joint_scope (scope F) (cardinality F) f2 /\
    forall idx, in_range idx (cardinality F) ->
      exists x y q,
        value_at f1 (scope F) idx = Return x /\
        value_at f2 (scope F) idx = Return y /\
        apply_operation op x y = Return q /\
        values F !! Z.to_nat (flat_index (cardinality F) idx) = Some q.
Proof.
  intros Hwf1 Hwf2 Hcompat (v0 & Hv1 & Hv2).
  unfold _bivar_factor_operation, union_scope.
  destruct (filter (fun v => v ∈ scope f2) (scope f1)) as [|w ws] eqn:Hcommon.
  { assert (v0 ∈ filter (fun v => v ∈ scope f2) (scope f1)) as Hin
      by (by apply list_elem_of_filter).
    rewrite Hcommon in Hin. by apply elem_of_nil in Hin. }
  rewrite <- Hcommon.
  set (extra := filter (fun v => v ∉ filter (fun v => v ∈ scope f2) (scope f1)) (scope f2)).
  assert (forall v, v ∈ extra <-> v ∈ scope f2 /\ (v ∉ scope f1)) as Hextra.
  { intros v. unfold extra. rewrite list_elem_of_filter, list_elem_of_filter. split.
    - intros [Hn H2]. split; [done|]. intros H1. by apply Hn.
    - intros [H2 Hn]. split; [|done]. by intros [_ H1]. }
  destruct (extra_card_ok f2 extra Hwf2) as (extra_card & Hec & Hcards & Hecpos).
  { intros v Hv. by apply Hextra in Hv as [? _]. }
  rewrite Hec. cbn [bind].
  set (vars := scope f1 ++ extra). set (card := cardinality f1 ++ extra_card).
  assert (NoDup vars) as Hnd.
  { apply NoDup_app. split; [apply Hwf1|]. split; [|apply NoDup_filter, Hwf2].
    intros v H1 He. by apply Hextra in He as [_ Hn]. }
  assert (length vars = length card) as Hlen.
  { unfold vars, card. rewrite !length_app, (scope_length f1 Hwf1). f_equal.
    by eapply Forall2_length. }
  assert (forall (p : nat) v c, vars !! p = Some v -> card !! p = Some c ->
            card_of f1 v c \/ ((v ∉ scope f1) /\ card_of f2 v c)) as Hrel.
  { intros p v c Hv Hc. unfold vars, card in Hv, Hc.
    destruct (decide (p < length (scope f1))%nat) as [Hp|Hp].
    - left. exists p. rewrite lookup_app_l in Hv by done.
      rewrite lookup_app_l in Hc by (by rewrite <- (scope_length f1 Hwf1)). done.
    - right. rewrite lookup_app_r in Hv by lia.
      rewrite lookup_app_r in Hc by (rewrite <- (scope_length f1 Hwf1); lia).
      rewrite <- (scope_length f1 Hwf1) in Hc. split.
      + apply list_elem_of_lookup_2 in Hv. by apply Hextra in Hv as [_ ?].
      + by eapply (Forall2_lookup_lr _ _ _ _ _ _ Hcards). }
  assert (joint_scope vars card f1) as Hj1.
  { split; [done|]. split; [done|]. split.
    - intros v Hv. apply elem_of_app. by left.
    - intros p v c c' Hv Hc Hc'. destruct (Hrel p v c Hv Hc) as [H1|[Hn _]].
      + by apply (card_of_fun f1 v).
      + destruct Hc' as (i & Hi & _). destruct Hn. by eapply list_elem_of_lookup_2. }
  assert (joint_scope vars card f2) as Hj2.
  { split; [done|]. split; [done|]. split.
    - intros v Hv. apply elem_of_app.
      destruct (decide (v ∈ scope f1)); [by left|right]. by apply Hextra.
    - intros p v c c' Hv Hc Hc'. destruct (Hrel p v c Hv Hc) as [H1|[_ H2]].
      + symmetry. by eapply Hcompat.
      + by apply (card_of_fun f2 v). }
  destruct (collect_index_ok vars (scope f2)) as (idx2 & Hidx2c & Hidx2);
    [done|apply Hj2|].
  rewrite Hidx2c. cbn [bind].
  match goal with
  | |- context [collect ?b (itertools_product _)] => set (body := b)
  end.
  assert (forall idx, body idx
                      = let! x := value_at f1 vars idx in
                        let! y := value_at f2 vars idx in apply_operation op x y)
    as Hbody.
  { intros idx. unfold value_at. rewrite Hidx2c. unfold vars at 1.
    rewrite collect_index_prefix by done. cbn [bind].
    unfold scope at 1. by rewrite length_fmap. }
  assert (forall idx, in_range idx card ->
            exists x y q, value_at f1 vars idx = Return x /\
                          value_at f2 vars idx = Return y /\
                          apply_operation op x y = Return q /\
                          body idx = Return q) as Hcells.
  { intros idx Hr.
    destruct (value_at_ok f1 vars card idx) as [x Hx]; [done..|].
    destruct (value_at_ok f2 vars card idx) as [y Hy]; [done..|].
    assert (exists q, apply_operation op x y = Return q) as [q Hq].
    { destruct op; simpl; [by eexists|apply divide_cell_total]. }
    exists x, y, q. rewrite Hbody, Hx, Hy. cbn [bind]. done. }
  destruct (collect_total body (itertools_product (Py.range <$> card))) as [vals Hvals].
  { intros idx Hin. apply product_elem in Hin.
    destruct (Hcells idx Hin) as (x & y & q & _ & _ & _ & Hq). by exists q. }
  rewrite Hvals. cbn [bind].
  assert (Forall (fun c => 0 < c) card) as Hpos
    by (apply Forall_app; split; [apply Hwf1|done]).
  destruct (Factor_init_wf vars card vals) as (F & HF & HwfF & Hs & Hc & Hv & _);
    [done..| |].
  { apply collect_length in Hvals. rewrite Hvals, product_length by done.
    pose proof (prod_pos card Hpos). lia. }
  exists F, extra_card. rewrite Hs, Hc.
  split; [done|]. split; [done|]. split; [done|]. split; [done|].
  split; [done|]. split; [done|].
  intros idx Hr. destruct (Hcells idx Hr) as (x & y & q & Hx & Hy & Hq & Hb).
  exists x, y, q. split; [done|]. split; [done|]. split; [done|]. rewrite Hv.
  destruct (collect_lookup _ _ _ _ _ Hvals (product_lookup card idx Hr))
    as (q' & Hq' & Hbq).
  rewrite Hb in Hbq. by injection Hbq as <-.
Qed.

(** Values of the divided factor in the cells where the denominator is zero,
    for every compatible pair with a common variable: 0 when the numerator
    is finite and non-zero, NaN when the numerator is zero. *)
Lemma divide_zero_denominator_cells (f1 f2 : Factor) :
  wf_Factor f1 -> wf_Factor f2 -> compatible f1 f2 ->
  (exists v, v ∈ scope f1 /\ v ∈ scope f2) ->
  exists R, divide f1 f2 = Return R /\ wf_Factor R /\
    forall idx, in_range idx (cardinality R) ->
      exists x y,
        value_at f1 (scope R) idx = Return x /\
        value_at f2 (scope R) idx = Return y /\
        (Np.is_zero y = true ->
         value_at R (scope R) idx
         = Return (match x with
                   | S754_finite _ _ _ => Np.of_int 0
                   | S754_zero _ | S754_nan => S754_nan
                   | S754_infinity s => SFdiv Np.prec Np.emax x y
                   end)).
Proof.
  intros Hwf1 Hwf2 Hcompat Hcommon.
  destruct (bivar_common_ok f1 f2 D Hwf1 Hwf2 Hcompat Hcommon)
    as (R & ec & HR & HwfR & _ & _ & _ & _ & Hcell).
  exists R. split; [done|]. split; [done|].
  intros idx Hr. destruct (Hcell idx Hr) as (x & y & q & Hx & Hy & Hq & Hv).
  exists x, y. split; [done|]. split; [done|]. intros Hz.
  rewrite (value_at_self R idx q HwfR Hr Hv). rewrite <- Hq.
  destruct y; try done. by destruct x.
Qed.



Lemma scenario_A_compatible : compatible phi_x1x2x3 phi_x3x1.
Proof.
  intros v c1 c2 (i & Hi & Hc1) (j & Hj & Hc2).
  destruct i as [|[|[|i]]], j as [|[|j]]; simpl in *; by simplify_eq.
Qed.

Lemma scenario_A_common :
  exists v, v ∈ scope phi_x1x2x3 /\ v ∈ scope phi_x3x1.
Proof.
  exists "x1"%string. split; by_evaluation.
Qed.


Lemma phi_zero_one_wf : wf_Factor phi_zero_one.
Proof. wf_by_evaluation. Qed.

Lemma phi_y_wf : wf_Factor phi_y.
Proof. wf_by_evaluation. Qed.

Lemma phi_zero_one_phi_y_disjoint :
  forall v, v ∈ scope phi_zero_one -> v ∉ scope phi_y.
Proof.
  apply Forall_forall. by_evaluation.
Qed.

Lemma C6_witness :
  (forall v, v ∈ scope phi_zero_one -> v ∉ scope phi_y) /\
  wf_Factor phi_zero_one /\ wf_Factor phi_y /\
  divide phi_zero_one phi_y = Raise ValueError_NoCommonScope /\
  (exists F, product phi_zero_one [phi_y] = Return F /\ wf_Factor F /\
     variables F = variables phi_zero_one ++ variables phi_y /\
     scope F = scope phi_zero_one ++ scope phi_y /\
     cardinality F = cardinality phi_zero_one ++ cardinality phi_y /\
     values F = values phi_zero_one ≫= (fun a => Np.mul a <$> values phi_y) /\
     forall (i j : nat) a b,
       values phi_zero_one !! i = Some a -> values phi_y !! j = Some b ->
       values F !! (i * length (values phi_y) + j)%nat = Some (Np.mul a b)).
Proof.
  split; [exact phi_zero_one_phi_y_disjoint|].
  split; [exact phi_zero_one_wf|]. split; [exact phi_y_wf|].
  destruct (C6_disjoint_scopes phi_zero_one phi_y phi_zero_one_phi_y_disjoint)
    as [Hdiv Hprod].
  split; [exact Hdiv|]. exact (Hprod phi_zero_one_wf phi_y_wf).
Defined.

(** The outer product of the witness, evaluated. *)
Example product_zero_one_y :
  product phi_zero_one [phi_y]
  = Return (mkFactor (variables phi_zero_one ++ variables phi_y) [2; 2]
                     (Np.of_int <$> [0; 0; 3; 4])).
Proof. by vm_compute. Qed.

(** * Further properties of the code *)

(** ** Encoding and decoding of flat indices *)

Lemma flat_index_inj (card a b : list Z) :
  in_range a card -> in_range b card ->
  flat_index card a = flat_index card b -> a = b.
Proof.
  intros Ha. revert b. induction Ha as [|d c ds cs Hd Hds IH]; intros b Hb Heq.
  - by inversion Hb.
  - inversion Hb as [|d' c' ds' cs' Hd' Hds']; subst.
    rewrite !flat_index_cons in Heq.
    pose proof (flat_index_bound _ _ Hds) as B1.
    pose proof (flat_index_bound _ _ Hds') as B2.
    assert (d = d') as -> by nia.
    f_equal. apply IH; [done|lia].
Qed.

Lemma assign_digits_spec_any (card : list Z) (i : Z) :
  Forall (fun c => 0 < c) card ->
  in_range (assign_digits card i) card /\
  flat_index card (assign_digits card i) = i mod Np.prod card.
Proof.
  revert i. induction card as [|c cs IH] using rev_ind; intros i Hpos.
  - split; [constructor|]. unfold Np.prod. simpl. by rewrite Z.mod_1_r.
  - apply Forall_app in Hpos as [Hcs Hc]. apply Forall_inv in Hc.
    simpl in Hc. rewrite assign_digits_snoc.
    destruct (IH (i / c) Hcs) as [Hr Hf].
    split.
    + apply Forall2_app; [done|]. constructor; [|constructor].
      by apply Z.mod_pos_bound.
    + rewrite flat_index_snoc by (by eapply Forall2_length).
      rewrite Hf, prod_app. change (Np.prod [c]) with (c * 1).
      rewrite Z.mul_1_r, (Z.mul_comm (Np.prod cs) c).
      pose proof (prod_pos cs Hcs).
      rewrite Z.rem_mul_r by lia. ring.
Qed.

(** X1.  Decoding inverts encoding: for a factor that satisfies the class
    invariant and a tuple of state indices within its cardinalities,
    [assignment] at the flat index that the binary operation computes for
    the tuple ([np.sum(digits * cumprod)]) returns the labels of exactly
    that tuple. *)
Theorem assignment_of_flat_index (f : Factor) (idx : list Z) :
  wf_Factor f -> in_range idx (cardinality f) ->
  assign_digits (cardinality f) (flat_index (cardinality f) idx) = idx /\
  assignment f [flat_index (cardinality f) idx]
  = Return [zip_with state_label (scope f) idx].
Proof.
  intros Hwf Hr.
  pose proof (flat_index_bound _ _ Hr) as Hb.
  destruct (assign_digits_spec_any (cardinality f) (flat_index (cardinality f) idx))
    as [Hr' Hf]; [apply Hwf|].
  rewrite Z.mod_small in Hf by done.
  assert (assign_digits (cardinality f) (flat_index (cardinality f) idx) = idx) as Heq
    by (by eapply flat_index_inj).
  split; [done|]. unfold assignment. simpl.
  assert ((flat_index (cardinality f) idx <=? Np.prod (cardinality f) - 1) = true) as ->
    by lia.
  simpl. rewrite Heq. by rewrite assignment_labels.
Qed.

Lemma assignment_of_flat_index_witness :
  wf_Factor phi_x1x2x3 /\ in_range [1; 2; 0] (cardinality phi_x1x2x3) /\
  flat_index (cardinality phi_x1x2x3) [1; 2; 0] = 10 /\
  assignment phi_x1x2x3 [flat_index (cardinality phi_x1x2x3) [1; 2; 0]]
  = Return [["x1_1"; "x2_2"; "x3_0"]%string].
Proof.
  assert (in_range [1; 2; 0] (cardinality phi_x1x2x3)) as Hr
    by (repeat constructor; lia).
  split; [exact phi_x1x2x3_wf|]. split; [exact Hr|]. split; [reflexivity|].
  exact (proj2 (assignment_of_flat_index phi_x1x2x3 [1; 2; 0] phi_x1x2x3_wf Hr)).
Defined.

(** X2.  [assignment] checks only the upper bound of an index, so a
    negative index is decoded as well.  For a factor that satisfies the
    class invariant and an index [i] with [-prod(cardinality) <= i < 0],
    the result is the assignment of the cell [i + prod(cardinality)], as
    for a negative index into the buffer: index [-1] gives the last
    assignment. *)
Theorem assignment_wraps_negative_index (f : Factor) (i : Z) :
  wf_Factor f -> - Np.prod (cardinality f) <= i < 0 ->
  assignment f [i] = assignment f [i + Np.prod (cardinality f)] /\
  exists digits,
    in_range digits (cardinality f) /\
    flat_index (cardinality f) digits = i + Np.prod (cardinality f) /\
    assignment f [i] = Return [zip_with state_label (scope f) digits].
Proof.
  intros Hwf Hi.
  pose proof (prod_pos _ (wf_pos _ Hwf)) as Hpos.
  assert (i mod Np.prod (cardinality f) = i + Np.prod (cardinality f)) as Hmod.
  { symmetry. apply (Z.mod_unique_pos _ _ (-1)); lia. }
  destruct (assign_digits_spec_any (cardinality f) i) as [Hr Hf]; [apply Hwf|].
  destruct (assign_digits_spec_any (cardinality f) (i + Np.prod (cardinality f)))
    as [Hr' Hf']; [apply Hwf|].
  rewrite Z.mod_small in Hf' by lia. rewrite Hmod in Hf.
  assert (assign_digits (cardinality f) (i + Np.prod (cardinality f))
          = assign_digits (cardinality f) i) as Heq
    by (eapply flat_index_inj; [done..|congruence]).
  assert (assignment f [i]
          = Return [zip_with state_label (scope f) (assign_digits (cardinality f) i)])
    as Hassign.
  { unfold assignment. simpl.
    assert ((i <=? Np.prod (cardinality f) - 1) = true) as -> by lia.
    simpl. by rewrite assignment_labels. }
  split.
  - rewrite Hassign. unfold assignment. simpl.
    assert ((i + Np.prod (cardinality f) <=? Np.prod (cardinality f) - 1) = true)
      as -> by lia.
    simpl. rewrite Heq. by rewrite assignment_labels.
  - by exists (assign_digits (cardinality f) i).
Qed.

Lemma assignment_wraps_negative_index_witness :
  wf_Factor phi_x1x2x3 /\ - Np.prod (cardinality phi_x1x2x3) <= -1 < 0 /\
  assignment phi_x1x2x3 [-1] = assignment phi_x1x2x3 [-1 + Np.prod (cardinality phi_x1x2x3)] /\
  assignment phi_x1x2x3 [-1] = Return [["x1_1"; "x2_2"; "x3_1"]%string].
Proof.
  assert (- Np.prod (cardinality phi_x1x2x3) <= -1 < 0) as Hi
    by (vm_compute; split; [discriminate|reflexivity]).
  split; [exact phi_x1x2x3_wf|]. split; [exact Hi|].
  split; [exact (proj1 (assignment_wraps_negative_index phi_x1x2x3 (-1) phi_x1x2x3_wf Hi))|].
  reflexivity.
Defined.

(** ** Cells of a product and of a quotient *)

(** X3.  For two factors that satisfy the class invariant, agree on the
    cardinality of their common variables and have a common variable,
    [product] returns a factor over the union scope (the first scope, then
    the new variables of the second in their order) in which every variable
    keeps the cardinality it has in its factor, and whose cell at every
    joint assignment is the product of the two factors' values at that
    assignment. *)
Theorem product_cells (f1 f2 : Factor) :
  wf_Factor f1 -> wf_Factor f2 -> compatible f1 f2 ->
  (exists v, v ∈ scope f1 /\ v ∈ scope f2) ->
  exists P,
    product f1 [f2] = Return P /\ wf_Factor P /\
    scope P = union_scope f1 f2 /\
    joint_scope (scope P) (cardinality P) f1 /\
    joint_scope (scope P) (cardinality P) f2 /\
    forall idx, in_range idx (cardinality P) ->
      exists x y,
        value_at f1 (scope P) idx = Return x /\
        value_at f2 (scope P) idx = Return y /\
        value_at P (scope P) idx = Return (Np.mul x y).
Proof.
  intros Hwf1 Hwf2 Hcompat Hcommon.
  destruct (bivar_common_ok f1 f2 M Hwf1 Hwf2 Hcompat Hcommon)
    as (P & ec & HP & HwfP & HsP & _ & Hj1 & Hj2 & Hcell).
  exists P. split; [exact HP|]. do 4 (split; [done|]).
  intros idx Hr. destruct (Hcell idx Hr) as (x & y & q & Hx & Hy & Hq & Hv).
  exists x, y. split; [done|]. split; [done|].
  simpl in Hq. injection Hq as <-. by apply value_at_self.
Qed.

Lemma product_cells_witness :
  wf_Factor phi_x1x2x3 /\ wf_Factor phi_x3x1 /\ compatible phi_x1x2x3 phi_x3x1 /\
  (exists v, v ∈ scope phi_x1x2x3 /\ v ∈ scope phi_x3x1) /\
  exists P,
    product phi_x1x2x3 [phi_x3x1] = Return P /\ wf_Factor P /\
    scope P = union_scope phi_x1x2x3 phi_x3x1 /\
    joint_scope (scope P) (cardinality P) phi_x1x2x3 /\
    joint_scope (scope P) (cardinality P) phi_x3x1 /\
    forall idx, in_range idx (cardinality P) ->
      exists x y,
        value_at phi_x1x2x3 (scope P) idx = Return x /\
        value_at phi_x3x1 (scope P) idx = Return y /\
        value_at P (scope P) idx = Return (Np.mul x y).
Proof.
  split; [exact phi_x1x2x3_wf|]. split; [exact phi_x3x1_wf|].
  split; [exact scenario_A_compatible|]. split; [exact scenario_A_common|].
  exact (product_cells phi_x1x2x3 phi_x3x1 phi_x1x2x3_wf phi_x3x1_wf
           scenario_A_compatible scenario_A_common).
Defined.

(** X4.  Under the same conditions [divide] never raises: it returns a
    factor over the union scope whose cell at a joint assignment, for the
    numerator's value x and the denominator's value y there, is the IEEE
    quotient [x / y] when y is not zero and, when y is zero, 0 for a finite
    non-zero x, NaN for a zero or NaN x, and the signed infinity for an
    infinite x. *)
Theorem divide_cells (f1 f2 : Factor) :
  wf_Factor f1 -> wf_Factor f2 -> compatible f1 f2 ->
  (exists v, v ∈ scope f1 /\ v ∈ scope f2) ->
  exists R,
    divide f1 f2 = Return R /\ wf_Factor R /\
    scope R = union_scope f1 f2 /\
    forall idx, in_range idx (cardinality R) ->
      exists x y,
        value_at f1 (scope R) idx = Return x /\
        value_at f2 (scope R) idx = Return y /\
        value_at R (scope R) idx
        = Return (match y, x with
                  | S754_zero _, S754_finite _ _ _ => Np.of_int 0
                  | S754_zero _, (S754_zero _ | S754_nan) => S754_nan
                  | _, _ => SFdiv Np.prec Np.emax x y
                  end).
Proof.
  intros Hwf1 Hwf2 Hcompat Hcommon.
  destruct (bivar_common_ok f1 f2 D Hwf1 Hwf2 Hcompat Hcommon)
    as (R & ec & HR & HwfR & HsR & _ & _ & _ & Hcell).
  exists R. split; [exact HR|]. do 2 (split; [done|]).
  intros idx Hr. destruct (Hcell idx Hr) as (x & y & q & Hx & Hy & Hq & Hv).
  exists x, y. split; [done|]. split; [done|].
  rewrite (value_at_self R idx q HwfR Hr Hv). rewrite <- Hq.
  destruct y, x; done.
Qed.

Lemma divide_cells_witness :
  wf_Factor phi_x1x2x3 /\ wf_Factor phi_x3x1 /\ compatible phi_x1x2x3 phi_x3x1 /\
  (exists v, v ∈ scope phi_x1x2x3 /\ v ∈ scope phi_x3x1) /\
  exists R,
    divide phi_x1x2x3 phi_x3x1 = Return R /\ wf_Factor R /\
    scope R = union_scope phi_x1x2x3 phi_x3x1 /\
    forall idx, in_range idx (cardinality R) ->
      exists x y,
        value_at phi_x1x2x3 (scope R) idx = Return x /\
        value_at phi_x3x1 (scope R) idx = Return y /\
        value_at R (scope R) idx
        = Return (match y, x with
                  | S754_zero _, S754_finite _ _ _ => Np.of_int 0
                  | S754_zero _, (S754_zero _ | S754_nan) => S754_nan
                  | _, _ => SFdiv Np.prec Np.emax x y
                  end).
Proof.
  split; [exact phi_x1x2x3_wf|]. split; [exact phi_x3x1_wf|].
  split; [exact scenario_A_compatible|]. split; [exact scenario_A_common|].
  exact (divide_cells phi_x1x2x3 phi_x3x1 phi_x1x2x3_wf phi_x3x1_wf
           scenario_A_compatible scenario_A_common).
Defined.

(** ** The constructor *)

Lemma get_cardinality_absent (f : Factor) (v : string) :
  v ∉ scope f -> get_cardinality f v = Raise (ScopeError v).
Proof.
  intros Hv. unfold get_cardinality, Py.mem. by rewrite bool_decide_eq_false_2.
Qed.

(** X5.  Built from distinct names, positive cardinalities and a buffer of
    [prod(cardinality)] values, a factor reports what it was built from:
    [scope()] is the list of names in order, [get_cardinality] of the k-th
    name is the k-th cardinality, [get_cardinality] of any other name raises
    the not-in-scope error, and the class invariant holds. *)
Theorem constructor_round_trip (vars : list string) (card : list Z)
        (value : list Np.double) :
  NoDup vars -> Forall (fun c => 0 < c) card -> length vars = length card ->
  Z.of_nat (length value) = Np.prod card ->
  exists f,
    Factor_init vars card value = Return f /\ wf_Factor f /\
    scope f = vars /\ cardinality f = card /\ values f = value /\
    (forall (k : nat) v c,
       vars !! k = Some v -> card !! k = Some c -> get_cardinality f v = Return c) /\
    (forall v, v ∉ vars -> get_cardinality f v = Raise (ScopeError v)).
Proof.
  intros Hnd Hpos Hlen Hsize.
  destruct (Factor_init_wf vars card value Hnd Hpos Hlen Hsize)
    as (f & Hf & Hwf & Hs & Hc & Hv & _).
  exists f. do 5 (split; [done|]). split.
  - intros k v c Hk Hck.
    destruct (get_cardinality_ok f v Hwf) as (c' & -> & Hc' & _).
    { rewrite Hs. by eapply list_elem_of_lookup_2. }
    f_equal. apply (card_of_fun f v); [done..|]. exists k. by rewrite Hs, Hc.
  - intros v Hv'. apply get_cardinality_absent. by rewrite Hs.
Qed.

Lemma constructor_round_trip_witness :
  NoDup ["x3"; "x1"]%string /\ Forall (fun c => 0 < c) [2; 2] /\
  length ["x3"; "x1"]%string = length [2; 2] /\
  Z.of_nat (length (Np.of_int <$> [1; 2; 3; 4])) = Np.prod [2; 2] /\
  exists f,
    Factor_init ["x3"; "x1"]%string [2; 2] (Np.of_int <$> [1; 2; 3; 4]) = Return f /\
    wf_Factor f /\
    scope f = ["x3"; "x1"]%string /\ cardinality f = [2; 2] /\
    values f = Np.of_int <$> [1; 2; 3; 4] /\
    (forall (k : nat) v c,
       ["x3"; "x1"]%string !! k = Some v -> [2; 2] !! k = Some c ->
       get_cardinality f v = Return c) /\
    (forall v, v ∉ ["x3"; "x1"]%string -> get_cardinality f v = Raise (ScopeError v)).
Proof.
  assert (NoDup ["x3"; "x1"]%string) as Hnd by by_evaluation.
  assert (Forall (fun c => 0 < c) [2; 2]) as Hpos by (repeat constructor).
  split; [exact Hnd|]. split; [exact Hpos|]. split; [reflexivity|]. split; [reflexivity|].
  exact (constructor_round_trip ["x3"; "x1"]%string [2; 2] (Np.of_int <$> [1; 2; 3; 4])
           Hnd Hpos eq_refl eq_refl).
Defined.

Lemma odict_set_keys (k : string) (v : list string) (d : list (string * list string)) :
  fst <$> odict_set k v d = if decide (k ∈ fst <$> d) then fst <$> d else (fst <$> d) ++ [k].
Proof.
  induction d as [|[k' v'] d IH].
  - cbn [odict_set fmap list_fmap]. case_decide as H; [by apply elem_of_nil in H|done].
  - cbn [odict_set]. rewrite fmap_cons. cbn [fst].
    destruct (decide (k' = k)) as [->|Hne].
    + rewrite fmap_cons. cbn [fst]. rewrite decide_True; [done|left].
    + rewrite fmap_cons. cbn [fst]. rewrite IH.
      destruct (decide (k ∈ fst <$> d)) as [Hin|Hin].
      * rewrite decide_True; [done|by right].
      * rewrite decide_False; [done|].
        intros [->|?]%elem_of_cons; done.
Qed.

Lemma odict_fold_keys (vars : list string) (card : list Z) (d : list (string * list string)) :
  length vars = length card -> NoDup (fst <$> d) ->
  let d' := fold_left (fun d vc => odict_set (fst vc) (state_labels (fst vc) (snd vc)) d)
                      (zip vars card) d in
  NoDup (fst <$> d') /\
  (forall x, x ∈ fst <$> d' <-> x ∈ fst <$> d \/ x ∈ vars).
Proof.
  revert card d. induction vars as [|v vars IH]; intros [|c card] d Hlen Hnd;
    simpl in *; try lia.
  - split; [done|]. intros x. split; [by left|]. intros [?|Hx]; [done|].
    by apply elem_of_nil in Hx.
  - destruct (IH card (odict_set v (state_labels v c) d)) as [Hnd' Hiff]; [lia| |].
    + rewrite odict_set_keys. destruct (decide (v ∈ fst <$> d)); [done|].
      apply NoDup_app. split; [done|]. split; [|apply NoDup_singleton].
      intros x Hx ->%list_elem_of_singleton. done.
    + split; [done|]. intros x. rewrite Hiff, odict_set_keys.
      destruct (decide (v ∈ fst <$> d)) as [Hin|Hin].
      * rewrite elem_of_cons. split; [tauto|]. intros [?|[->|?]]; tauto.
      * rewrite elem_of_app, list_elem_of_singleton, elem_of_cons. tauto.
Qed.

(** X6.  The constructor does not reject a repeated variable name: with
    lists of equal length and a buffer of the right size it returns a
    factor, and when a name is repeated the later occurrence only
    overwrites the labels, so the scope has fewer entries than the
    cardinality vector. *)
Theorem constructor_accepts_repeated_names (vars : list string) (card : list Z)
        (value : list Np.double) :
  length vars = length card -> Z.of_nat (length value) = Np.prod card ->
  ~ NoDup vars ->
  exists f,
    Factor_init vars card value = Return f /\
    cardinality f = card /\ values f = value /\
    NoDup (scope f) /\ (forall x, x ∈ scope f <-> x ∈ vars) /\
    (length (scope f) < length (cardinality f))%nat.
Proof.
  intros Hlen Hsize Hdup. unfold Factor_init.
  rewrite Hlen, Nat.eqb_refl. simpl.
  assert ((Z.of_nat (length value) =? Np.prod card) = true) as -> by lia. simpl.
  eexists. split; [done|]. simpl. split; [done|]. split; [done|].
  destruct (odict_fold_keys vars card [] Hlen) as [Hnd Hiff]; [constructor|].
  unfold scope. simpl. split; [done|].
  assert (forall x, x ∈ fst <$> fold_left
            (fun d vc => odict_set (fst vc) (state_labels (fst vc) (snd vc)) d)
            (zip vars card) [] <-> x ∈ vars) as Hiff'.
  { intros x. rewrite Hiff. simpl. split; [|by right].
    intros [Hx|?]; [by apply elem_of_nil in Hx|done]. }
  split; [done|].
  rewrite <- Hlen.
  assert (fst <$> fold_left
            (fun d vc => odict_set (fst vc) (state_labels (fst vc) (snd vc)) d)
            (zip vars card) [] ⊆+ vars) as Hsub.
  { apply NoDup_submseteq; [done|]. intros x. apply Hiff'. }
  destruct (decide (length vars <= length (fst <$> fold_left
              (fun d vc => odict_set (fst vc) (state_labels (fst vc) (snd vc)) d)
              (zip vars card) []))%nat) as [Hle|Hlt]; [|lia].
  destruct Hdup. eapply (NoDup_Permutation_proper); [|exact Hnd].
  symmetry. by apply submseteq_length_Permutation.
Qed.

Lemma constructor_accepts_repeated_names_witness :
  length ["a"; "a"]%string = length [2; 3] /\
  Z.of_nat (length (Np.of_int <$> Py.range 6)) = Np.prod [2; 3] /\
  ~ NoDup ["a"; "a"]%string /\
  exists f,
    Factor_init ["a"; "a"]%string [2; 3] (Np.of_int <$> Py.range 6) = Return f /\
    cardinality f = [2; 3] /\ values f = Np.of_int <$> Py.range 6 /\
    NoDup (scope f) /\ (forall x, x ∈ scope f <-> x ∈ ["a"; "a"]%string) /\
    (length (scope f) < length (cardinality f))%nat.
Proof.
  assert (~ NoDup ["a"; "a"]%string) as Hdup.
  { intros H. apply NoDup_cons in H as [H _]. apply H. left. }
  split; [reflexivity|]. split; [reflexivity|]. split; [exact Hdup|].
  exact (constructor_accepts_repeated_names ["a"; "a"]%string [2; 3]
           (Np.of_int <$> Py.range 6) eq_refl eq_refl Hdup).
Defined.

(** ** What the axis operations leave in the scope *)

Lemma card_of_zip (f : Factor) (v : string) (c : Z) :
  card_of f v c <-> (v, c) ∈ zip (scope f) (cardinality f).
Proof.
  unfold card_of. rewrite list_elem_of_lookup. split.
  - intros (i & Hv & Hc). exists i. apply lookup_zip_with_Some. by exists v, c.
  - intros (i & Hi). apply lookup_zip_with_Some in Hi as (v' & c' & Heq & Hv & Hc).
    simplify_eq. by exists i.
Qed.

Lemma filter_fst_zip (P : string -> Prop) `{!forall x, Decision (P x)}
      `{!forall vc : string * Z, Decision (P (fst vc))}
      (a : list string) (b : list Z) :
  length a = length b ->
  fst <$> filter (fun vc => P (fst vc)) (zip a b) = filter P a.
Proof.
  revert b. induction a as [|x a IH]; intros [|y b] Hlen; simpl in *; try done.
  rewrite !filter_cons. simpl.
  repeat case_decide; simpl; rewrite ?IH by lia; done.
Qed.

Lemma filter_all {A} (P : A -> Prop) `{!forall x, Decision (P x)} (l : list A) :
  (forall x, x ∈ l -> P x) -> filter P l = l.
Proof.
  induction l as [|x l IH]; intros Hall; [done|].
  rewrite filter_cons, decide_True by (apply Hall; left).
  f_equal. apply IH. intros y Hy. apply Hall. by right.
Qed.

Lemma delete_filter_key (l : list (string * Z)) (k : nat) (v : string) :
  NoDup (fst <$> l) -> (fst <$> l) !! k = Some v ->
  base.delete k l = filter (fun vc => fst vc <> v) l.
Proof.
  revert k. induction l as [|[w c] l IH]; intros k Hnd Hk; [done|].
  rewrite fmap_cons in Hnd, Hk. apply NoDup_cons in Hnd as [Hw Hnd].
  rewrite filter_cons. simpl in *. destruct k as [|k]; simpl in *.
  - injection Hk as ->. rewrite decide_False by (intros H; by apply H).
    symmetry. apply filter_all. intros [x c'] Hx. simpl. intros ->.
    apply Hw. apply list_elem_of_fmap. by exists (v, c').
  - rewrite decide_True.
    + f_equal. by apply IH.
    + intros ->. apply Hw. by eapply list_elem_of_lookup_2.
Qed.

Lemma pairs_fst (f : Factor) :
  wf_Factor f -> fst <$> zip (scope f) (cardinality f) = scope f.
Proof. intros Hwf. apply fst_zip. by rewrite (scope_length f Hwf). Qed.

Lemma axis_step_pairs (f f1 : Factor) (k : nat) (v : string) :
  wf_Factor f -> scope f !! k = Some v ->
  scope f1 = base.delete k (scope f) ->
  cardinality f1 = base.delete k (cardinality f) ->
  zip (scope f1) (cardinality f1)
  = filter (fun vc => fst vc <> v) (zip (scope f) (cardinality f)).
Proof.
  intros Hwf Hk -> ->. rewrite <- delete_zip_with.
  apply delete_filter_key; rewrite pairs_fst by done; [apply Hwf|done].
Qed.

Lemma filter_not_in_cons (v : string) (vars : list string) (l : list (string * Z)) :
  filter (fun vc => fst vc ∉ vars) (filter (fun vc => fst vc <> v) l)
  = filter (fun vc => fst vc ∉ v :: vars) l.
Proof.
  rewrite list_filter_filter. apply list_filter_iff. intros [x c]. simpl.
  rewrite not_elem_of_cons. tauto.
Qed.

Lemma marginalize_loop_pairs (vars : list string) (f : Factor) :
  wf_Factor f -> NoDup vars -> (forall v, v ∈ vars -> v ∈ scope f) ->
  exists f', for_each marginalize_body f vars = (f', Return tt) /\ wf_Factor f' /\
             zip (scope f') (cardinality f')
             = filter (fun vc => fst vc ∉ vars) (zip (scope f) (cardinality f)).
Proof.
  revert f. induction vars as [|v vars IH]; intros f Hwf Hnd Hin; simpl.
  - exists f. split; [done|]. split; [done|]. symmetry. apply filter_all.
    intros ? _. apply not_elem_of_nil.
  - apply NoDup_cons in Hnd as [Hv Hnd].
    destruct (list_elem_of_lookup_1 (scope f) v) as [k Hk]; [apply Hin; left|].
    destruct (marginalize_body_ok f k v Hwf Hk) as (f1 & -> & Hwf1 & Hs1 & Hc1).
    destruct (IH f1 Hwf1 Hnd) as (f' & Hloop & Hwf' & Hpairs).
    { intros w Hw. rewrite Hs1. apply (elem_of_delete_ne _ _ v); [done| |].
      - apply Hin. by right.
      - by intros ->. }
    exists f'. split; [done|]. split; [done|].
    by rewrite Hpairs, (axis_step_pairs f f1 k v), filter_not_in_cons.
Qed.

Lemma reduce_loop_pairs (toks : list string) (parsed : list (string * Z)) (f : Factor) :
  wf_Factor f ->
  Forall2 (fun tok vs => parses_as tok (fst vs) (snd vs)) toks parsed ->
  NoDup (fst <$> parsed) ->
  Forall (fun vs => valid_state f (fst vs) (snd vs)) parsed ->
  exists f', for_each reduce_body f toks = (f', Return tt) /\ wf_Factor f' /\
             zip (scope f') (cardinality f')
             = filter (fun vc => fst vc ∉ fst <$> parsed)
                      (zip (scope f) (cardinality f)).
Proof.
  intros Hwf Hparse. revert f Hwf.
  induction Hparse as [|tok [v s] toks parsed Htok _ IH]; intros f Hwf Hnd Hvalid.
  - exists f. split; [done|]. split; [done|]. symmetry. apply filter_all.
    intros ? _. apply not_elem_of_nil.
  - rewrite fmap_cons in Hnd. apply NoDup_cons in Hnd as [Hv Hnd].
    apply Forall_cons in Hvalid as [(k & c & Hk & Hc & Hs) Hvalid]. simpl in *.
    destruct (reduce_body_ok f tok v s k c Hwf Htok Hk Hc Hs)
      as (f1 & -> & Hwf1 & Hs1 & Hc1).
    destruct (IH f1 Hwf1 Hnd) as (f' & Hloop & Hwf' & Hpairs).
    { rewrite Forall_forall in *. intros [w t] Hw.
      destruct (Hvalid _ Hw) as (j & c' & Hj & Hc' & Ht). simpl in *.
      assert (j <> k) as Hne.
      { intros ->. assert (w = v) as -> by congruence.
        apply Hv. apply list_elem_of_fmap. by exists (v, t). }
      destruct (delete_lookup_pair _ _ j k w c' Hj Hc' Hne) as (j' & Hj1 & Hj2).
      exists j', c'. by rewrite Hs1, Hc1. }
    exists f'. split; [done|]. split; [done|].
    by rewrite Hpairs, (axis_step_pairs f f1 k v), filter_not_in_cons.
Qed.

Lemma pairs_scope_cards (f g : Factor) (vars : list string) :
  wf_Factor f -> wf_Factor g ->
  zip (scope g) (cardinality g)
  = filter (fun vc => fst vc ∉ vars) (zip (scope f) (cardinality f)) ->
  scope g = filter (fun v => v ∉ vars) (scope f) /\
  (forall v c, card_of g v c <-> card_of f v c /\ (v ∉ vars)).
Proof.
  intros Hwf Hwg Hpairs. split.
  - rewrite <- (pairs_fst g Hwg), Hpairs.
    apply (filter_fst_zip (fun v => v ∉ vars)). by apply scope_length.
  - intros v c. rewrite !card_of_zip, Hpairs, list_elem_of_filter. simpl. tauto.
Qed.

Lemma marginalize_validation_passes (f : Factor) (vars : list string) :
  (forall v, v ∈ vars -> v ∈ scope f) ->
  list_find (fun v => Py.mem v (scope f) = false) vars = None.
Proof.
  intros Hin. apply list_find_None, Forall_forall. intros v Hv.
  unfold Py.mem. by rewrite (bool_decide_eq_true_2 _ (Hin v Hv)).
Qed.

(** X7.  [marginalize] of a list of distinct variables of the scope removes
    exactly those variables: in either mode the resulting factor satisfies
    the class invariant, its scope is the old scope without the requested
    variables, in the old order, and every remaining variable keeps its
    cardinality.  In-place mode leaves that factor in the receiver and
    returns [None]; copy mode returns it and leaves the receiver alone. *)
Theorem marginalize_removes_requested (f : Factor) (vars : list string) (inplace : bool) :
  wf_Factor f -> NoDup vars -> (forall v, v ∈ vars -> v ∈ scope f) ->
  exists g,
    marginalize f (StrList vars) inplace
    = (if inplace then (g, Return None) else (f, Return (Some g))) /\
    wf_Factor g /\
    scope g = filter (fun v => v ∉ vars) (scope f) /\
    (forall v c, card_of g v c <-> card_of f v c /\ (v ∉ vars)).
Proof.
  intros Hwf Hnd Hin.
  destruct (marginalize_loop_pairs vars f Hwf Hnd Hin) as (g & Hloop & Hwg & Hpairs).
  exists g. split; [|split; [done|by apply pairs_scope_cards]].
  unfold marginalize. simpl. rewrite marginalize_validation_passes by done.
  rewrite (Factor_init_copy f Hwf), Hloop. by destruct inplace.
Qed.

Lemma marginalize_removes_requested_witness :
  wf_Factor phi_x1x2x3 /\ NoDup ["x3"; "x1"]%string /\
  (forall v, v ∈ ["x3"; "x1"]%string -> v ∈ scope phi_x1x2x3) /\
  exists g,
    marginalize phi_x1x2x3 (StrList ["x3"; "x1"]%string) true = (g, Return None) /\
    wf_Factor g /\
    scope g = filter (fun v => v ∉ ["x3"; "x1"]%string) (scope phi_x1x2x3) /\
    (forall v c, card_of g v c <-> card_of phi_x1x2x3 v c /\ (v ∉ ["x3"; "x1"]%string)).
Proof.
  assert (NoDup ["x3"; "x1"]%string) as Hnd by by_evaluation.
  assert (forall v, v ∈ ["x3"; "x1"]%string -> v ∈ scope phi_x1x2x3) as Hin
    by (apply Forall_forall; by_evaluation).
  split; [exact phi_x1x2x3_wf|]. split; [exact Hnd|]. split; [exact Hin|].
  exact (marginalize_removes_requested phi_x1x2x3 ["x3"; "x1"]%string true
           phi_x1x2x3_wf Hnd Hin).
Defined.

(** X8.  [reduce] with tokens that name distinct variables of the scope,
    each with one of its states, removes exactly the named variables: the
    resulting factor satisfies the class invariant, its scope is the old
    scope without them, in the old order, and every remaining variable
    keeps its cardinality. *)
Theorem reduce_removes_named (f : Factor) (toks : list string)
        (parsed : list (string * Z)) (inplace : bool) :
  wf_Factor f ->
  Forall2 (fun tok vs => parses_as tok (fst vs) (snd vs)) toks parsed ->
  NoDup (fst <$> parsed) ->
  Forall (fun vs => valid_state f (fst vs) (snd vs)) parsed ->
  exists g,
    reduce f (StrList toks) inplace
    = (if inplace then (g, Return None) else (f, Return (Some g))) /\
    wf_Factor g /\
    scope g = filter (fun v => v ∉ fst <$> parsed) (scope f) /\
    (forall v c, card_of g v c <-> card_of f v c /\ (v ∉ fst <$> parsed)).
Proof.
  intros Hwf Hparse Hnd Hvalid.
  destruct (reduce_loop_pairs toks parsed f Hwf Hparse Hnd Hvalid)
    as (g & Hloop & Hwg & Hpairs).
  exists g. split; [|split; [done|by apply pairs_scope_cards]].
  unfold reduce. simpl. rewrite (Factor_init_copy f Hwf), Hloop. by destruct inplace.
Qed.

Lemma reduce_removes_named_witness :
  wf_Factor phi_x1x2x3 /\
  Forall2 (fun tok vs => parses_as tok (fst vs) (snd vs))
          ["x2_1"; "x1_0"]%string [("x2"%string, 1); ("x1"%string, 0)] /\
  NoDup (fst <$> [("x2"%string, 1); ("x1"%string, 0)]) /\
  Forall (fun vs => valid_state phi_x1x2x3 (fst vs) (snd vs))
         [("x2"%string, 1); ("x1"%string, 0)] /\
  exists g,
    reduce phi_x1x2x3 (StrList ["x2_1"; "x1_0"]%string) true = (g, Return None) /\
    wf_Factor g /\
    scope g = filter (fun v => v ∉ fst <$> [("x2"%string, 1); ("x1"%string, 0)])
                     (scope phi_x1x2x3) /\
    (forall v c, card_of g v c <->
                 card_of phi_x1x2x3 v c /\
                 (v ∉ fst <$> [("x2"%string, 1); ("x1"%string, 0)])).
Proof.
  assert (Forall2 (fun tok vs => parses_as tok (fst vs) (snd vs))
                  ["x2_1"; "x1_0"]%string [("x2"%string, 1); ("x1"%string, 0)]) as Hp.
  { repeat constructor; simpl.
    - by exists "1"%string.
    - by exists "0"%string. }
  assert (NoDup (fst <$> [("x2"%string, 1); ("x1"%string, 0)])) as Hnd by by_evaluation.
  assert (Forall (fun vs => valid_state phi_x1x2x3 (fst vs) (snd vs))
                 [("x2"%string, 1); ("x1"%string, 0)]) as Hv.
  { repeat constructor; simpl.
    - exists 1%nat, 3. repeat split; lia.
    - exists 0%nat, 2. repeat split; lia. }
  split; [exact phi_x1x2x3_wf|]. split; [exact Hp|]. split; [exact Hnd|].
  split; [exact Hv|].
  exact (reduce_removes_named phi_x1x2x3 ["x2_1"; "x1_0"]%string
           [("x2"%string, 1); ("x1"%string, 0)] true phi_x1x2x3_wf Hp Hnd Hv).
Defined.

(** ** Frame properties of the heap operations *)

Lemma view_Some_inv (h : Heap) (l : loc) (f : Factor) :
  view h l = Some f ->
  exists o, objects h !! l = Some o /\
            dicts h !! variables_ref o = Some (variables f) /\
            int_arrays h !! cardinality_ref o = Some (cardinality f) /\
            double_arrays h !! values_ref o = Some (values f).
Proof.
  unfold view. intros H. destruct (objects h !! l) as [o|]; [|done].
  exists o. split; [done|].
  destruct (dicts h !! variables_ref o), (int_arrays h !! cardinality_ref o),
    (double_arrays h !! values_ref o); try done.
  by injection H as <-.
Qed.

Lemma view_Some_intro (h : Heap) (l : loc) (o : FactorObject) (f : Factor) :
  objects h !! l = Some o ->
  dicts h !! variables_ref o = Some (variables f) ->
  int_arrays h !! cardinality_ref o = Some (cardinality f) ->
  double_arrays h !! values_ref o = Some (values f) ->
  view h l = Some f.
Proof. unfold view. intros -> -> -> ->. by destruct f. Qed.

(** Rebinding attributes of the instance at [l] to objects that exist and
    updating its own dictionary in place touches no other instance. *)
Lemma object_update_frame (h h' : Heap) (l : loc) (o o' : FactorObject)
      (d' : list (string * list string)) :
  separated h -> objects h !! l = Some o ->
  objects h' = <[l := o']> (objects h) ->
  variables_ref o' = variables_ref o ->
  dicts h' = <[variables_ref o := d']> (dicts h) ->
  int_arrays h ⊆ int_arrays h' -> double_arrays h ⊆ double_arrays h' ->
  is_Some (int_arrays h' !! cardinality_ref o') ->
  is_Some (double_arrays h' !! values_ref o') ->
  (forall l', l' <> l -> view h' l' = view h l') /\
  dom (objects h') = dom (objects h) /\ separated h'.
Proof.
  intros [Hsep Hrefs] Ho Hobj Hvr Hd Hi Hv Hci Hvi. split; [|split; [|split]].
  - intros l' Hne. unfold view. rewrite Hobj, lookup_insert_ne by done.
    destruct (objects h !! l') as [o1|] eqn:Ho1; [|done].
    destruct (Hrefs l' o1 Ho1) as ([d Hd1] & [c Hc1] & [v Hv1]).
    rewrite Hd, lookup_insert_ne
      by (intros Heq; apply Hne; symmetry; by apply (Hsep l l' o o1)).
    by rewrite (lookup_weaken _ _ _ _ Hc1 Hi), (lookup_weaken _ _ _ _ Hv1 Hv), Hd1, Hc1, Hv1.
  - rewrite Hobj. apply dom_insert_lookup_L. by eexists.
  - intros l1 l2 o1 o2. rewrite Hobj.
    destruct (decide (l1 = l)) as [->|Hn1], (decide (l2 = l)) as [->|Hn2]; [done|..].
    + rewrite lookup_insert_eq, lookup_insert_ne by done. intros [= <-] H2 Heq.
      apply (Hsep l l2 o o2); [done|done|congruence].
    + rewrite lookup_insert_ne, lookup_insert_eq by done. intros H1 [= <-] Heq.
      apply (Hsep l1 l o1 o); [done|done|congruence].
    + rewrite !lookup_insert_ne by done. apply Hsep.
  - intros l0 o0. rewrite Hobj. destruct (decide (l0 = l)) as [->|Hn].
    + rewrite lookup_insert_eq. intros [= <-]. split; [|done].
      rewrite Hd, Hvr, lookup_insert_eq. by eexists.
    + rewrite lookup_insert_ne by done. intros H0.
      destruct (Hrefs l0 o0 H0) as (Hd0 & Hc0 & Hv0). split; [|split].
      * rewrite Hd. apply lookup_insert_is_Some'. by right.
      * by eapply lookup_weaken_is_Some.
      * by eapply lookup_weaken_is_Some.
Qed.

Lemma updates_refl (h : Heap) (l : loc) (f : Factor) :
  separated h -> view h l = Some f -> updates h l f h.
Proof. by intros Hsep Hview. Qed.

Lemma updates_trans (h h1 h2 : Heap) (l : loc) (f1 f2 : Factor) :
  updates h l f1 h1 -> updates h1 l f2 h2 -> updates h l f2 h2.
Proof.
  intros (_ & Hf1 & Hd1 & _) (Hv2 & Hf2 & Hd2 & Hs2).
  split; [done|]. split; [|split; [congruence|done]].
  intros l' Hne. by rewrite Hf2, Hf1.
Qed.

Ltac heap_side :=
  simpl;
  first [ done
        | by rewrite insert_id
        | by apply insert_subseteq
        | by eexists
        | rewrite lookup_insert_eq; by eexists ].

Lemma set_values_ok (h : Heap) (l : loc) (f : Factor) (a : list Np.double) :
  separated h -> view h l = Some f ->
  exists h', set_values l a h = Some (h', Return tt) /\
             updates h l (mkFactor (variables f) (cardinality f) a) h'.
Proof.
  intros Hsep Hview.
  destruct (view_Some_inv h l f Hview) as (o & Ho & Hd & Hc & Hv).
  unfold set_values. rewrite Ho. eexists. split; [done|].
  set (v := fresh (dom (double_arrays h))).
  assert (double_arrays h !! v = None) as Hfresh by apply not_elem_of_dom, is_fresh.
  set (o' := mkObject (variables_ref o) (cardinality_ref o) v).
  set (h' := mkHeap _ _ _ _).
  destruct (object_update_frame h h' l o o' (variables f)) as (Hframe & Hdom & Hsep');
    [heap_side..|].
  split; [|done].
  apply (view_Some_intro h' l o'); simpl; by rewrite ?lookup_insert_eq.
Qed.

Lemma set_cardinality_ok (h : Heap) (l : loc) (f : Factor) (a : list Z) :
  separated h -> view h l = Some f ->
  exists h', set_cardinality l a h = Some (h', Return tt) /\
             updates h l (mkFactor (variables f) a (values f)) h'.
Proof.
  intros Hsep Hview.
  destruct (view_Some_inv h l f Hview) as (o & Ho & Hd & Hc & Hv).
  unfold set_cardinality. rewrite Ho. eexists. split; [done|].
  set (c := fresh (dom (int_arrays h))).
  assert (int_arrays h !! c = None) as Hfresh by apply not_elem_of_dom, is_fresh.
  set (o' := mkObject (variables_ref o) c (values_ref o)).
  set (h' := mkHeap _ _ _ _).
  destruct (object_update_frame h h' l o o' (variables f)) as (Hframe & Hdom & Hsep');
    [heap_side..|].
  split; [|done].
  apply (view_Some_intro h' l o'); simpl; by rewrite ?lookup_insert_eq.
Qed.

Lemma del_variable_ok (h : Heap) (l : loc) (f : Factor) (var : string) :
  separated h -> view h l = Some f ->
  exists h', del_variable l var h = Some (h', Return tt) /\
             updates h l (mkFactor (odict_del var (variables f)) (cardinality f)
                                   (values f)) h'.
Proof.
  intros Hsep Hview.
  destruct (view_Some_inv h l f Hview) as (o & Ho & Hd & Hc & Hv).
  unfold del_variable. rewrite Ho, Hd. eexists. split; [done|].
  set (h' := mkHeap _ _ _ _).
  destruct (object_update_frame h h' l o o (odict_del var (variables f)))
    as (Hframe & Hdom & Hsep'); [heap_side..|].
  split; [|done].
  apply (view_Some_intro h' l o); simpl; by rewrite ?lookup_insert_eq.
Qed.

Lemma getattrs_view (h : Heap) (l : loc) (f : Factor) :
  view h l = Some f -> getattrs l h = Some (h, Return f).
Proof. unfold getattrs. by intros ->. Qed.

(** *** The constructor *)

Lemma new_fresh (h : Heap) (f : Factor) : objects h !! snd (new h f) = None.
Proof. apply not_elem_of_dom, is_fresh. Qed.

Lemma view_new_self (h : Heap) (f : Factor) :
  view (fst (new h f)) (snd (new h f)) = Some f.
Proof.
  unfold view, new. simpl. rewrite lookup_insert_eq. simpl.
  rewrite !lookup_insert_eq. by destruct f.
Qed.

Lemma view_new_other (h : Heap) (f : Factor) (l : loc) :
  separated h -> l <> snd (new h f) -> view (fst (new h f)) l = view h l.
Proof.
  intros [_ Hrefs] Hne. unfold view, new in *. simpl in *.
  rewrite lookup_insert_ne by done.
  destruct (objects h !! l) as [o|] eqn:Ho; [|done].
  destruct (Hrefs l o Ho) as (Hd & Hc & Hv).
  assert (fresh (dom (dicts h)) <> variables_ref o) as Nd.
  { intros Heq. apply elem_of_dom in Hd. rewrite <- Heq in Hd. exact (is_fresh (dom (dicts h)) Hd). }
  assert (fresh (dom (int_arrays h)) <> cardinality_ref o) as Nc.
  { intros Heq. apply elem_of_dom in Hc. rewrite <- Heq in Hc. exact (is_fresh (dom (int_arrays h)) Hc). }
  assert (fresh (dom (double_arrays h)) <> values_ref o) as Nv.
  { intros Heq. apply elem_of_dom in Hv. rewrite <- Heq in Hv. exact (is_fresh (dom (double_arrays h)) Hv). }
  by rewrite !lookup_insert_ne by done.
Qed.

Lemma dom_new (h : Heap) (f : Factor) :
  dom (objects (fst (new h f))) = {[snd (new h f)]} ∪ dom (objects h).
Proof. unfold new. simpl. by rewrite dom_insert_L. Qed.

Lemma separated_new (h : Heap) (f : Factor) : separated h -> separated (fst (new h f)).
Proof.
  intros [Hsep Hrefs]. unfold new. simpl.
  set (d := fresh (dom (dicts h))). set (l := fresh (dom (objects h))).
  assert (forall l' o', objects h !! l' = Some o' -> variables_ref o' <> d) as Hd.
  { intros l' o' Ho' Heq. destruct (Hrefs l' o' Ho') as (Hx & _).
    apply elem_of_dom in Hx. rewrite Heq in Hx. exact (is_fresh (dom (dicts h)) Hx). }
  split; simpl.
  - intros l1 l2 o1 o2.
    destruct (decide (l1 = l)) as [->|Hn1], (decide (l2 = l)) as [->|Hn2]; [done|..].
    + rewrite lookup_insert_eq, lookup_insert_ne by done. intros [= <-] H2 Heq.
      simpl in Heq. symmetry in Heq. by apply Hd in H2.
    + rewrite lookup_insert_ne, lookup_insert_eq by done. intros H1 [= <-] Heq.
      simpl in Heq. by apply Hd in H1.
    + rewrite !lookup_insert_ne by done. apply Hsep.
  - intros l0 o0. destruct (decide (l0 = l)) as [->|Hn].
    + rewrite lookup_insert_eq. intros [= <-]. simpl.
      rewrite !lookup_insert_eq. by repeat split; eexists.
    + rewrite lookup_insert_ne by done. intros H0.
      destruct (Hrefs l0 o0 H0) as (Hd0 & Hc0 & Hv0).
      repeat split; apply lookup_insert_is_Some'; by right.
Qed.

(** [Factor(...)] allocates: the instance is at a location that held no
    instance, it shows the factor built, and every other instance shows what
    it showed. *)
Lemma Factor_new_ok (h : Heap) (vars : list string) (card : list Z)
      (value : list Np.double) (f : Factor) :
  separated h -> Factor_init vars card value = Return f ->
  exists h' l',
    Factor_new vars card value h = Some (h', Return l') /\
    objects h !! l' = None /\ view h' l' = Some f /\
    (forall l, l <> l' -> view h' l = view h l) /\
    dom (objects h') = {[l']} ∪ dom (objects h) /\ separated h'.
Proof.
  intros Hsep Hinit. exists (fst (new h f)), (snd (new h f)).
  split; [unfold Factor_new; rewrite Hinit; by destruct (new h f)|].
  split; [apply new_fresh|]. split; [apply view_new_self|].
  split; [intros l Hne; by apply view_new_other|].
  split; [apply dom_new|by apply separated_new].
Qed.

(** *** The loops on the heap follow the loops on the receiver *)

Lemma marginalize_step_sim (h : Heap) (l : loc) (f : Factor) (v : string) :
  separated h -> view h l = Some f ->
  exists h', Method.marginalize_step l v h = Some (h', snd (marginalize_body f v)) /\
             updates h l (fst (marginalize_body f v)) h'.
Proof.
  intros Hsep Hview. cbv [Method.marginalize_step and_then lift].
  rewrite (getattrs_view h l f Hview). cbv beta iota. unfold marginalize_body.
  destruct (_marginalize_single_variable f v) as [vals|e];
    [|exists h; split; [done|by apply updates_refl]].
  destruct (set_values_ok h l f vals Hsep Hview) as (h1 & -> & Hu1). cbv beta iota.
  pose proof Hu1 as (Hv1 & _ & _ & Hs1).
  rewrite (getattrs_view h1 l _ Hv1). cbv beta iota.
  change (scope (mkFactor (variables f) (cardinality f) vals)) with (scope f).
  destruct (Py.index v (scope f)) as [index|e]; [|by exists h1].
  destruct (del_variable_ok h1 l _ v Hs1 Hv1) as (h2 & -> & Hu2). cbv beta iota.
  pose proof Hu2 as (Hv2 & _ & _ & Hs2).
  rewrite (getattrs_view h2 l _ Hv2). cbv beta iota.
  destruct (set_cardinality_ok h2 l _ (Np.delete (cardinality f) index) Hs2 Hv2)
    as (h3 & Hset & Hu3).
  exists h3. split; [exact Hset|].
  eapply updates_trans; [|exact Hu3]. by eapply updates_trans.
Qed.

Lemma reduce_step_sim (h : Heap) (l : loc) (f : Factor) (tok : string) :
  separated h -> view h l = Some f ->
  exists h', Method.reduce_step l tok h = Some (h', snd (reduce_body f tok)) /\
             updates h l (fst (reduce_body f tok)) h'.
Proof.
  intros Hsep Hview. cbv [Method.reduce_step and_then lift].
  rewrite (getattrs_view h l f Hview). cbv beta iota. unfold reduce_body.
  destruct (reduce_slice f tok) as [[[var index] vals]|e];
    [|exists h; split; [done|by apply updates_refl]].
  cbv beta iota.
  destruct (set_values_ok h l f vals Hsep Hview) as (h1 & -> & Hu1). cbv beta iota.
  pose proof Hu1 as (Hv1 & _ & _ & Hs1).
  destruct (del_variable_ok h1 l _ var Hs1 Hv1) as (h2 & -> & Hu2). cbv beta iota.
  pose proof Hu2 as (Hv2 & _ & _ & Hs2).
  rewrite (getattrs_view h2 l _ Hv2). cbv beta iota.
  destruct (set_cardinality_ok h2 l _ (Np.delete (cardinality f) index) Hs2 Hv2)
    as (h3 & Hset & Hu3).
  exists h3. split; [exact Hset|].
  eapply updates_trans; [|exact Hu3]. by eapply updates_trans.
Qed.

Lemma for_each_sim {A} (step : A -> prog unit)
      (body : Factor -> A -> Factor * result unit) (l : loc) :
  (forall h f x, separated h -> view h l = Some f ->
     exists h', step x h = Some (h', snd (body f x)) /\ updates h l (fst (body f x)) h') ->
  forall xs h f, separated h -> view h l = Some f ->
    exists h', for_each_on step xs h = Some (h', snd (for_each body f xs)) /\
               updates h l (fst (for_each body f xs)) h'.
Proof.
  intros Hstep xs. induction xs as [|x xs IH]; intros h f Hsep Hview.
  - exists h. split; [done|by apply updates_refl].
  - cbn [for_each_on for_each]. unfold and_then.
    destruct (Hstep h f x Hsep Hview) as (h1 & -> & Hu1).
    destruct (body f x) as [f1 [[]|e]]; simpl in *; [|by exists h1].
    pose proof Hu1 as (Hv1 & _ & _ & Hs1).
    destruct (IH h1 f1 Hs1 Hv1) as (h2 & -> & Hu2).
    exists h2. split; [done|]. by eapply updates_trans.
Qed.

(** C8.  On a heap whose instances do not share dictionaries, for a
    receiver that shows a factor [f] satisfying the class invariant and a
    valid argument, let [g] be the factor that the operation computes from
    [f]: for [marginalize] and [reduce] its scope is the scope of [f]
    without the variables named, for [normalize] its values are the values
    of [f] divided by their total.  Each of [marginalize], [reduce] and
    [normalize]
    - in copy mode returns a location that held no instance before the
      call, and that location shows [g]; every other instance, the receiver
      included, shows what it showed before the call (its scope,
      cardinalities and values);
    - in in-place mode returns [None], allocates no instance, leaves the
      receiver showing [g], and every other instance shows what it showed
      before the call. *)
Theorem C8_copy_and_in_place_modes (h : Heap) (self : loc) (f : Factor) (c : axis_call) :
  separated h -> view h self = Some f -> wf_Factor f -> valid_call f c ->
  exists g, wf_Factor g /\ run c true f = (g, Return None) /\ outcome c f g /\
    (exists h' l',
        call c false self h = Some (h', Return (Some l')) /\
        objects h !! l' = None /\ view h' l' = Some g /\
        view h' self = Some f /\
        (forall l, l <> l' -> view h' l = view h l) /\
        separated h') /\
    (exists h',
        call c true self h = Some (h', Return None) /\
        view h' self = Some g /\
        (forall l, l <> self -> view h' l = view h l) /\
        dom (objects h') = dom (objects h) /\
        separated h').
Proof.
  intros Hsep Hview Hwf Hvalid.
  destruct (run_ok c f Hwf Hvalid) as (g & Hg & Hin & Hcopy).
  exists g. split; [done|]. split; [done|].
  destruct (Factor_new_ok h (scope f) (cardinality f) (values f) f Hsep
              (Factor_init_copy f Hwf))
    as (h1 & l' & Hnew & Hfresh & Hv1 & Hframe1 & _ & Hs1).
  assert (self <> l') as Hself.
  { intros ->. apply view_Some_inv in Hview as (o & Ho & _). congruence. }
  assert (forall h2, updates h1 l' g h2 ->
            objects h !! l' = None /\ view h2 l' = Some g /\ view h2 self = Some f /\
            (forall l, l <> l' -> view h2 l = view h l) /\ separated h2) as Hcopy_frame.
  { intros h2 (Hv2 & Hf2 & _ & Hs2). split; [done|]. split; [done|].
    split; [by rewrite Hf2, Hframe1|]. split; [|done].
    intros l Hne. by rewrite Hf2, Hframe1. }
  destruct c as [vars|vals|]; simpl in Hin, Hcopy, Hvalid |- *.
  - destruct Hvalid as [Hnd Hvars].
    assert (list_find (fun v => Py.mem v (scope f) = false) (as_list vars) = None)
      as Hfind.
    { apply list_find_None, Forall_forall. intros v Hv.
      unfold Py.mem. by rewrite (bool_decide_eq_true_2 _ (Hvars v Hv)). }
    destruct (marginalize_loop_pairs (as_list vars) f Hwf Hnd Hvars)
      as (g' & Hloop & _ & Hpairs).
    assert (g' = g) as ->.
    { unfold marginalize in Hin. rewrite Hfind, Hloop in Hin. simpl in Hin. congruence. }
    split; [by apply pairs_scope_cards|]. split.
    + destruct (for_each_sim (Method.marginalize_step l') marginalize_body l'
                  (fun h0 f0 x => marginalize_step_sim h0 l' f0 x)
                  (as_list vars) h1 f Hs1 Hv1) as (h2 & Hrun & Hu).
      rewrite Hloop in Hrun, Hu. simpl in Hrun, Hu.
      exists h2, l'. split; [|by apply Hcopy_frame].
      cbv [Method.marginalize and_then lift ret].
      rewrite (getattrs_view h self f Hview). cbv beta iota.
      rewrite Hfind, Hnew. cbv beta iota. by rewrite Hrun.
    + destruct (for_each_sim (Method.marginalize_step self) marginalize_body self
                  (fun h0 f0 x => marginalize_step_sim h0 self f0 x)
                  (as_list vars) h f Hsep Hview) as (h2 & Hrun & Hu).
      rewrite Hloop in Hrun, Hu. simpl in Hrun, Hu.
      exists h2. split; [|exact Hu].
      cbv [Method.marginalize and_then lift ret].
      rewrite (getattrs_view h self f Hview). cbv beta iota.
      rewrite Hfind. cbv beta iota. by rewrite Hrun.
  - destruct Hvalid as (parsed & Hparse & Hnd & Hstates).
    destruct (reduce_loop_pairs (as_list vals) parsed f Hwf Hparse Hnd Hstates)
      as (g' & Hloop & _ & Hpairs).
    assert (g' = g) as ->.
    { unfold reduce in Hin. rewrite Hloop in Hin. simpl in Hin. congruence. }
    split; [exists parsed; split; [done|by apply pairs_scope_cards]|]. split.
    + destruct (for_each_sim (Method.reduce_step l') reduce_body l'
                  (fun h0 f0 x => reduce_step_sim h0 l' f0 x)
                  (as_list vals) h1 f Hs1 Hv1) as (h2 & Hrun & Hu).
      rewrite Hloop in Hrun, Hu. simpl in Hrun, Hu.
      exists h2, l'. split; [|by apply Hcopy_frame].
      cbv [Method.reduce and_then lift ret].
      rewrite (getattrs_view h self f Hview). cbv beta iota.
      rewrite Hnew. cbv beta iota. by rewrite Hrun.
    + destruct (for_each_sim (Method.reduce_step self) reduce_body self
                  (fun h0 f0 x => reduce_step_sim h0 self f0 x)
                  (as_list vals) h f Hsep Hview) as (h2 & Hrun & Hu).
      rewrite Hloop in Hrun, Hu. simpl in Hrun, Hu.
      exists h2. split; [|exact Hu].
      cbv [Method.reduce and_then lift ret].
      rewrite (getattrs_view h self f Hview). cbv beta iota. by rewrite Hrun.
  - destruct (normalized_values_ok (values f) Hvalid) as (vals' & Hvals & _).
    assert (g = mkFactor (variables f) (cardinality f) vals') as ->.
    { unfold normalize in Hin. rewrite Hvals in Hin. congruence. }
    split; [done|]. split.
    + destruct (set_values_ok h1 l' f vals' Hs1 Hv1) as (h2 & Hset & Hu).
      exists h2, l'. split; [|by apply Hcopy_frame].
      cbv [Method.normalize and_then lift ret].
      rewrite (getattrs_view h self f Hview). cbv beta iota.
      rewrite Hnew. cbv beta iota.
      rewrite (getattrs_view h1 l' f Hv1). cbv beta iota.
      rewrite Hvals. cbv beta iota. by rewrite Hset.
    + destruct (set_values_ok h self f vals' Hsep Hview) as (h2 & Hset & Hu).
      exists h2. split; [|exact Hu].
      cbv [Method.normalize and_then lift ret].
      rewrite (getattrs_view h self f Hview). cbv beta iota.
      rewrite Hvals. cbv beta iota. by rewrite Hset.
Qed.

Lemma separated_empty : separated empty_heap.
Proof. split; intros *; simpl; by rewrite lookup_empty. Qed.

Lemma heap_two_separated : separated heap_two.
Proof. apply separated_new, separated_new, separated_empty. Qed.

Lemma heap_two_view_one : view heap_two loc_one = Some phi_x1x2x3.
Proof.
  unfold heap_two. rewrite view_new_other.
  - apply view_new_self.
  - apply separated_new, separated_empty.
  - intros Heq. pose proof (new_fresh heap_one phi_x3x1) as Hn.
    fold loc_two in Hn. change (snd (new heap_one phi_x3x1)) with loc_two in Heq.
    rewrite <- Heq in Hn. pose proof (view_new_self empty_heap phi_x1x2x3) as Hv.
    unfold view in Hv. fold heap_one loc_one in Hv. by rewrite Hn in Hv.
Qed.

Lemma marginalize_x1_x3_valid :
  valid_call phi_x1x2x3 (Marginalize (StrList ["x1"; "x3"]%string)).
Proof.
  split.
  - by_evaluation.
  - apply Forall_forall. by_evaluation.
Qed.

Lemma C8_witness :
  separated heap_two /\ view heap_two loc_one = Some phi_x1x2x3 /\
  wf_Factor phi_x1x2x3 /\
  valid_call phi_x1x2x3 (Marginalize (StrList ["x1"; "x3"]%string)) /\
  exists g, wf_Factor g /\
    run (Marginalize (StrList ["x1"; "x3"]%string)) true phi_x1x2x3 = (g, Return None) /\
    outcome (Marginalize (StrList ["x1"; "x3"]%string)) phi_x1x2x3 g /\
    (exists h' l',
        call (Marginalize (StrList ["x1"; "x3"]%string)) false loc_one heap_two
        = Some (h', Return (Some l')) /\
        objects heap_two !! l' = None /\ view h' l' = Some g /\
        view h' loc_one = Some phi_x1x2x3 /\
        (forall l, l <> l' -> view h' l = view heap_two l) /\
        separated h') /\
    (exists h',
        call (Marginalize (StrList ["x1"; "x3"]%string)) true loc_one heap_two
        = Some (h', Return None) /\
        view h' loc_one = Some g /\
        (forall l, l <> loc_one -> view h' l = view heap_two l) /\
        dom (objects h') = dom (objects heap_two) /\
        separated h').
Proof.
  split; [exact heap_two_separated|]. split; [exact heap_two_view_one|].
  split; [exact phi_x1x2x3_wf|]. split; [exact marginalize_x1_x3_valid|].
  exact (C8_copy_and_in_place_modes heap_two loc_one phi_x1x2x3
           (Marginalize (StrList ["x1"; "x3"]%string))
           heap_two_separated heap_two_view_one phi_x1x2x3_wf marginalize_x1_x3_valid).
Defined.

(** ** Lists of variables: splitting and repetition *)

Lemma for_each_app {A} (body : Factor -> A -> Factor * result unit)
      (f : Factor) (l1 l2 : list A) :
  for_each body f (l1 ++ l2)
  = match for_each body f l1 with
    | (f1, Return _) => for_each body f1 l2
    | (f1, Raise e) => (f1, Raise e)
    end.
Proof.
  revert f. induction l1 as [|x l1 IH]; intros f; simpl; [done|].
  destruct (body f x) as [f1 [[]|e]]; [apply IH|done].
Qed.

(** X9.  Marginalizing a list in place is marginalizing its parts in
    turn: for distinct variables of the scope, [marginalize(l1 + l2)] leaves
    the receiver as [marginalize(l1)] followed by [marginalize(l2)] does. *)
Theorem marginalize_in_parts (f : Factor) (l1 l2 : list string) :
  wf_Factor f -> NoDup (l1 ++ l2) -> (forall v, v ∈ l1 ++ l2 -> v ∈ scope f) ->
  exists f1 f2,
    marginalize f (StrList l1) true = (f1, Return None) /\
    marginalize f1 (StrList l2) true = (f2, Return None) /\
    marginalize f (StrList (l1 ++ l2)) true = (f2, Return None).
Proof.
  intros Hwf Hnd Hin.
  apply NoDup_app in Hnd as (Hnd1 & Hdisj & Hnd2).
  assert (forall v, v ∈ l1 -> v ∈ scope f) as Hin1
    by (intros v Hv; apply Hin, elem_of_app; by left).
  destruct (marginalize_loop_pairs l1 f Hwf Hnd1 Hin1) as (f1 & Hloop1 & Hwf1 & Hp1).
  destruct (pairs_scope_cards f f1 l1 Hwf Hwf1 Hp1) as [Hs1 _].
  assert (forall v, v ∈ l2 -> v ∈ scope f1) as Hin2.
  { intros v Hv. rewrite Hs1. apply list_elem_of_filter. split.
    - intros Hv1. by apply (Hdisj v).
    - apply Hin, elem_of_app. by right. }
  destruct (marginalize_loop_ok l2 f1 Hwf1 Hnd2 Hin2) as (f2 & Hloop2 & _).
  exists f1, f2. unfold marginalize. simpl.
  rewrite !marginalize_validation_passes by done.
  rewrite for_each_app, Hloop1, Hloop2. done.
Qed.

Lemma marginalize_in_parts_witness :
  wf_Factor phi_x1x2x3 /\ NoDup (["x3"]%string ++ ["x1"]%string) /\
  (forall v, v ∈ ["x3"]%string ++ ["x1"]%string -> v ∈ scope phi_x1x2x3) /\
  exists f1 f2,
    marginalize phi_x1x2x3 (StrList ["x3"]%string) true = (f1, Return None) /\
    marginalize f1 (StrList ["x1"]%string) true = (f2, Return None) /\
    marginalize phi_x1x2x3 (StrList (["x3"]%string ++ ["x1"]%string)) true
    = (f2, Return None).
Proof.
  assert (NoDup (["x3"]%string ++ ["x1"]%string)) as Hnd by by_evaluation.
  assert (forall v, v ∈ ["x3"]%string ++ ["x1"]%string -> v ∈ scope phi_x1x2x3) as Hin
    by (apply Forall_forall; by_evaluation).
  split; [exact phi_x1x2x3_wf|]. split; [exact Hnd|]. split; [exact Hin|].
  exact (marginalize_in_parts phi_x1x2x3 ["x3"]%string ["x1"]%string
           phi_x1x2x3_wf Hnd Hin).
Defined.

(** X10.  A variable listed twice passes the validation of [marginalize]
    but fails in the second round of the elimination loop, where
    [list.index] raises [ValueError]: in in-place mode the receiver is left
    with the variable already eliminated; in copy mode the receiver is
    untouched. *)
Theorem marginalize_repeated_variable (f : Factor) (v : string) :
  wf_Factor f -> v ∈ scope f ->
  exists f1,
    marginalize f (Str v) true = (f1, Return None) /\
    (v ∉ scope f1) /\
    marginalize f (StrList [v; v]) true = (f1, Raise ValueError_NotInList) /\
    marginalize f (StrList [v; v]) false = (f, Raise ValueError_NotInList).
Proof.
  intros Hwf Hv.
  destruct (list_elem_of_lookup_1 (scope f) v Hv) as [k Hk].
  destruct (marginalize_body_ok f k v Hwf Hk) as (f1 & Hbody & Hwf1 & Hs1 & _).
  assert (v ∉ scope f1) as Hout.
  { rewrite Hs1. intros Hin. apply list_elem_of_lookup_1 in Hin as [j Hj].
    destruct (decide (j < k)%nat).
    - rewrite list_lookup_delete_lt in Hj by done.
      pose proof (NoDup_lookup _ _ _ _ (wf_nodup _ Hwf) Hj Hk). lia.
    - rewrite list_lookup_delete_ge in Hj by lia.
      pose proof (NoDup_lookup _ _ _ _ (wf_nodup _ Hwf) Hj Hk). lia. }
  assert (marginalize_body f1 v = (f1, Raise ValueError_NotInList)) as Hsecond.
  { unfold marginalize_body, _marginalize_single_variable, Py.index.
    assert (list_find (fun y => y = v) (scope f1) = None) as ->; [|done].
    apply list_find_None, Forall_forall. by intros x Hx ->. }
  exists f1. unfold marginalize. simpl.
  assert (Py.mem v (scope f) = true) as Hmem by (by apply bool_decide_eq_true_2).
  rewrite !decide_False by (rewrite Hmem; discriminate). simpl.
  rewrite (Factor_init_copy f Hwf), Hbody, Hsecond. done.
Qed.

Lemma marginalize_repeated_variable_witness :
  wf_Factor phi_x1x2x3 /\ "x2"%string ∈ scope phi_x1x2x3 /\
  exists f1,
    marginalize phi_x1x2x3 (Str "x2") true = (f1, Return None) /\
    ("x2"%string ∉ scope f1) /\
    marginalize phi_x1x2x3 (StrList ["x2"; "x2"]%string) true
    = (f1, Raise ValueError_NotInList) /\
    marginalize phi_x1x2x3 (StrList ["x2"; "x2"]%string) false
    = (phi_x1x2x3, Raise ValueError_NotInList).
Proof.
  assert ("x2"%string ∈ scope phi_x1x2x3) as Hin by by_evaluation.
  split; [exact phi_x1x2x3_wf|]. split; [exact Hin|].
  exact (marginalize_repeated_variable phi_x1x2x3 "x2"%string phi_x1x2x3_wf Hin).
Defined.

(** ** Cells of a reduced and of a marginalized factor *)

Lemma flat_index_app (c1 c2 d1 d2 : list Z) :
  length d1 = length c1 ->
  flat_index (c1 ++ c2) (d1 ++ d2) = flat_index c1 d1 * Np.prod c2 + flat_index c2 d2.
Proof.
  revert d1. induction c1 as [|c c1 IH]; intros [|d d1] Hlen; simpl in *; try lia.
  - rewrite flat_index_nil. lia.
  - rewrite !flat_index_cons, IH, prod_app by lia. ring.
Qed.

Lemma getitem_Return_lookup {A} (l : list A) (i : Z) (a : A) :
  0 <= i -> Py.getitem l i = Return a -> l !! Z.to_nat i = Some a.
Proof.
  intros Hi. unfold Py.getitem.
  assert ((i <? 0) = false) as -> by lia.
  destruct ((0 <=? i) && (i <? Z.of_nat (length l))); [|done].
  destruct (l !! Z.to_nat i); [|done]. by intros [= ->].
Qed.

Lemma block_index_lookup (outer c inner o r : Z) :
  0 < c -> 0 <= o < outer -> 0 <= r < inner ->
  block_index (outer * (c * inner)) (c * inner) inner !! Z.to_nat (o * inner + r)
  = Some (o * (c * inner) + r).
Proof.
  intros Hc Ho Hr. unfold block_index. rewrite range3_blocks by nia.
  replace (Z.to_nat (o * inner + r))
    with (Z.to_nat o * Z.to_nat inner + Z.to_nat r)%nat by nia.
  rewrite (lookup_bind_uniform _ _ _ _ _ (o * (c * inner))).
  - unfold Py.range2. apply lookup_seqZ. lia.
  - intros i _. unfold Py.range2. rewrite length_seqZ. f_equal. lia.
  - rewrite list_lookup_fmap.
    assert (seqZ 0 outer !! Z.to_nat o = Some o) as -> by (apply lookup_seqZ; lia).
    done.
  - lia.
Qed.

(** The position of an assignment of the remaining variables, extended with
    state [s] of the removed variable, within the two buffers. *)
Lemma axis_positions (card idx' : list Z) (k : nat) (c s : Z) :
  card !! k = Some c -> in_range idx' (base.delete k card) -> 0 <= s < c ->
  let outer := Np.prod (take k card) in
  let inner := Np.prod (drop (S k) card) in
  exists o r,
    0 <= o < outer /\ 0 <= r < inner /\
    flat_index (base.delete k card) idx' = o * inner + r /\
    flat_index card (take k idx' ++ s :: drop k idx') = o * (c * inner) + (s * inner + r) /\
    in_range (take k idx' ++ s :: drop k idx') card.
Proof.
  intros Hk Hr Hs outer inner.
  pose proof (lookup_lt_Some _ _ _ Hk) as Hlt.
  rewrite delete_take_drop in Hr.
  pose proof (Forall2_length _ _ _ Hr) as Hlen.
  rewrite length_app, length_take, length_drop in Hlen.
  assert (in_range (take k idx') (take k card)) as Ha.
  { pose proof (Forall2_take _ _ _ k Hr) as H.
    rewrite take_app_le, take_take in H by (rewrite length_take; lia).
    by replace (k `min` k)%nat with k in H by lia. }
  assert (in_range (drop k idx') (drop (S k) card)) as Hb.
  { pose proof (Forall2_drop _ _ _ k Hr) as H.
    rewrite drop_app_length' in H by (rewrite length_take; lia). done. }
  exists (flat_index (take k card) (take k idx')),
         (flat_index (drop (S k) card) (drop k idx')).
  split; [by apply flat_index_bound|]. split; [by apply flat_index_bound|].
  assert (length (take k idx') = length (take k card)) as Hla by (by eapply Forall2_length).
  split; [|split].
  - rewrite delete_take_drop. rewrite <- (take_drop k idx') at 1.
    by rewrite flat_index_app.
  - rewrite <- (take_drop_middle card k c Hk) at 1.
    rewrite flat_index_app by done. rewrite flat_index_cons.
    rewrite <- (drop_S _ _ _ Hk) at 1. rewrite (drop_S _ _ _ Hk).
    change (Np.prod (c :: drop (S k) card)) with (c * Np.prod (drop (S k) card)).
    fold inner. ring.
  - rewrite <- (take_drop_middle card k c Hk).
    apply Forall2_app; [done|]. by constructor.
Qed.

Lemma reduce_body_values (f : Factor) (tok v : string) (s : Z) (k : nat) (c : Z) :
  wf_Factor f -> parses_as tok v s ->
  scope f !! k = Some v -> cardinality f !! k = Some c -> 0 <= s < c ->
  exists f', reduce_body f tok = (f', Return tt) /\ wf_Factor f' /\
             scope f' = base.delete k (scope f) /\
             cardinality f' = base.delete k (cardinality f) /\
             Np.take (values f)
                     ((fun j => j + s * Np.prod (drop (S k) (cardinality f)))
                        <$> block_index (Np.prod (cardinality f))
                                        (Np.prod (drop k (cardinality f)))
                                        (Np.prod (drop (S k) (cardinality f))))
             = Return (values f').
Proof.
  intros Hwf (Hcontains & idx & Hsplit & Hint) Hk Hc Hs.
  unfold reduce_body, reduce_slice. rewrite Hcontains, Hsplit. simpl negb. cbv iota.
  assert (Py.mem v (scope f) = true) as ->
    by (apply bool_decide_eq_true; by eapply list_elem_of_lookup_2).
  simpl negb. cbv iota.
  rewrite (index_lookup_NoDup _ k) by (apply Hwf || done). cbn [bind].
  rewrite Hint. cbn [bind].
  destruct (axis_getitems f k v Hwf Hk) as (c' & Hc' & _ & G1 & G2 & G3 & G4).
  assert (c' = c) as -> by congruence.
  rewrite G1. cbn [bind].
  assert ((s <? c) = true) as -> by lia. simpl negb. cbv iota.
  rewrite G2. cbn [bind]. rewrite G3. cbn [bind]. rewrite G4. cbn [bind].
  destruct (axis_block (cardinality f) (values f) k c s) as (vals & Hvals & Hlen);
    [apply Hwf|done|apply Hwf|done|].
  rewrite Hvals. cbn [bind]. eexists. split; [done|].
  destruct (axis_removed_wf f k v vals Hwf Hk Hlen) as (H1 & H2 & H3).
  done.
Qed.

(** The cell of a block taken at offset [s]. *)
Lemma axis_block_lookup (f : Factor) (vals : list Np.double) (idx' : list Z)
      (k : nat) (c s : Z) :
  wf_Factor f -> cardinality f !! k = Some c -> 0 <= s < c ->
  in_range idx' (base.delete k (cardinality f)) ->
  Np.take (values f)
          ((fun j => j + s * Np.prod (drop (S k) (cardinality f)))
             <$> block_index (Np.prod (cardinality f))
                             (Np.prod (drop k (cardinality f)))
                             (Np.prod (drop (S k) (cardinality f))))
  = Return vals ->
  exists y,
    vals !! Z.to_nat (flat_index (base.delete k (cardinality f)) idx') = Some y /\
    values f !! Z.to_nat (flat_index (cardinality f) (take k idx' ++ s :: drop k idx'))
    = Some y /\
    in_range (take k idx' ++ s :: drop k idx') (cardinality f).
Proof.
  intros Hwf Hc Hs Hr Htake.
  destruct (axis_positions _ _ _ _ _ Hc Hr Hs) as (o & r & Ho & Hr' & Hflat' & Hflat & Hin).
  destruct (prod_split _ _ _ Hc) as (Hstep & Hnum & _).
  assert (0 < c) by lia.
  unfold Np.take in Htake.
  destruct (collect_lookup _ _ _ (Z.to_nat (o * Np.prod (drop (S k) (cardinality f)) + r))
              (o * (c * Np.prod (drop (S k) (cardinality f))) + r
               + s * Np.prod (drop (S k) (cardinality f))) Htake)
    as (y & Hy & Hget).
  { rewrite list_lookup_fmap, Hstep, Hnum, block_index_lookup by done. done. }
  exists y. rewrite Hflat', Hflat. split; [done|]. split; [|done].
  assert (0 <= o * (c * Np.prod (drop (S k) (cardinality f))))
    by (apply Z.mul_nonneg_nonneg; [lia|apply Z.mul_nonneg_nonneg; lia]).
  assert (0 <= s * Np.prod (drop (S k) (cardinality f)))
    by (apply Z.mul_nonneg_nonneg; lia).
  apply getitem_Return_lookup in Hget; [|lia].
  rewrite <- Hget. f_equal. lia.
Qed.

(** X11.  [reduce] selects: for a token that names a variable of the scope
    (at position k) and one of its states s, the reduced factor's value at
    every assignment of the remaining variables is the original factor's
    value at that assignment with state s inserted at position k. *)
Theorem reduce_cells (f : Factor) (tok v : string) (s : Z) (k : nat) (c : Z) :
  wf_Factor f -> parses_as tok v s ->
  scope f !! k = Some v -> cardinality f !! k = Some c -> 0 <= s < c ->
  exists g,
    reduce f (Str tok) true = (g, Return None) /\ wf_Factor g /\
    scope g = base.delete k (scope f) /\
    cardinality g = base.delete k (cardinality f) /\
    forall idx', in_range idx' (cardinality g) ->
      exists y,
        value_at g (scope g) idx' = Return y /\
        value_at f (scope f) (take k idx' ++ s :: drop k idx') = Return y.
Proof.
  intros Hwf Hparse Hk Hc Hs.
  destruct (reduce_body_values f tok v s k c Hwf Hparse Hk Hc Hs)
    as (g & Hbody & Hwg & Hsg & Hcg & Htake).
  exists g. split; [unfold reduce; simpl; by rewrite Hbody|].
  do 3 (split; [done|]).
  intros idx' Hr. rewrite Hcg in Hr.
  destruct (axis_block_lookup f (values g) idx' k c s Hwf Hc Hs Hr Htake)
    as (y & Hg & Hf & Hin).
  exists y. split.
  - apply value_at_self; [done|by rewrite Hcg|by rewrite Hcg].
  - by apply value_at_self.
Qed.

Lemma reduce_cells_witness :
  wf_Factor phi_x1x2x3 /\ parses_as "x2_1" "x2" 1 /\
  scope phi_x1x2x3 !! 1%nat = Some "x2"%string /\
  cardinality phi_x1x2x3 !! 1%nat = Some 3 /\ 0 <= 1 < 3 /\
  exists g,
    reduce phi_x1x2x3 (Str "x2_1") true = (g, Return None) /\ wf_Factor g /\
    scope g = base.delete 1%nat (scope phi_x1x2x3) /\
    cardinality g = base.delete 1%nat (cardinality phi_x1x2x3) /\
    forall idx', in_range idx' (cardinality g) ->
      exists y,
        value_at g (scope g) idx' = Return y /\
        value_at phi_x1x2x3 (scope phi_x1x2x3) (take 1%nat idx' ++ 1 :: drop 1%nat idx')
        = Return y.
Proof.
  assert (parses_as "x2_1" "x2" 1) as Hp by (split; [done|by exists "1"%string]).
  assert (0 <= 1 < 3) as Hs by lia.
  split; [exact phi_x1x2x3_wf|]. split; [exact Hp|]. split; [reflexivity|].
  split; [reflexivity|]. split; [exact Hs|].
  exact (reduce_cells phi_x1x2x3 "x2_1" "x2" 1 1%nat 3 phi_x1x2x3_wf Hp eq_refl eq_refl Hs).
Defined.

Lemma iadd_fold_lookup (blk_of : Z -> result (list Np.double)) (states : list Z)
      (cells : list Np.double) (j : nat) :
  forall (acc r : list Np.double) (a0 : Np.double),
  Forall2 (fun s x => exists blk, blk_of s = Return blk /\
                                  length blk = length acc /\ blk !! j = Some x)
          states cells ->
  acc !! j = Some a0 ->
  fold_left (fun a i => let! marg := a in let! block := blk_of i in Np.iadd marg block)
            states (Return acc) = Return r ->
  r !! j = Some (fold_left Np.add cells a0).
Proof.
  revert cells. induction states as [|s states IH]; intros cells acc r a0 Hcells Ha Hfold.
  - inversion Hcells; subst. simpl in *. by injection Hfold as <-.
  - inversion Hcells as [|s' x states' cells' (blk & Hblk & Hlen & Hx) Hrest]; subst.
    simpl in Hfold. rewrite Hblk in Hfold. cbn [bind] in Hfold.
    unfold Np.iadd at 2 in Hfold. rewrite <- Hlen, Nat.eqb_refl in Hfold.
    simpl. eapply IH; [|  |exact Hfold].
    + eapply Forall2_impl; [exact Hrest|]. intros s1 x1 (b1 & Hb1 & Hl1 & Hx1).
      exists b1. split; [done|]. split; [|done]. rewrite length_zip_with. lia.
    + rewrite lookup_zip_with, Ha, Hx. done.
Qed.

Lemma Forall2_choice {A B} (P : A -> B -> Prop) (l : list A) :
  (forall a, a ∈ l -> exists b, P a b) -> exists k, Forall2 P l k.
Proof.
  induction l as [|a l IH]; intros H; [by exists []|].
  destruct (H a) as [b Hb]; [left|].
  destruct IH as [k Hk]; [intros; apply H; by right|].
  exists (b :: k). by constructor.
Qed.

Lemma zeros_lookup (n : Z) (j : nat) :
  (j < Z.to_nat n)%nat -> Np.zeros n !! j = Some (S754_zero false).
Proof.
  unfold Np.zeros. generalize (Z.to_nat n). intros m. revert j.
  induction m as [|m IH]; intros [|j] Hj; simpl; try lia; [done|]. apply IH. lia.
Qed.

Lemma marginalize_single_inplace (f : Factor) (v : string) :
  v ∈ scope f ->
  marginalize f (Str v) true = finish_inplace (for_each marginalize_body f [v]).
Proof.
  intros Hv. unfold marginalize. simpl.
  assert (Py.mem v (scope f) = true) as Hmem by (by apply bool_decide_eq_true_2).
  by rewrite decide_False by (rewrite Hmem; discriminate).
Qed.

(** The cells of the buffer after one elimination step. *)
Lemma marginalize_body_cells (f : Factor) (v : string) (k : nat) (c : Z) :
  wf_Factor f -> scope f !! k = Some v -> cardinality f !! k = Some c ->
  exists g,
    marginalize_body f v = (g, Return tt) /\ wf_Factor g /\
    scope g = base.delete k (scope f) /\
    cardinality g = base.delete k (cardinality f) /\
    forall idx', in_range idx' (base.delete k (cardinality f)) ->
      exists cells,
        Forall2 (fun s x =>
                   values f !! Z.to_nat (flat_index (cardinality f)
                                                    (take k idx' ++ s :: drop k idx'))
                   = Some x /\
                   in_range (take k idx' ++ s :: drop k idx') (cardinality f))
                (Py.range c) cells /\
        values g !! Z.to_nat (flat_index (base.delete k (cardinality f)) idx')
        = Some (fold_left Np.add cells (S754_zero false)).
Proof.
  intros Hwf Hk Hc.
  destruct (marginalize_single_ok f k v Hwf Hk) as (vals & Hsingle & Hlen).
  destruct (axis_removed_wf f k v vals Hwf Hk Hlen) as (Hwg & Hsg & Hcg).
  set (g := mkFactor (odict_del v (variables f))
                     (Np.delete (cardinality f) (Z.of_nat k)) vals) in *.
  exists g. split.
  { unfold marginalize_body. rewrite Hsingle.
    change (scope (mkFactor (variables f) (cardinality f) vals)) with (scope f).
    by rewrite (index_lookup_NoDup _ k) by (apply Hwf || done). }
  do 3 (split; [done|]).
  intros idx' Hr.
  unfold _marginalize_single_variable in Hsingle.
  rewrite (index_lookup_NoDup _ k) in Hsingle by (apply Hwf || done).
  cbn [bind] in Hsingle.
  destruct (axis_getitems f k v Hwf Hk) as (c' & Hc' & Hcpos & G1 & G2 & G3 & G4).
  assert (c' = c) as -> by congruence.
  rewrite G2 in Hsingle. cbn [bind] in Hsingle. rewrite G3 in Hsingle.
  cbn [bind] in Hsingle. rewrite G4 in Hsingle. cbn [bind] in Hsingle.
  rewrite G1 in Hsingle. cbn [bind] in Hsingle.
  destruct (prod_split _ _ _ Hc) as (Hstep & Hnum & Hdel).
  assert (length (Np.zeros (Np.prod (cardinality f) / c))
          = Z.to_nat (Np.prod (base.delete k (cardinality f)))) as Hzeros.
  { unfold Np.zeros. rewrite repeat_length, Hnum, Hdel. f_equal.
    rewrite Z.mul_assoc, (Z.mul_comm _ c), <- Z.mul_assoc, Z.mul_comm.
    rewrite Z.div_mul by lia. ring. }
  pose proof (flat_index_bound _ _ Hr) as Hb.
  set (j := Z.to_nat (flat_index (base.delete k (cardinality f)) idx')) in *.
  set (blk_of := fun i : Z =>
         Np.take (values f)
                 ((fun j => j + i * Np.prod (drop (S k) (cardinality f)))
                    <$> block_index (Np.prod (cardinality f))
                                    (Np.prod (drop k (cardinality f)))
                                    (Np.prod (drop (S k) (cardinality f))))) in *.
  destruct (Forall2_choice
              (fun s x =>
                 (exists blk, blk_of s = Return blk /\
                              length blk = length (Np.zeros (Np.prod (cardinality f) / c)) /\
                              blk !! j = Some x) /\
                 values f !! Z.to_nat (flat_index (cardinality f)
                                                  (take k idx' ++ s :: drop k idx'))
                 = Some x /\
                 in_range (take k idx' ++ s :: drop k idx') (cardinality f))
              (Py.range c)) as [cells Hcells].
  { intros s Hs. unfold Py.range in Hs. apply elem_of_seqZ in Hs.
    destruct (axis_block (cardinality f) (values f) k c s) as (blk & Hblk & Hlb);
      [apply Hwf|done|apply Hwf|lia|].
    destruct (axis_block_lookup f blk idx' k c s Hwf Hc) as (y & Hy & Hf & Hin);
      [lia|done|done|].
    exists y. split; [|done].
    exists blk. split; [done|]. split; [by rewrite Hzeros|done]. }
  exists cells. split.
  { eapply Forall2_impl; [exact Hcells|]. by intros s x [_ ?]. }
  eapply (iadd_fold_lookup blk_of (Py.range c) cells j); [| |exact Hsingle].
  - eapply Forall2_impl; [exact Hcells|]. by intros s x [? _].
  - apply zeros_lookup. unfold Np.zeros in Hzeros.
    rewrite repeat_length in Hzeros. rewrite Hzeros. subst j. lia.
Qed.

(** X12.  [marginalize] sums: for a variable of the scope (at position k,
    with c states), the marginal's value at every assignment of the
    remaining variables is the sum, accumulated in double precision from 0.0
    in the order of the states 0 .. c-1, of the original factor's values at
    that assignment with each state inserted at position k. *)
Theorem marginalize_cells (f : Factor) (v : string) (k : nat) (c : Z) :
  wf_Factor f -> scope f !! k = Some v -> cardinality f !! k = Some c ->
  exists g,
    marginalize f (Str v) true = (g, Return None) /\ wf_Factor g /\
    scope g = base.delete k (scope f) /\
    cardinality g = base.delete k (cardinality f) /\
    forall idx', in_range idx' (cardinality g) ->
      exists cells,
        Forall2 (fun s x =>
                   value_at f (scope f) (take k idx' ++ s :: drop k idx') = Return x)
                (Py.range c) cells /\
        value_at g (scope g) idx' = Return (fold_left Np.add cells (S754_zero false)).
Proof.
  intros Hwf Hk Hc.
  destruct (marginalize_body_cells f v k c Hwf Hk Hc)
    as (g & Hbody & Hwg & Hsg & Hcg & Hcell).
  exists g. split.
  { rewrite marginalize_single_inplace by (by eapply list_elem_of_lookup_2).
    simpl. by rewrite Hbody. }
  do 3 (split; [done|]).
  intros idx' Hr. rewrite Hcg in Hr.
  destruct (Hcell idx' Hr) as (cells & Hcells & Hv).
  exists cells. split.
  - eapply Forall2_impl; [exact Hcells|]. intros s x [Hx Hin]. by apply value_at_self.
  - apply value_at_self; [done|by rewrite Hcg|by rewrite Hcg].
Qed.

Lemma marginalize_cells_witness :
  wf_Factor phi_x1x2x3 /\ scope phi_x1x2x3 !! 1%nat = Some "x2"%string /\
  cardinality phi_x1x2x3 !! 1%nat = Some 3 /\
  exists g,
    marginalize phi_x1x2x3 (Str "x2") true = (g, Return None) /\ wf_Factor g /\
    scope g = base.delete 1%nat (scope phi_x1x2x3) /\
    cardinality g = base.delete 1%nat (cardinality phi_x1x2x3) /\
    forall idx', in_range idx' (cardinality g) ->
      exists cells,
        Forall2 (fun s x =>
                   value_at phi_x1x2x3 (scope phi_x1x2x3)
                            (take 1%nat idx' ++ s :: drop 1%nat idx') = Return x)
                (Py.range 3) cells /\
        value_at g (scope g) idx' = Return (fold_left Np.add cells (S754_zero false)).
Proof.
  split; [exact phi_x1x2x3_wf|]. split; [reflexivity|]. split; [reflexivity|].
  exact (marginalize_cells phi_x1x2x3 "x2" 1%nat 3 phi_x1x2x3_wf eq_refl eq_refl).
Defined.

(** ** Normalization of a factor whose total is zero *)

Lemma collect_Raise {A B} (g : A -> result B) (l : list A) (e : exn) :
  (exists x, x ∈ l /\ g x = Raise e) ->
  (forall x, x ∈ l -> g x = Raise e \/ exists y, g x = Return y) ->
  collect g l = Raise e.
Proof.
  induction l as [|a l IH]; intros (x & Hx & Hgx) Hall.
  - by apply elem_of_nil in Hx.
  - simpl. destruct (Hall a) as [->|[y Hy]]; [left|done|].
    rewrite Hy. simpl. rewrite IH; [done| |].
    + apply elem_of_cons in Hx as [->|Hx]; [congruence|by exists x].
    + intros z Hz. apply Hall. by right.
Qed.

(** X13.  [normalize] has no guard for a zero total, and the error state
    of the module turns it into an exception: when the total that [np.sum]
    computes (in its pairwise order) is zero and some value is finite and
    non-zero, [normalize] raises [FloatingPointError] in both modes and the
    receiver keeps its values. *)
Theorem normalize_zero_total_raises (f : Factor) (inplace : bool) :
  wf_Factor f -> Np.is_zero (Np.sum_double (values f)) = true ->
  (exists x s m e, x ∈ values f /\ x = S754_finite s m e) ->
  normalize f inplace = (f, Raise FloatingPointError).
Proof.
  intros Hwf Hzero (x & s & m & e & Hx & ->).
  assert (normalized_values (values f) = Raise FloatingPointError) as Hraise.
  { unfold normalized_values, Np.true_divide_scalar. apply collect_Raise.
    - exists (S754_finite s m e). split; [done|]. unfold Np.true_divide.
      by destruct (Np.sum_double (values f)).
    - intros y _. unfold Np.true_divide.
      destruct (Np.signals_divide y (Np.sum_double (values f))); [by left|right].
      by eexists. }
  unfold normalize. rewrite (Factor_init_copy f Hwf), Hraise. by destruct inplace.
Qed.

Lemma normalize_zero_total_raises_witness :
  wf_Factor phi_cancel /\
  Np.is_zero (Np.sum_double (values phi_cancel)) = true /\
  fold_left Np.add (values phi_cancel) (S754_zero false) = Np.of_int (-1) /\
  (exists x s m e, x ∈ values phi_cancel /\ x = S754_finite s m e) /\
  normalize phi_cancel true = (phi_cancel, Raise FloatingPointError).
Proof.
  assert (wf_Factor phi_cancel) as Hwf by wf_by_evaluation.
  assert (exists x s m e, x ∈ values phi_cancel /\ x = S754_finite s m e) as Hx.
  { exists (Np.of_int 1), false, 4503599627370496%positive, (-52). split; [left|reflexivity]. }
  split; [exact Hwf|]. split; [reflexivity|]. split; [reflexivity|]. split; [exact Hx|].
  exact (normalize_zero_total_raises phi_cancel true Hwf eq_refl Hx).
Defined.

Lemma add_zeros (x y : Np.double) :
  Np.is_zero x = true -> Np.is_zero y = true -> Np.is_zero (Np.add x y) = true.
Proof. destruct x as [sx| | |], y as [sy| | |]; try done. by destruct sx, sy. Qed.

Lemma fold_add_zeros (vals : list Np.double) (z : Np.double) :
  Np.is_zero z = true -> Forall (fun x => Np.is_zero x = true) vals ->
  Np.is_zero (fold_left Np.add vals z) = true.
Proof.
  revert z. induction vals as [|x vals IH]; intros z Hz Hall; simpl; [done|].
  apply Forall_cons in Hall as [Hx Hall]. apply IH; [|done]. by apply add_zeros.
Qed.

Lemma accumulate8_zeros (k : nat) (r a : list Np.double) :
  Forall (fun x => Np.is_zero x = true) r -> Forall (fun x => Np.is_zero x = true) a ->
  Forall (fun x => Np.is_zero x = true) (fst (Np.accumulate8 k r a)) /\
  Forall (fun x => Np.is_zero x = true) (snd (Np.accumulate8 k r a)).
Proof.
  revert r a. induction k as [|k IH]; intros r a Hr Ha; [done|].
  cbn [Np.accumulate8]. apply IH; [|by apply Forall_drop].
  apply Forall_forall. intros x Hx.
  apply elem_of_zip_with in Hx as (y & z & -> & Hy & Hz).
  apply add_zeros; [by eapply Forall_forall in Hr|].
  apply elem_of_take in Hz as (i & Hz & _). apply list_elem_of_lookup_2 in Hz.
  by eapply Forall_forall in Ha.
Qed.

Lemma block_sum_zeros (a : list Np.double) :
  Forall (fun x => Np.is_zero x = true) a -> Np.is_zero (Np.block_sum a) = true.
Proof.
  intros Ha. unfold Np.block_sum.
  destruct (accumulate8_zeros (length a / 8 - 1) (take 8 a) (drop 8 a)) as [Hr Hrest];
    [by apply Forall_take|by apply Forall_drop|].
  destruct (Np.accumulate8 (length a / 8 - 1) (take 8 a) (drop 8 a)) as [r rest].
  simpl in Hr, Hrest.
  assert (forall z, Np.is_zero z = true -> Np.is_zero (fold_left Np.add a z) = true)
    as Hdefault by (intros z Hz; by apply fold_add_zeros).
  destruct r as [|r0 [|r1 [|r2 [|r3 [|r4 [|r5 [|r6 [|r7 [|r8 r]]]]]]]]];
    try (by apply Hdefault).
  apply fold_add_zeros; [|done].
  repeat match goal with
         | H : Forall _ (_ :: _) |- _ => apply Forall_cons in H as [? H]
         end.
  repeat apply add_zeros; done.
Qed.

Lemma pairwise_sum_fuel_zeros (fuel : nat) (a : list Np.double) :
  Forall (fun x => Np.is_zero x = true) a ->
  Np.is_zero (Np.pairwise_sum_fuel fuel a) = true.
Proof.
  revert a. induction fuel as [|fuel IH]; intros a Ha; cbn [Np.pairwise_sum_fuel];
    repeat case_match; try (by apply fold_add_zeros); try (by apply block_sum_zeros).
  apply add_zeros; apply IH; [by apply Forall_take|by apply Forall_drop].
Qed.

Lemma sum_double_zeros (vals : list Np.double) :
  Forall (fun x => Np.is_zero x = true) vals ->
  Np.is_zero (Np.sum_double vals) = true.
Proof.
  intros Hall. unfold Np.sum_double, Np.pairwise_sum.
  apply add_zeros; [done|]. by apply pairwise_sum_fuel_zeros.
Qed.

Lemma cut_point_bounds (n : nat) :
  (128 < n)%nat -> (0 < n / 2 - (n / 2) mod 8 < n)%nat.
Proof.
  intros Hn. pose proof (Nat.div_mod_eq n 2) as Hd.
  pose proof (Nat.mod_upper_bound n 2 ltac:(lia)) as Hr.
  pose proof (Nat.mod_upper_bound (n / 2) 8 ltac:(lia)) as Hm.
  revert Hd Hr Hm. generalize (n mod 2)%nat ((n / 2) mod 8)%nat (n / 2)%nat. lia.
Qed.

(** The depth bound of the cuts never cuts the summation short: an array of
    more than 128 elements is the sum of its two parts, each summed the
    same way. *)
Lemma pairwise_sum_fuel_enough (fuel1 fuel2 : nat) (a : list Np.double) :
  (length a <= fuel1)%nat -> (length a <= fuel2)%nat ->
  Np.pairwise_sum_fuel fuel1 a = Np.pairwise_sum_fuel fuel2 a.
Proof.
  revert fuel2 a. induction fuel1 as [|fuel1 IH]; intros fuel2 a H1 H2.
  - destruct a; [|simpl in H1; lia]. by destruct fuel2.
  - destruct fuel2 as [|fuel2].
    + destruct a; [done|simpl in H2; lia].
    + cbn [Np.pairwise_sum_fuel].
      destruct (length a <? 8)%nat eqn:E8; [done|].
      destruct (length a <=? Np.PW_BLOCKSIZE)%nat eqn:E128; [done|].
      apply Nat.leb_gt in E128. unfold Np.PW_BLOCKSIZE in E128.
      set (n2 := (length a / 2 - (length a / 2) mod 8)%nat).
      assert (0 < n2 < length a)%nat as Hn2.
      { subst n2. by apply cut_point_bounds. }
      f_equal; apply IH; rewrite ?length_take, ?length_drop; lia.
Qed.

Lemma pairwise_sum_cut (a : list Np.double) :
  (Np.PW_BLOCKSIZE < length a)%nat ->
  let n2 := (length a / 2 - (length a / 2) mod 8)%nat in
  Np.pairwise_sum a = Np.add (Np.pairwise_sum (take n2 a)) (Np.pairwise_sum (drop n2 a)).
Proof.
  intros Hn n2. unfold Np.pairwise_sum at 1.
  rewrite (pairwise_sum_fuel_enough (length a) (S (length a)) a) by lia.
  cbn [Np.pairwise_sum_fuel].
  assert ((length a <? 8)%nat = false) as ->
    by (apply Nat.ltb_ge; unfold Np.PW_BLOCKSIZE in Hn; lia).
  assert ((length a <=? Np.PW_BLOCKSIZE)%nat = false) as -> by (by apply Nat.leb_gt).
  fold n2. unfold Np.PW_BLOCKSIZE in Hn.
  assert (0 < n2 < length a)%nat as Hn2 by (subst n2; by apply cut_point_bounds).
  unfold Np.pairwise_sum.
  f_equal; apply pairwise_sum_fuel_enough; rewrite ?length_take, ?length_drop; lia.
Qed.

(** X14.  When every value is a zero, no exception is raised: [0.0 / 0.0]
    only signals "invalid", and [normalize] stores NaN in every cell. *)
Theorem normalize_all_zero_gives_nan (f : Factor) :
  Forall (fun x => Np.is_zero x = true) (values f) ->
  normalize f true
  = (mkFactor (variables f) (cardinality f) ((fun _ => S754_nan) <$> values f),
     Return None).
Proof.
  intros Hall. unfold normalize, normalized_values, Np.true_divide_scalar.
  rewrite (collect_Return_fmap _ (fun _ => S754_nan)); [done|].
  intros x Hx. rewrite Forall_forall in Hall. pose proof (Hall x Hx) as Hzx.
  pose proof (sum_double_zeros (values f) (proj2 (Forall_forall _ _) Hall)) as Hsum.
  destruct (Np.sum_double (values f)); try done.
  by destruct x.
Qed.

Lemma normalize_all_zero_gives_nan_witness :
  Forall (fun x => Np.is_zero x = true) (values phi_zero_zero) /\
  normalize phi_zero_zero true
  = (mkFactor (variables phi_zero_zero) [2] [S754_nan; S754_nan], Return None).
Proof.
  assert (Forall (fun x => Np.is_zero x = true) (values phi_zero_zero)) as H
    by (repeat constructor).
  split; [exact H|]. exact (normalize_all_zero_gives_nan phi_zero_zero H).
Defined.

(** ** The identity factor *)

Lemma digits_shift_52 (m : positive) :
  Zpos (digits2_pos (m * 4503599627370496)) = Zpos (digits2_pos m) + 52.
Proof. rewrite Pos.mul_comm. cbv [Pos.mul PosDef.Pos.mul digits2_pos]. lia. Qed.

Lemma shr_52_exact (m : positive) :
  SpecFloat.iter_pos shr_1 52
            {| shr_m := Z.pos (m * 4503599627370496); shr_r := false; shr_s := false |}
  = {| shr_m := Zpos m; shr_r := false; shr_s := false |}.
Proof. rewrite Pos.mul_comm. cbv [Pos.mul PosDef.Pos.mul]. reflexivity. Qed.

(** Multiplication by 1.0 is exact on doubles. *)
Lemma mul_one (x : Np.double) : is_double x -> Np.mul x (Np.of_int 1) = x.
Proof.
  unfold is_double, Np.mul.
  change (Np.of_int 1) with (S754_finite false 4503599627370496 (-52)).
  destruct x as [s|s| |s m e]; simpl valid_binary; intros H;
    [by destruct s|by destruct s|done|].
  unfold bounded, canonical_mantissa in H.
  apply andb_prop in H as [Hc Hb]. apply Z.eqb_eq in Hc.
  unfold SFmul, binary_round_aux.
  assert (shr_fexp Np.prec Np.emax (Z.pos (m * 4503599627370496)) (e + -52) loc_Exact
          = ({| shr_m := Zpos m; shr_r := false; shr_s := false |}, e)) as ->.
  { unfold shr_fexp. cbn [Zdigits2]. rewrite digits_shift_52.
    replace (fexp Np.prec Np.emax (Z.pos (digits2_pos m) + 52 + (e + -52)) - (e + -52))
      with 52.
    2:{ replace (Z.pos (digits2_pos m) + 52 + (e + -52))
          with (Z.pos (digits2_pos m) + e) by lia.
        rewrite Hc. lia. }
    unfold shr, shr_record_of_loc. rewrite shr_52_exact. f_equal. lia. }
  cbn [shr_m loc_of_shr_record round_nearest_even].
  assert (shr_fexp Np.prec Np.emax (Z.pos m) e loc_Exact
          = ({| shr_m := Zpos m; shr_r := false; shr_s := false |}, e)) as ->.
  { unfold shr_fexp. cbn [Zdigits2]. rewrite Hc, Z.sub_diag. reflexivity. }
  cbn [shr_m]. rewrite Hb. by destruct s.
Qed.

Lemma union_scope_covered (f1 f2 : Factor) :
  (forall v, v ∈ scope f2 -> v ∈ scope f1) -> union_scope f1 f2 = scope f1.
Proof.
  intros Hsub. unfold union_scope.
  destruct (filter _ (scope f2)) as [|w ws] eqn:E; [by rewrite app_nil_r|].
  assert (w ∈ filter (fun v => v ∉ filter (fun v => v ∈ scope f2) (scope f1)) (scope f2))
    as Hw by (rewrite E; left).
  apply list_elem_of_filter in Hw as [Hn Hw]. destruct Hn.
  apply list_elem_of_filter. split; [done|by apply Hsub].
Qed.

Lemma bind_singleton_fmap {A B} (g : A -> B) (l : list A) :
  l ≫= (fun a => [g a]) = g <$> l.
Proof. induction l as [|a l IH]; [done|]. rewrite bind_cons, IH. done. Qed.

Lemma np_ones_lookup (n : Z) (j : nat) :
  (j < Z.to_nat n)%nat -> np_ones n !! j = Some (Np.of_int 1).
Proof.
  unfold np_ones. generalize (Z.to_nat n). intros m. revert j.
  induction m as [|m IH]; intros [|j] Hj; simpl; try lia; [done|]. apply IH. lia.
Qed.

Lemma identity_factor_ok (f : Factor) :
  wf_Factor f ->
  exists I, identity_factor f = Return I /\ wf_Factor I /\
            scope I = scope f /\ cardinality I = cardinality f /\
            values I = np_ones (Np.prod (cardinality f)).
Proof.
  intros Hwf. unfold identity_factor.
  destruct (Factor_init_wf (scope f) (cardinality f) (np_ones (Np.prod (cardinality f))))
    as (I & HI & HwfI & Hs & Hc & Hv & _); try apply Hwf.
  - by apply scope_length.
  - unfold np_ones. rewrite repeat_length.
    pose proof (prod_pos _ (wf_pos _ Hwf)). lia.
  - by exists I.
Qed.

Lemma product_identity_values (f I : Factor) :
  wf_Factor f -> wf_Factor I ->
  scope I = scope f -> cardinality I = cardinality f ->
  values I = np_ones (Np.prod (cardinality f)) ->
  product f [I]
  = Return (mkFactor (variables f) (cardinality f)
                     ((fun x => Np.mul x (Np.of_int 1)) <$> values f)).
Proof.
  intros Hwf HwfI HsI HcI HvI.
  destruct (scope f) as [|v0 vs] eqn:Hscope.
  - assert (cardinality f = []) as Hcard.
    { pose proof (scope_length f Hwf) as H. rewrite Hscope in H.
      by destruct (cardinality f). }
    assert (variables f = []) as Hvars.
    { unfold scope in Hscope. by destruct (variables f). }
    unfold product, factor_product, _bivar_factor_operation. cbn [fold_left bind].
    rewrite HsI, Hscope, HcI, HvI, Hcard. cbn [filter list_filter bind app].
    change (np_ones (Np.prod [])) with [Np.of_int 1].
    rewrite (bind_singleton_fmap (fun a => Np.mul a (Np.of_int 1))).
    unfold Factor_init. cbn [length Nat.eqb negb zip_with fold_left].
    rewrite length_fmap.
    pose proof (wf_size f Hwf) as Hsize. rewrite Hcard in Hsize.
    assert ((Z.of_nat (length (values f)) =? Np.prod []) = true) as -> by lia.
    cbn [negb]. by rewrite Hvars.
  - rewrite <- Hscope in HsI.
    assert (compatible f I) as Hcompat.
    { intros v c1 c2 H1 (i & Hi & Hc). apply (card_of_fun f v); [done..|].
      exists i. by rewrite <- HsI, <- HcI. }
    destruct (bivar_common_ok f I M Hwf HwfI Hcompat)
      as (P & ec & HP & HwfP & HsP & HcP & _ & _ & Hcell).
    { exists v0. rewrite HsI, Hscope. split; left. }
    rewrite union_scope_covered in HsP by (intros v; by rewrite HsI).
    assert (cardinality P = cardinality f) as HcPf.
    { pose proof (scope_length P HwfP) as HlP. pose proof (scope_length f Hwf) as Hlf.
      rewrite HsP, HcP, length_app in HlP.
      destruct ec; [by rewrite HcP, app_nil_r|simpl in HlP; lia]. }
    unfold product, factor_product. cbn [fold_left bind]. rewrite HP. f_equal.
    assert (values P = (fun x => Np.mul x (Np.of_int 1)) <$> values f) as HvP.
    { apply list_eq. intros j. rewrite list_lookup_fmap.
      pose proof (wf_size P HwfP) as HszP. pose proof (wf_size f Hwf) as Hszf.
      rewrite HcPf in HszP.
      destruct (values f !! j) as [xj|] eqn:Hxj; simpl.
      - pose proof (lookup_lt_Some _ _ _ Hxj) as Hj.
        destruct (assign_digits_spec (cardinality f) (Z.of_nat j)) as [Hr Hflat];
          [apply Hwf|lia|].
        rewrite Z.mod_small in Hflat by lia.
        set (idx := assign_digits (cardinality f) (Z.of_nat j)) in *.
        destruct (Hcell idx) as (x & y & q & Hx & Hy & Hq & Hv); [by rewrite HcPf|].
        rewrite HcPf, Hflat, Nat2Z.id in Hv. rewrite Hv. f_equal.
        simpl in Hq. injection Hq as <-.
        rewrite HsP in Hx, Hy.
        rewrite (value_at_self f idx xj Hwf Hr) in Hx
          by (by rewrite Hflat, Nat2Z.id).
        injection Hx as <-.
        rewrite <- HsI in Hy.
        rewrite (value_at_self I idx (Np.of_int 1) HwfI) in Hy.
        + by injection Hy as <-.
        + by rewrite HcI.
        + rewrite HcI, Hflat, Nat2Z.id, HvI. apply np_ones_lookup. lia.
      - apply lookup_ge_None. apply lookup_ge_None in Hxj. lia. }
    assert (variables P = variables f) as HvarsP
      by (by rewrite (wf_labels P HwfP), (wf_labels f Hwf), HsP, HcPf).
    destruct P as [pv pc pvals]. simpl in HvarsP, HcPf, HvP. by subst.
Qed.

(** X15.  The identity factor is a unit of the product.  For a factor that
    satisfies the class invariant, [identity_factor] returns a factor over
    the same scope and cardinalities whose cells are all 1.0; the product
    with it has the same scope and cardinalities and multiplies every cell
    by 1.0, so that it returns the factor itself when its values are
    doubles. *)
Theorem product_with_identity (f : Factor) :
  wf_Factor f ->
  exists I,
    identity_factor f = Return I /\ wf_Factor I /\
    scope I = scope f /\ cardinality I = cardinality f /\
    Forall (fun x => x = Np.of_int 1) (values I) /\
    product f [I]
    = Return (mkFactor (variables f) (cardinality f)
                       ((fun x => Np.mul x (Np.of_int 1)) <$> values f)) /\
    (Forall is_double (values f) -> product f [I] = Return f).
Proof.
  intros Hwf.
  destruct (identity_factor_ok f Hwf) as (I & HI & HwfI & Hs & Hc & Hv).
  pose proof (product_identity_values f I Hwf HwfI Hs Hc Hv) as Hprod.
  exists I. do 4 (split; [done|]). split; [|split; [done|]].
  - rewrite Hv. unfold np_ones. apply Forall_forall. intros x Hx.
    apply list_elem_of_In in Hx. by apply repeat_spec in Hx.
  - intros Hd. rewrite Hprod. f_equal. destruct f as [fv fc fvals]. simpl in *.
    f_equal. rewrite <- (list_fmap_id fvals) at 2.
    apply Forall_fmap_ext_1. eapply Forall_impl; [exact Hd|]. intros x. apply mul_one.
Qed.

Lemma product_with_identity_witness :
  wf_Factor phi_x1x2x3 /\ Forall is_double (values phi_x1x2x3) /\
  exists I, identity_factor phi_x1x2x3 = Return I /\
            product phi_x1x2x3 [I] = Return phi_x1x2x3.
Proof.
  assert (Forall is_double (values phi_x1x2x3)) as Hd by (repeat constructor).
  split; [exact phi_x1x2x3_wf|]. split; [exact Hd|].
  destruct (product_with_identity phi_x1x2x3 phi_x1x2x3_wf)
    as (I & HI & _ & _ & _ & _ & _ & Hprod).
  exists I. split; [exact HI|exact (Hprod Hd)].
Defined.

(** ** Equality *)

Lemma float_eq_refl (x : Np.double) :
  float_eq x x = match x with S754_nan => false | _ => true end.
Proof.
  unfold float_eq, SFeqb, SFcompare. destruct x as [s|s| |s m e]; try done.
  - by destruct s.
  - rewrite Z.compare_refl.
    replace (Pos.compare_cont Eq m m) with Eq by (symmetry; apply Pos.compare_refl).
    by destruct s.
Qed.

Lemma all_equal_refl_Z (a : list Z) : all_equal Z.eqb a a = Some true.
Proof.
  unfold all_equal. rewrite Nat.eqb_refl. f_equal.
  induction a as [|x a IH]; simpl; [done|]. by rewrite Z.eqb_refl.
Qed.

Lemma all_equal_refl_double (a : list Np.double) :
  all_equal float_eq a a
  = Some (forallb (fun x => match x with S754_nan => false | _ => true end) a).
Proof.
  unfold all_equal. rewrite Nat.eqb_refl. f_equal.
  induction a as [|x a IH]; simpl; [done|]. by rewrite float_eq_refl, IH.
Qed.

(** X16.  Equality of factors is reflexive only in the absence of NaN:
    [f == f] is [True] exactly when no cell of [f] is NaN.  In particular the
    quotient of [Factor(['x1'], [2], [0, 1])] by itself, which holds the NaN
    of 0/0, is not equal to itself. *)
Theorem equality_reflexive_without_nan (f : Factor) :
  Factor_eq f f
  = Some (forallb (fun x => match x with S754_nan => false | _ => true end) (values f)) /\
  exists R, divide phi_zero_one phi_zero_one = Return R /\ Factor_eq R R = Some false.
Proof.
  split.
  - unfold Factor_eq. rewrite bool_decide_eq_true_2 by done.
    by rewrite all_equal_refl_Z, all_equal_refl_double.
  - eexists. split; by vm_compute.
Qed.

Lemma forallb_zip_Forall2 {A} (eqb : A -> A -> bool) (a b : list A) :
  length a = length b ->
  forallb id (zip_with eqb a b) = true <-> Forall2 (fun x y => eqb x y = true) a b.
Proof.
  revert b. induction a as [|x a IH]; intros [|y b] Hlen; simpl in *; try lia.
  - split; [constructor|done].
  - unfold id at 1. rewrite andb_true_iff, IH by lia. split.
    + intros [? ?]. by constructor.
    + intros H. by inversion H.
Qed.

Lemma Forall2_Zeqb (a b : list Z) :
  Forall2 (fun x y => (x =? y) = true) a b -> a = b.
Proof. induction 1 as [|x y a b Hxy _ IH]; [done|]. f_equal; [lia|done]. Qed.

(** X17.  On two factors that satisfy the class invariant, [==] always
    yields a Boolean (the array comparisons never meet different shapes),
    and it is [True] exactly when the two have the same ordered scope with
    the same labels, the same cardinalities, and cell by cell IEEE-equal
    values. *)
Theorem equality_of_well_formed (f g : Factor) :
  wf_Factor f -> wf_Factor g ->
  exists b,
    Factor_eq f g = Some b /\
    (b = true <->
     variables f = variables g /\ cardinality f = cardinality g /\
     Forall2 (fun x y => float_eq x y = true) (values f) (values g)).
Proof.
  intros Hwf Hwg. unfold Factor_eq.
  destruct (decide (variables f = variables g)) as [Hvars|Hvars].
  2:{ rewrite bool_decide_eq_false_2 by done. exists false. split; [done|].
      split; [done|]. by intros [? _]. }
  rewrite bool_decide_eq_true_2 by done.
  assert (length (cardinality f) = length (cardinality g)) as Hlc
    by (by rewrite <- (wf_length f Hwf), <- (wf_length g Hwg), Hvars).
  unfold all_equal at 1. rewrite Hlc, Nat.eqb_refl.
  destruct (forallb id (zip_with Z.eqb (cardinality f) (cardinality g))) eqn:Hcards.
  - apply forallb_zip_Forall2 in Hcards; [|done]. apply Forall2_Zeqb in Hcards.
    assert (length (values f) = length (values g)) as Hlv.
    { pose proof (wf_size f Hwf). pose proof (wf_size g Hwg). rewrite Hcards in *. lia. }
    unfold all_equal. rewrite Hlv, Nat.eqb_refl. eexists. split; [done|].
    rewrite forallb_zip_Forall2 by done. tauto.
  - exists false. split; [done|]. split; [done|]. intros (_ & Hc & _).
    rewrite Hc in Hcards.
    assert (forallb id (zip_with Z.eqb (cardinality g) (cardinality g)) = true) as Ht.
    { pose proof (all_equal_refl_Z (cardinality g)) as H. unfold all_equal in H.
      rewrite Nat.eqb_refl in H. by injection H. }
    congruence.
Qed.

Lemma equality_of_well_formed_witness :
  wf_Factor phi_x3x1 /\ wf_Factor phi_zero_one /\
  exists b,
    Factor_eq phi_x3x1 phi_zero_one = Some b /\
    (b = true <->
     variables phi_x3x1 = variables phi_zero_one /\
     cardinality phi_x3x1 = cardinality phi_zero_one /\
     Forall2 (fun x y => float_eq x y = true) (values phi_x3x1) (values phi_zero_one)).
Proof.
  split; [exact phi_x3x1_wf|]. split; [exact phi_zero_one_wf|].
  exact (equality_of_well_formed phi_x3x1 phi_zero_one phi_x3x1_wf phi_zero_one_wf).
Defined.

(** ** State labels as reduction tokens *)

Lemma all_digits_string_of_uint (u : Decimal.uint) :
  all_digits (NilEmpty.string_of_uint u) = true.
Proof. induction u; simpl; try done; by rewrite IHu. Qed.

Lemma rev_string_rev_string (s a b : string) :
  Py.rev_string (Py.rev_string s a) b = Py.rev_string a (s +:+ b).
Proof.
  revert a b. induction s as [|c s IH]; intros a b; simpl; [done|].
  by rewrite IH.
Qed.

Lemma all_digits_rev_string (s a : string) :
  all_digits (Py.rev_string s a) = (all_digits s && all_digits a)%bool.
Proof.
  revert a. induction s as [|c s IH]; intros a; simpl; [done|].
  rewrite IH. simpl. destruct (is_digit c), (all_digits s), (all_digits a); done.
Qed.

Lemma digit_not_space (a : ascii) : is_digit a = true -> Py.is_space a = false.
Proof.
  unfold is_digit, Py.is_space. generalize (nat_of_ascii a). intros n H.
  apply andb_prop in H as [H1 H2]. apply Nat.leb_le in H1. apply Nat.leb_le in H2.
  rewrite !orb_false_iff, !andb_false_iff, !Nat.leb_gt, Nat.eqb_neq. lia.
Qed.

Lemma lstrip_digits (s : string) : all_digits s = true -> Py.lstrip s = s.
Proof.
  destruct s as [|a s]; simpl; [done|]. intros H. apply andb_prop in H as [Ha _].
  by rewrite digit_not_space.
Qed.

Lemma strip_digits (s : string) : all_digits s = true -> Py.strip s = s.
Proof.
  intros H. unfold Py.strip. rewrite (lstrip_digits s H).
  rewrite lstrip_digits by (by rewrite all_digits_rev_string, H).
  rewrite rev_string_rev_string. simpl.
  clear H. induction s as [|c s IH]; [done|].
  change (String c s +:+ EmptyString) with (String c (s +:+ EmptyString)).
  by f_equal.
Qed.

Lemma int_of_digits (s : string) (u : Decimal.uint) :
  all_digits s = true -> NilZero.uint_of_string s = Some u ->
  Py.int s = Return (Z.of_N (N.of_uint u)).
Proof.
  intros Hd Hu. unfold Py.int. rewrite (strip_digits s Hd).
  destruct s as [|a s]; [done|].
  simpl in Hd. apply andb_prop in Hd as [Ha _].
  destruct a as [[|] [|] [|] [|] [|] [|] [|] [|]];
    try (by vm_compute in Ha); cbv beta iota zeta; rewrite Hu; f_equal; lia.
Qed.

(** [int(str(d)) == d] for a non-negative integer. *)
Lemma int_str (d : Z) : 0 <= d -> Py.int (Py.str d) = Return d.
Proof.
  intros Hd. unfold Py.str. destruct d as [|p|p]; [done| |lia].
  simpl Z.to_int. unfold NilZero.string_of_int.
  pose proof (DecimalPos.Unsigned.to_uint_nonnil p) as Hnn.
  assert (NilZero.string_of_uint (Pos.to_uint p) = NilEmpty.string_of_uint (Pos.to_uint p))
    as Heq by (by destruct (Pos.to_uint p)).
  rewrite (int_of_digits _ (Pos.to_uint p)).
  - f_equal. unfold N.of_uint. by rewrite DecimalPos.Unsigned.of_to.
  - rewrite Heq. apply all_digits_string_of_uint.
  - by apply NilZero.usu.
Qed.

Lemma str_all_digits (d : Z) : 0 <= d -> all_digits (Py.str d) = true.
Proof.
  intros Hd. unfold Py.str. destruct d as [|p|p]; [done| |lia].
  simpl. pose proof (all_digits_string_of_uint (Pos.to_uint p)).
  by destruct (Pos.to_uint p).
Qed.

Lemma digits_no_underscore (s : string) :
  all_digits s = true -> Py.contains "_" s = false.
Proof.
  induction s as [|a s IH]; simpl; [done|]. intros H. apply andb_prop in H as [Ha Hs].
  rewrite (IH Hs).
  destruct (Ascii.eqb a "_") eqn:E; [|done]. apply Ascii.eqb_eq in E. by subst.
Qed.

Lemma split_no_separator (c : ascii) (s : string) :
  Py.contains c s = false -> Py.split c s = [s].
Proof.
  induction s as [|a s IH]; simpl; [done|].
  destruct (Ascii.eqb a c); [done|]. intros H. by rewrite (IH H).
Qed.

Lemma split_at_first (c : ascii) (v s : string) :
  Py.contains c v = false -> Py.split c (v +:+ String c s) = v :: Py.split c s.
Proof.
  induction v as [|a v IH]; simpl.
  - by rewrite Ascii.eqb_refl.
  - destruct (Ascii.eqb a c); [done|]. intros H. by rewrite (IH H).
Qed.

Lemma contains_app_separator (c : ascii) (v s : string) :
  Py.contains c (v +:+ String c s) = true.
Proof.
  induction v as [|a v IH]; simpl; [by rewrite Ascii.eqb_refl|].
  by destruct (Ascii.eqb a c).
Qed.

Lemma state_label_parses (v : string) (d : Z) :
  Py.contains "_" v = false -> 0 <= d -> parses_as (state_label v d) v d.
Proof.
  intros Hv Hd. unfold parses_as, state_label.
  change (v +:+ "_" +:+ Py.str d) with (v +:+ String "_" (Py.str d)).
  split; [apply contains_app_separator|].
  exists (Py.str d). split; [|by apply int_str].
  rewrite split_at_first by done.
  rewrite split_no_separator; [done|].
  apply digits_no_underscore. by apply str_all_digits.
Qed.

(** X18.  The labels that [assignment] returns are tokens that [reduce]
    accepts: for a factor that satisfies the class invariant, a valid flat
    index and a variable of the scope whose name has no underscore, the
    label decoded for that variable parses back to the variable and its
    decoded state, and reducing by it in place succeeds and removes exactly
    that variable. *)
Theorem reduce_accepts_assignment_labels (f : Factor) (i : Z) (k : nat) (v : string) :
  wf_Factor f -> 0 <= i <= Np.prod (cardinality f) - 1 ->
  scope f !! k = Some v -> Py.contains "_" v = false ->
  exists labels tok d g,
    assignment f [i] = Return [labels] /\ labels !! k = Some tok /\
    assign_digits (cardinality f) i !! k = Some d /\
    parses_as tok v d /\
    reduce f (Str tok) true = (g, Return None) /\ wf_Factor g /\
    scope g = base.delete k (scope f).
Proof.
  intros Hwf Hi Hk Hv.
  destruct (assign_digits_spec (cardinality f) i) as [Hr _]; [apply Hwf|lia|].
  assert (exists c, cardinality f !! k = Some c) as [c Hc].
  { apply lookup_lt_is_Some. rewrite <- (scope_length f Hwf).
    by eapply lookup_lt_Some. }
  destruct (Forall2_lookup_r _ _ _ _ _ Hr Hc) as (d & Hd & Hdc).
  pose proof (state_label_parses v d Hv ltac:(lia)) as Hp.
  destruct (reduce_body_ok f (state_label v d) v d k c Hwf Hp Hk Hc Hdc)
    as (g & Hbody & Hwg & Hsg & _).
  exists (zip_with state_label (scope f) (assign_digits (cardinality f) i)),
    (state_label v d), d, g.
  split; [|split; [|split; [done|split; [done|split; [|done]]]]].
  - unfold assignment. simpl.
    assert ((i <=? Np.prod (cardinality f) - 1) = true) as -> by lia. simpl.
    by rewrite assignment_labels.
  - apply lookup_zip_with_Some. by exists v, d.
  - unfold reduce. simpl. by rewrite Hbody.
Qed.

Lemma reduce_accepts_assignment_labels_witness :
  wf_Factor phi_x1x2x3 /\ 0 <= 7 <= Np.prod (cardinality phi_x1x2x3) - 1 /\
  scope phi_x1x2x3 !! 1%nat = Some "x2"%string /\ Py.contains "_" "x2" = false /\
  exists labels tok d g,
    assignment phi_x1x2x3 [7] = Return [labels] /\ labels !! 1%nat = Some tok /\
    assign_digits (cardinality phi_x1x2x3) 7 !! 1%nat = Some d /\
    parses_as tok "x2" d /\
    reduce phi_x1x2x3 (Str tok) true = (g, Return None) /\ wf_Factor g /\
    scope g = base.delete 1%nat (scope phi_x1x2x3).
Proof.
  assert (0 <= 7 <= Np.prod (cardinality phi_x1x2x3) - 1) as Hi
    by (vm_compute; split; discriminate).
  split; [exact phi_x1x2x3_wf|]. split; [exact Hi|].
  split; [reflexivity|]. split; [reflexivity|].
  exact (reduce_accepts_assignment_labels phi_x1x2x3 7 1 "x2" phi_x1x2x3_wf Hi
           eq_refl eq_refl).
Defined.

(** ** Variables that [reduce] cannot name *)

Lemma split_parts_clean (c : ascii) (s : string) :
  Forall (fun p => Py.contains c p = false) (Py.split c s).
Proof.
  induction s as [|a s IH]; simpl; [by constructor|].
  destruct (Ascii.eqb a c) eqn:E; [by constructor|].
  destruct (Py.split c s) as [|w ws]; [by constructor; [simpl; rewrite E|]|].
  apply Forall_cons in IH as [Hw Hws]. constructor; [|done].
  simpl. by rewrite E.
Qed.

Lemma odict_del_keeps (d : list (string * list string)) (k w : string) :
  w <> k -> w ∈ fst <$> d -> w ∈ fst <$> odict_del k d.
Proof.
  intros Hne. induction d as [|[k' ls] d IH]; [done|].
  rewrite fmap_cons. cbn [fst odict_del]. intros Hin.
  destruct (decide (k' = k)) as [->|Hk].
  - apply elem_of_cons in Hin as [->|Hin]; done.
  - rewrite fmap_cons. cbn [fst].
    apply elem_of_cons in Hin as [->|Hin]; [left|right; by apply IH].
Qed.

Lemma reduce_slice_var_clean (f : Factor) (tok var : string) (index : Z)
      (vals : list Np.double) :
  reduce_slice f tok = Return (var, index, vals) -> Py.contains "_" var = false.
Proof.
  unfold reduce_slice. intros H.
  destruct (negb (Py.contains "_" tok)); [done|].
  pose proof (split_parts_clean "_" tok) as Hclean.
  destruct (Py.split "_" tok) as [|a [|b [|]]]; try done.
  apply Forall_cons in Hclean as [Ha _].
  repeat match type of H with
         | (if ?c then _ else _) = Return _ => destruct c; [done|]
         | bind ?m _ = Return _ => destruct m; cbn [bind] in H; [|done]
         end.
  by simplify_eq.
Qed.

Lemma reduce_body_keeps (f : Factor) (tok v : string) :
  Py.contains "_" v = true -> v ∈ scope f -> v ∈ scope (fst (reduce_body f tok)).
Proof.
  intros Hv Hin. unfold reduce_body.
  destruct (reduce_slice f tok) as [[[var index] vals]|e] eqn:E; [|done].
  apply reduce_slice_var_clean in E. simpl. unfold scope. simpl.
  apply odict_del_keeps; [|done]. intros ->. congruence.
Qed.

Lemma reduce_loop_keeps (toks : list string) (f : Factor) (v : string) :
  Py.contains "_" v = true -> v ∈ scope f ->
  v ∈ scope (fst (for_each reduce_body f toks)).
Proof.
  intros Hv. revert f. induction toks as [|tok toks IH]; intros f Hin; [done|].
  simpl. pose proof (reduce_body_keeps f tok v Hv Hin) as Hstep.
  destruct (reduce_body f tok) as [f' [[]|e]]; simpl in *; [by apply IH|done].
Qed.

Lemma Factor_init_scope (vars : list string) (card : list Z) (value : list Np.double)
      (g : Factor) :
  Factor_init vars card value = Return g -> forall x, x ∈ scope g <-> x ∈ vars.
Proof.
  unfold Factor_init. intros H x.
  destruct (Nat.eqb (length vars) (length card)) eqn:Hlen; simpl in H; [|done].
  apply Nat.eqb_eq in Hlen.
  destruct (Z.of_nat (length value) =? Np.prod card); simpl in H; [|done].
  injection H as <-. unfold scope. simpl.
  destruct (odict_fold_keys vars card [] Hlen) as [_ Hiff]; [constructor|].
  rewrite Hiff. simpl. split; [|by right].
  intros [Hx|?]; [by apply elem_of_nil in Hx|done].
Qed.

(** X19.  A variable whose name contains an underscore can never be
    reduced away: whatever tokens are passed and whichever mode is chosen,
    such a variable of the scope is still in the scope of the receiver
    after the call and in the scope of any factor the call returns.  No
    hypothesis on the factor or on the tokens is needed: [split('_')] never
    yields a part that contains an underscore. *)
Theorem reduce_keeps_underscore_variables (f : Factor) (v : string)
        (vals : str_or_list) (inplace : bool) :
  v ∈ scope f -> Py.contains "_" v = true ->
  v ∈ scope (fst (reduce f vals inplace)) /\
  forall g, snd (reduce f vals inplace) = Return (Some g) -> v ∈ scope g.
Proof.
  intros Hin Hv. unfold reduce. destruct inplace.
  - pose proof (reduce_loop_keeps (as_list vals) f v Hv Hin) as Hloop.
    destruct (for_each reduce_body f (as_list vals)) as [f' [[]|e]]; simpl in *;
      split; done.
  - destruct (Factor_init (scope f) (cardinality f) (values f)) as [factor|e] eqn:E;
      [|split; done].
    assert (v ∈ scope factor) as Hin' by (by apply (Factor_init_scope _ _ _ _ E)).
    pose proof (reduce_loop_keeps (as_list vals) factor v Hv Hin') as Hloop.
    destruct (for_each reduce_body factor (as_list vals)) as [f' [[]|e]]; simpl in *;
      (split; [done|]); intros g Hg; by simplify_eq.
Qed.

Lemma reduce_keeps_underscore_variables_witness :
  "x_1"%string ∈ scope phi_underscore /\ Py.contains "_" "x_1" = true /\
  "x_1"%string ∈ scope (fst (reduce phi_underscore (Str "x_1_0") true)).
Proof.
  assert ("x_1"%string ∈ scope phi_underscore) as Hin by (left).
  split; [exact Hin|]. split; [reflexivity|].
  exact (proj1 (reduce_keeps_underscore_variables phi_underscore "x_1" (Str "x_1_0")
                  true Hin eq_refl)).
Defined.

Lemma split_nonempty (c : ascii) (s : string) : Py.split c s <> [].
Proof.
  destruct s as [|a s]; simpl; [done|].
  destruct (Ascii.eqb a c); [done|]. by destruct (Py.split c s).
Qed.

Lemma split_two_parts (c : ascii) (w s : string) :
  exists a b rest, Py.split c (w +:+ String c s) = a :: b :: rest.
Proof.
  induction w as [|x w (a & b & rest & IH)]; simpl.
  - rewrite Ascii.eqb_refl. pose proof (split_nonempty c s).
    destruct (Py.split c s) as [|b rest]; [done|]. by eexists _, _, _.
  - destruct (Ascii.eqb x c); rewrite IH; by eexists _, _, _.
Qed.

Lemma split_three_parts (c : ascii) (v s : string) :
  Py.contains c v = true ->
  exists a b x rest, Py.split c (v +:+ String c s) = a :: b :: x :: rest.
Proof.
  induction v as [|y v IH]; simpl; [done|].
  destruct (Ascii.eqb y c).
  - intros _. destruct (split_two_parts c v s) as (a & b & rest & ->).
    by eexists _, _, _, _.
  - intros H. destruct (IH H) as (a & b & x & rest & ->). by eexists _, _, _, _.
Qed.

(** X20.  The labels of a variable whose name contains an underscore are
    not tokens of [reduce]: for a factor that satisfies the class invariant,
    a token made of such a name, an underscore and any suffix splits into
    three parts or more, so the call raises the unpacking [ValueError] in
    both modes and the receiver is unchanged. *)
Theorem reduce_rejects_underscore_labels (f : Factor) (v s : string) (inplace : bool) :
  wf_Factor f -> Py.contains "_" v = true ->
  reduce f (Str (v +:+ "_" +:+ s)) inplace = (f, Raise ValueError_Unpack).
Proof.
  intros Hwf Hv.
  change (v +:+ "_" +:+ s) with (v +:+ String "_" s).
  assert (reduce_body f (v +:+ String "_" s) = (f, Raise ValueError_Unpack)) as Hbody.
  { unfold reduce_body, reduce_slice. rewrite contains_app_separator. simpl negb.
    cbv iota. by destruct (split_three_parts "_" v s Hv) as (a & b & x & rest & ->). }
  unfold reduce. destruct inplace; simpl.
  - by rewrite Hbody.
  - rewrite (Factor_init_copy f Hwf). simpl. by rewrite Hbody.
Qed.

Lemma phi_underscore_wf : wf_Factor phi_underscore.
Proof. wf_by_evaluation. Qed.

Lemma reduce_rejects_underscore_labels_witness :
  wf_Factor phi_underscore /\ Py.contains "_" "x_1" = true /\
  reduce phi_underscore (Str "x_1_0") false = (phi_underscore, Raise ValueError_Unpack).
Proof.
  split; [exact phi_underscore_wf|]. split; [reflexivity|].
  exact (reduce_rejects_underscore_labels phi_underscore "x_1" "0" false
           phi_underscore_wf eq_refl).
Defined.

(** ** The product does not depend on the order of its operands *)

Lemma np_mul_comm (x y : Np.double) : Np.mul x y = Np.mul y x.
Proof.
  unfold Np.mul, SFmul.
  destruct x as [sx|sx| |sx mx ex], y as [sy|sy| |sy my ey];
    rewrite ?(xorb_comm sx sy); try done.
  by rewrite (Pos.mul_comm mx my), (Z.add_comm ex ey).
Qed.

Lemma assigns_fun (vars : list string) (idx : list Z) (v : string) (d d' : Z) :
  NoDup vars -> assigns vars idx v d -> assigns vars idx v d' -> d = d'.
Proof.
  intros Hnd (p & Hp & Hd) (p' & Hp' & Hd').
  assert (p = p') as -> by (by eapply NoDup_lookup). congruence.
Qed.

Lemma assigns_Forall2_fun (vars : list string) (idx : list Z) (l : list string)
      (ds ds' : list Z) :
  NoDup vars -> Forall2 (assigns vars idx) l ds -> Forall2 (assigns vars idx) l ds' ->
  ds = ds'.
Proof.
  intros Hnd H. revert ds'. induction H as [|v d l ds Hd _ IH]; intros ds' H'.
  - by inversion H'.
  - inversion H' as [|v' d' l' ds'' Hd' Hds']; subst.
    f_equal; [by eapply assigns_fun|by apply IH].
Qed.

Lemma assigns_trans (vars vars' : list string) (idx idx' : list Z) (v : string) (d : Z) :
  Forall2 (assigns vars idx) vars' idx' -> assigns vars' idx' v d -> assigns vars idx v d.
Proof.
  intros H (p & Hp & Hd).
  destruct (Forall2_lookup_l _ _ _ _ _ H Hp) as (d' & Hd' & Ha).
  by simplify_eq.
Qed.

(** The value of a factor at a joint assignment of a larger scope is the
    cell of its buffer at the states that the assignment gives to its own
    variables. *)
Lemma value_at_digits (f : Factor) (vars : list string) (card idx : list Z) :
  wf_Factor f -> joint_scope vars card f -> in_range idx card ->
  exists digits x,
    Forall2 (assigns vars idx) (scope f) digits /\
    in_range digits (cardinality f) /\
    values f !! Z.to_nat (flat_index (cardinality f) digits) = Some x /\
    value_at f vars idx = Return x.
Proof.
  intros Hwf Hj Hr. unfold value_at.
  destruct (collect_index_ok vars (scope f)) as (indexes & -> & Hidx);
    [apply Hj|apply Hj|]. cbn [bind].
  destruct (cell_of_ok (values f) (cardinality f) card idx indexes)
    as (digits & x & Hd & Hrd & Hx & Hv);
    [by eapply aligned_cards|done|apply Hwf|].
  exists digits, x. split; [|done].
  apply Forall2_same_length_lookup_2.
  - rewrite (Forall2_length _ _ _ Hidx). by eapply Forall2_length.
  - intros i v d Hv' Hd'.
    destruct (Forall2_lookup_l _ _ _ _ _ Hidx Hv') as (p & Hp & _ & Hvp).
    destruct (Forall2_lookup_l _ _ _ _ _ Hd Hp) as (d'' & Hd'' & _ & Hdp).
    exists (Z.to_nat p). split; [done|]. congruence.
Qed.

(** Reading a factor through an intermediate joint scope gives the same
    value as reading it directly. *)
Lemma value_at_through (f : Factor) (vars vars' : list string)
      (card card' idx idx' : list Z) (x : Np.double) :
  wf_Factor f -> joint_scope vars card f -> joint_scope vars' card' f ->
  in_range idx card -> in_range idx' card' ->
  Forall2 (assigns vars idx) vars' idx' ->
  value_at f vars' idx' = Return x -> value_at f vars idx = Return x.
Proof.
  intros Hwf Hj Hj' Hr Hr' Hpick Hx.
  destruct (value_at_digits f vars card idx Hwf Hj Hr) as (ds & y & Hds & _ & Hy & ->).
  destruct (value_at_digits f vars' card' idx' Hwf Hj' Hr')
    as (ds' & y' & Hds' & _ & Hy' & Hv').
  assert (ds' = ds) as ->.
  { apply (assigns_Forall2_fun vars idx (scope f)); [apply Hj| |done].
    eapply Forall2_impl; [exact Hds'|]. intros v d. by apply assigns_trans. }
  congruence.
Qed.

Lemma elem_of_union_scope (f1 f2 : Factor) (v : string) :
  v ∈ union_scope f1 f2 <-> v ∈ scope f1 \/ v ∈ scope f2.
Proof.
  unfold union_scope. rewrite elem_of_app, list_elem_of_filter, list_elem_of_filter.
  destruct (decide (v ∈ scope f1)); tauto.
Qed.

Lemma card_of_exists (f : Factor) (v : string) :
  wf_Factor f -> v ∈ scope f -> exists c, card_of f v c.
Proof.
  intros Hwf Hv. apply list_elem_of_lookup in Hv as [i Hi].
  assert (is_Some (cardinality f !! i)) as [c Hc].
  { apply lookup_lt_is_Some. rewrite <- (scope_length f Hwf). by eapply lookup_lt_Some. }
  exists c. by exists i.
Qed.

(** X21.  The product does not depend on the order of its operands, up to
    the order of the scope: for two factors that satisfy the class
    invariant, agree on the cardinality of their common variables and have
    a common variable, [f1.product(f2)] and [f2.product(f1)] are factors
    over the same variables, and at every joint assignment they hold the
    same value. *)
Theorem product_commutes (f1 f2 : Factor) :
  wf_Factor f1 -> wf_Factor f2 -> compatible f1 f2 ->
  (exists v, v ∈ scope f1 /\ v ∈ scope f2) ->
  exists P Q,
    product f1 [f2] = Return P /\ product f2 [f1] = Return Q /\
    (forall v, v ∈ scope P <-> v ∈ scope Q) /\
    forall idx, in_range idx (cardinality P) ->
      exists z, value_at P (scope P) idx = Return z /\
                value_at Q (scope P) idx = Return z.
Proof.
  intros Hwf1 Hwf2 Hcompat Hcommon.
  assert (compatible f2 f1) as Hcompat'.
  { intros v c1 c2 H1 H2. symmetry. by eapply Hcompat. }
  assert (exists v, v ∈ scope f2 /\ v ∈ scope f1) as Hcommon'.
  { destruct Hcommon as (v & ? & ?). by exists v. }
  destruct (bivar_common_ok f1 f2 M Hwf1 Hwf2 Hcompat Hcommon)
    as (P & ec & HP & HwfP & HsP & _ & HP1 & HP2 & HcellP).
  destruct (bivar_common_ok f2 f1 M Hwf2 Hwf1 Hcompat' Hcommon')
    as (Q & ec' & HQ & HwfQ & HsQ & _ & HQ2 & HQ1 & HcellQ).
  exists P, Q. split; [exact HP|]. split; [exact HQ|].
  assert (forall v, v ∈ scope P <-> v ∈ scope Q) as Hsame.
  { intros v. rewrite HsP, HsQ, !elem_of_union_scope. tauto. }
  split; [done|].
  assert (joint_scope (scope P) (cardinality P) Q) as HPQ.
  { split; [apply HwfP|]. split; [by apply scope_length|].
    split; [intros v; apply Hsame|].
    intros p v c c' Hp Hc (i & Hi & Hci).
    assert (v ∈ scope f1 \/ v ∈ scope f2) as [Hv|Hv].
    { apply elem_of_union_scope. rewrite <- HsP. by eapply list_elem_of_lookup_2. }
    - destruct (card_of_exists f1 v Hwf1 Hv) as [c1 Hc1].
      destruct HP1 as (_ & _ & _ & HP1). destruct HQ1 as (_ & _ & _ & HQ1).
      rewrite <- (HP1 p v c c1 Hp Hc Hc1). symmetry. by apply (HQ1 i v c' c1).
    - destruct (card_of_exists f2 v Hwf2 Hv) as [c2 Hc2].
      destruct HP2 as (_ & _ & _ & HP2). destruct HQ2 as (_ & _ & _ & HQ2).
      rewrite <- (HP2 p v c c2 Hp Hc Hc2). symmetry. by apply (HQ2 i v c' c2). }
  intros idx Hr.
  destruct (HcellP idx Hr) as (x & y & q & Hx & Hy & Hq & Hv).
  simpl in Hq. injection Hq as <-.
  exists (Np.mul x y). split; [by apply value_at_self|].
  destruct (value_at_digits Q (scope P) (cardinality P) idx HwfQ HPQ Hr)
    as (ds & z & Hds & Hrd & Hz & ->).
  destruct (HcellQ ds Hrd) as (y' & x' & q' & Hy' & Hx' & Hq' & Hv').
  simpl in Hq'. injection Hq' as <-.
  pose proof (value_at_through f1 (scope P) (scope Q) _ _ idx ds x'
                Hwf1 HP1 HQ1 Hr Hrd Hds Hx') as Hx1.
  pose proof (value_at_through f2 (scope P) (scope Q) _ _ idx ds y'
                Hwf2 HP2 HQ2 Hr Hrd Hds Hy') as Hy1.
  assert (x' = x) as -> by congruence. assert (y' = y) as -> by congruence.
  rewrite Hz in Hv'. injection Hv' as ->. by rewrite np_mul_comm.
Qed.

Lemma product_commutes_witness :
  wf_Factor phi_x1x2x3 /\ wf_Factor phi_x3x1 /\ compatible phi_x1x2x3 phi_x3x1 /\
  (exists v, v ∈ scope phi_x1x2x3 /\ v ∈ scope phi_x3x1) /\
  exists P Q,
    product phi_x1x2x3 [phi_x3x1] = Return P /\
    product phi_x3x1 [phi_x1x2x3] = Return Q /\
    (forall v, v ∈ scope P <-> v ∈ scope Q) /\
    forall idx, in_range idx (cardinality P) ->
      exists z, value_at P (scope P) idx = Return z /\
                value_at Q (scope P) idx = Return z.
Proof.
  split; [exact phi_x1x2x3_wf|]. split; [exact phi_x3x1_wf|].
  split; [exact scenario_A_compatible|]. split; [exact scenario_A_common|].
  exact (product_commutes phi_x1x2x3 phi_x3x1 phi_x1x2x3_wf phi_x3x1_wf
           scenario_A_compatible scenario_A_common).
Defined.

(** ** Conditioning and summing out commute *)

Lemma insert_insert {A} (l : list A) (i j : nat) (x y : A) :
  (i <= j <= length l)%nat ->
  take i (take j l ++ y :: drop j l) ++ x :: drop i (take j l ++ y :: drop j l)
  = take (S j) (take i l ++ x :: drop i l) ++ y :: drop (S j) (take i l ++ x :: drop i l).
Proof.
  revert j l. induction i as [|i IH]; intros j l Hij.
  - by rewrite !take_0, !drop_0.
  - destruct j as [|j]; [lia|]. destruct l as [|a l]; [simpl in Hij; lia|].
    simpl in Hij. cbn [take drop app]. f_equal. apply IH. lia.
Qed.

Lemma delete_delete {A} (l : list A) (i j : nat) :
  (i <= j)%nat -> base.delete i (base.delete (S j) l) = base.delete j (base.delete i l).
Proof.
  revert i j. induction l as [|a l IH]; intros [|i] [|j] H; try done; try lia.
  change (a :: base.delete i (base.delete (S j) l) = a :: base.delete j (base.delete i l)).
  f_equal. apply IH. lia.
Qed.

Lemma Forall2_Some_fun {A B} (F : A -> option B) (l : list A) (c1 c2 : list B) :
  Forall2 (fun t x => F t = Some x) l c1 -> Forall2 (fun t x => F t = Some x) l c2 ->
  c1 = c2.
Proof.
  intros H. revert c2. induction H as [|t x l c1 Hx _ IH]; intros c2 H2.
  - by inversion H2.
  - inversion H2; subst. f_equal; [congruence|by apply IH].
Qed.

(** Two factors that satisfy the invariant and have the same scope, the same
    cardinalities and the same cell at every assignment are the same. *)
Lemma factor_ext (h1 h2 : Factor) :
  wf_Factor h1 -> wf_Factor h2 -> scope h1 = scope h2 ->
  cardinality h1 = cardinality h2 ->
  (forall idx, in_range idx (cardinality h1) ->
     values h1 !! Z.to_nat (flat_index (cardinality h1) idx)
     = values h2 !! Z.to_nat (flat_index (cardinality h1) idx)) ->
  h1 = h2.
Proof.
  intros Hw1 Hw2 Hs Hc Hcell.
  assert (variables h1 = variables h2) as Hv
    by (by rewrite (wf_labels _ Hw1), (wf_labels _ Hw2), Hs, Hc).
  assert (values h1 = values h2) as Hvals.
  { pose proof (wf_size _ Hw1) as S1. pose proof (wf_size _ Hw2) as S2.
    rewrite <- Hc in S2.
    apply list_eq. intros i.
    destruct (decide (i < length (values h1))%nat) as [Hlt|Hge].
    - destruct (assign_digits_spec (cardinality h1) (Z.of_nat i)) as [Hr Hf];
        [apply Hw1|lia|].
      rewrite Z.mod_small in Hf by lia.
      specialize (Hcell _ Hr). rewrite Hf in Hcell. by rewrite Nat2Z.id in Hcell.
    - rewrite !lookup_ge_None_2; [done|lia|lia]. }
  destruct h1, h2; simpl in *; by subst.
Qed.

(** The cells of the buffer after one reduction step. *)
Lemma reduce_body_cells (f : Factor) (tok v : string) (s : Z) (k : nat) (c : Z) :
  wf_Factor f -> parses_as tok v s ->
  scope f !! k = Some v -> cardinality f !! k = Some c -> 0 <= s < c ->
  exists g,
    reduce_body f tok = (g, Return tt) /\ wf_Factor g /\
    scope g = base.delete k (scope f) /\
    cardinality g = base.delete k (cardinality f) /\
    forall idx', in_range idx' (base.delete k (cardinality f)) ->
      exists y,
        values g !! Z.to_nat (flat_index (base.delete k (cardinality f)) idx') = Some y /\
        values f !! Z.to_nat (flat_index (cardinality f) (take k idx' ++ s :: drop k idx'))
        = Some y /\
        in_range (take k idx' ++ s :: drop k idx') (cardinality f).
Proof.
  intros Hwf Hparse Hk Hc Hs.
  destruct (reduce_body_values f tok v s k c Hwf Hparse Hk Hc Hs)
    as (g & Hbody & Hwg & Hsg & Hcg & Htake).
  exists g. do 4 (split; [done|]).
  intros idx' Hr. by apply (axis_block_lookup f (values g) idx' k c s).
Qed.

Lemma reduce_single_inplace (f : Factor) (tok : string) :
  reduce f (Str tok) true = finish_inplace (for_each reduce_body f [tok]).
Proof. done. Qed.

(** A reduction at position [i] and an elimination at a later position
    [S j], in either order. *)
Lemma reduce_then_marginalize_later (f : Factor) (tok a b : string) (s : Z)
      (i j : nat) (ca cb : Z) :
  wf_Factor f -> parses_as tok a s -> (i <= j)%nat ->
  scope f !! i = Some a -> cardinality f !! i = Some ca -> 0 <= s < ca ->
  scope f !! S j = Some b -> cardinality f !! S j = Some cb ->
  exists g1 g2 h,
    reduce_body f tok = (g1, Return tt) /\ marginalize_body g1 b = (h, Return tt) /\
    marginalize_body f b = (g2, Return tt) /\ reduce_body g2 tok = (h, Return tt) /\
    b ∈ scope g1.
Proof.
  intros Hwf Hp Hij Hia Hica Hs Hjb Hjcb.
  destruct (reduce_body_cells f tok a s i ca Hwf Hp Hia Hica Hs)
    as (g1 & Hg1 & Hwg1 & Hsg1 & Hcg1 & Hcell1).
  assert (scope g1 !! j = Some b) as Hb1
    by (by rewrite Hsg1, list_lookup_delete_ge).
  assert (cardinality g1 !! j = Some cb) as Hcb1
    by (by rewrite Hcg1, list_lookup_delete_ge).
  destruct (marginalize_body_cells g1 b j cb Hwg1 Hb1 Hcb1)
    as (h1 & Hh1 & Hwh1 & Hsh1 & Hch1 & Hcellh1).
  destruct (marginalize_body_cells f b (S j) cb Hwf Hjb Hjcb)
    as (g2 & Hg2 & Hwg2 & Hsg2 & Hcg2 & Hcell2).
  assert (scope g2 !! i = Some a) as Ha2
    by (rewrite Hsg2, list_lookup_delete_lt by lia; done).
  assert (cardinality g2 !! i = Some ca) as Hca2
    by (rewrite Hcg2, list_lookup_delete_lt by lia; done).
  destruct (reduce_body_cells g2 tok a s i ca Hwg2 Hp Ha2 Hca2 Hs)
    as (h2 & Hh2 & Hwh2 & Hsh2 & Hch2 & Hcellh2).
  rewrite Hcg1 in Hch1, Hcellh1. rewrite Hsg1 in Hsh1.
  rewrite Hcg2 in Hch2, Hcellh2. rewrite Hsg2 in Hsh2.
  rewrite delete_delete in Hch2 by done. rewrite delete_delete in Hsh2 by done.
  rewrite delete_delete in Hcellh2 by done.
  assert (h1 = h2) as <-.
  { apply factor_ext; [done|done|congruence|congruence|].
    rewrite Hch1. intros idx Hr.
    destruct (Hcellh1 idx Hr) as (cells1 & Hcells1 & ->).
    destruct (Hcellh2 idx Hr) as (y & -> & Hy & Hr2).
    destruct (Hcell2 _ Hr2) as (cells2 & Hcells2 & Hfold).
    rewrite Hfold in Hy. injection Hy as <-.
    assert (j <= length idx)%nat as Hlen.
    { apply Forall2_length in Hr. rewrite Hr, !length_delete.
      - apply lookup_lt_Some in Hjcb. lia.
      - by eexists.
      - rewrite list_lookup_delete_ge by done. by eexists. }
    do 2 f_equal.
    apply (Forall2_Some_fun
             (fun t => values f !! Z.to_nat
                         (flat_index (cardinality f)
                            (take (S j) (take i idx ++ s :: drop i idx)
                             ++ t :: drop (S j) (take i idx ++ s :: drop i idx))))
             (Py.range cb)).
    - eapply Forall2_impl; [exact Hcells1|]. intros t x [Hx Hrx]. simpl.
      destruct (Hcell1 _ Hrx) as (y & Hy & Hfy & _).
      rewrite insert_insert in Hfy by lia. congruence.
    - eapply Forall2_impl; [exact Hcells2|]. by intros t x [Hx _]. }
  exists g1, g2, h1. do 4 (split; [done|]). by eapply list_elem_of_lookup_2.
Qed.

Lemma marginalize_then_reduce_later (f : Factor) (tok a b : string) (s : Z)
      (i j : nat) (ca cb : Z) :
  wf_Factor f -> parses_as tok a s -> (i <= j)%nat ->
  scope f !! S j = Some a -> cardinality f !! S j = Some ca -> 0 <= s < ca ->
  scope f !! i = Some b -> cardinality f !! i = Some cb ->
  exists g1 g2 h,
    reduce_body f tok = (g1, Return tt) /\ marginalize_body g1 b = (h, Return tt) /\
    marginalize_body f b = (g2, Return tt) /\ reduce_body g2 tok = (h, Return tt) /\
    b ∈ scope g1.
Proof.
  intros Hwf Hp Hij Hja Hjca Hs Hib Hicb.
  destruct (reduce_body_cells f tok a s (S j) ca Hwf Hp Hja Hjca Hs)
    as (g1 & Hg1 & Hwg1 & Hsg1 & Hcg1 & Hcell1).
  assert (scope g1 !! i = Some b) as Hb1
    by (rewrite Hsg1, list_lookup_delete_lt by lia; done).
  assert (cardinality g1 !! i = Some cb) as Hcb1
    by (rewrite Hcg1, list_lookup_delete_lt by lia; done).
  destruct (marginalize_body_cells g1 b i cb Hwg1 Hb1 Hcb1)
    as (h1 & Hh1 & Hwh1 & Hsh1 & Hch1 & Hcellh1).
  destruct (marginalize_body_cells f b i cb Hwf Hib Hicb)
    as (g2 & Hg2 & Hwg2 & Hsg2 & Hcg2 & Hcell2).
  assert (scope g2 !! j = Some a) as Ha2
    by (by rewrite Hsg2, list_lookup_delete_ge).
  assert (cardinality g2 !! j = Some ca) as Hca2
    by (by rewrite Hcg2, list_lookup_delete_ge).
  destruct (reduce_body_cells g2 tok a s j ca Hwg2 Hp Ha2 Hca2 Hs)
    as (h2 & Hh2 & Hwh2 & Hsh2 & Hch2 & Hcellh2).
  rewrite Hcg1 in Hch1, Hcellh1. rewrite Hsg1 in Hsh1.
  rewrite Hcg2 in Hch2, Hcellh2. rewrite Hsg2 in Hsh2.
  rewrite delete_delete in Hch1 by done. rewrite delete_delete in Hsh1 by done.
  rewrite delete_delete in Hcellh1 by done.
  assert (h1 = h2) as <-.
  { apply factor_ext; [done|done|congruence|congruence|].
    rewrite Hch1. intros idx Hr.
    destruct (Hcellh1 idx Hr) as (cells1 & Hcells1 & ->).
    destruct (Hcellh2 idx Hr) as (y & -> & Hy & Hr2).
    destruct (Hcell2 _ Hr2) as (cells2 & Hcells2 & Hfold).
    rewrite Hfold in Hy. injection Hy as <-.
    assert (j <= length idx)%nat as Hlen.
    { apply Forall2_length in Hr. rewrite Hr, !length_delete.
      - apply lookup_lt_Some in Hjca. lia.
      - by eexists.
      - rewrite list_lookup_delete_ge by done. by eexists. }
    do 2 f_equal.
    apply (Forall2_Some_fun
             (fun t => values f !! Z.to_nat
                         (flat_index (cardinality f)
                            (take (S j) (take i idx ++ t :: drop i idx)
                             ++ s :: drop (S j) (take i idx ++ t :: drop i idx))))
             (Py.range cb)).
    - eapply Forall2_impl; [exact Hcells1|]. intros t x [Hx Hrx]. simpl.
      destruct (Hcell1 _ Hrx) as (y & Hy & Hfy & _). congruence.
    - eapply Forall2_impl; [exact Hcells2|]. intros t x [Hx _]. simpl.
      by rewrite insert_insert in Hx by lia. }
  exists g1, g2, h1. do 4 (split; [done|]). by eapply list_elem_of_lookup_2.
Qed.

(** X22.  Conditioning and summing out commute exactly: for a factor that
    satisfies the class invariant, a token that names a variable of the
    scope with one of its states, and another variable of the scope,
    reducing by the token and then marginalizing the other variable leaves
    the receiver in the same state, buffer included, as marginalizing first
    and reducing afterwards. *)
Theorem reduce_marginalize_commute (f : Factor) (tok a b : string) (s : Z) :
  wf_Factor f -> parses_as tok a s -> valid_state f a s -> b ∈ scope f -> a <> b ->
  exists g1 g2 h,
    reduce f (Str tok) true = (g1, Return None) /\
    marginalize g1 (Str b) true = (h, Return None) /\
    marginalize f (Str b) true = (g2, Return None) /\
    reduce g2 (Str tok) true = (h, Return None).
Proof.
  intros Hwf Hp (ka & ca & Hka & Hca & Hs) Hb Hab.
  apply list_elem_of_lookup in Hb as [kb Hkb].
  assert (exists cb, cardinality f !! kb = Some cb) as [cb Hcb].
  { apply lookup_lt_is_Some. rewrite <- (scope_length f Hwf). by eapply lookup_lt_Some. }
  assert (ka <> kb) as Hne by (intros ->; congruence).
  assert (exists g1 g2 h,
    reduce_body f tok = (g1, Return tt) /\ marginalize_body g1 b = (h, Return tt) /\
    marginalize_body f b = (g2, Return tt) /\ reduce_body g2 tok = (h, Return tt) /\
    b ∈ scope g1) as (g1 & g2 & h & H1 & H2 & H3 & H4 & Hin).
  { destruct (decide (ka < kb)%nat) as [Hlt|Hge].
    - destruct kb as [|j]; [lia|].
      apply (reduce_then_marginalize_later f tok a b s ka j ca cb); try done. lia.
    - destruct ka as [|j]; [lia|].
      apply (marginalize_then_reduce_later f tok a b s kb j ca cb); try done. lia. }
  exists g1, g2, h.
  rewrite !reduce_single_inplace.
  rewrite !marginalize_single_inplace by (done || by eapply list_elem_of_lookup_2).
  simpl. by rewrite H1, H2, H3, H4.
Qed.

Lemma reduce_marginalize_commute_witness :
  wf_Factor phi_x1x2x3 /\ parses_as "x3_1" "x3" 1 /\ valid_state phi_x1x2x3 "x3" 1 /\
  "x1"%string ∈ scope phi_x1x2x3 /\ "x3"%string <> "x1"%string /\
  exists g1 g2 h,
    reduce phi_x1x2x3 (Str "x3_1") true = (g1, Return None) /\
    marginalize g1 (Str "x1") true = (h, Return None) /\
    marginalize phi_x1x2x3 (Str "x1") true = (g2, Return None) /\
    reduce g2 (Str "x3_1") true = (h, Return None).
Proof.
  assert (parses_as "x3_1" "x3" 1) as Hp by (split; [done|by exists "1"%string]).
  assert (valid_state phi_x1x2x3 "x3" 1) as Hv
    by (exists 2%nat, 2; split; [done|split; [done|lia]]).
  assert ("x1"%string ∈ scope phi_x1x2x3) as Hin by (left).
  assert ("x3"%string <> "x1"%string) as Hne by discriminate.
  split; [exact phi_x1x2x3_wf|]. split; [exact Hp|]. split; [exact Hv|].
  split; [exact Hin|]. split; [exact Hne|].
  exact (reduce_marginalize_commute phi_x1x2x3 "x3_1" "x3" "x1" 1
           phi_x1x2x3_wf Hp Hv Hin Hne).
Defined.

(** ** The product of several factors *)

Lemma joint_scope_trans (f P : Factor) (vars : list string) (card : list Z) :
  wf_Factor P -> joint_scope vars card P ->
  joint_scope (scope P) (cardinality P) f -> joint_scope vars card f.
Proof.
  intros HwfP (Hnd & Hlen & Hin & Hcard) (_ & _ & Hin' & Hcard').
  split; [done|]. split; [done|]. split; [by intros v Hv; apply Hin, Hin'|].
  intros p v c c' Hp Hc Hf.
  assert (v ∈ scope P) as HvP by (destruct Hf as (i & Hi & _); apply Hin';
                                  by eapply list_elem_of_lookup_2).
  destruct (card_of_exists P v HwfP HvP) as (c'' & i & Hi & Hci).
  rewrite (Hcard' i v c'' c' Hi Hci Hf).
  apply (Hcard p v c c'' Hp Hc). by exists i.
Qed.

(** X23.  [product] with two arguments folds from the left: for three
    factors that satisfy the class invariant and agree pairwise on the
    cardinality of common variables, where the second shares a variable
    with the first and the third with one of the first two, the result is a
    factor over the union of the three scopes whose cell at every joint
    assignment is [(x * y) * z], the values of the three factors at that
    assignment multiplied in the order of the arguments. *)
Theorem product_of_three_cells (f g h : Factor) :
  wf_Factor f -> wf_Factor g -> wf_Factor h ->
  compatible f g -> compatible f h -> compatible g h ->
  (exists v, v ∈ scope f /\ v ∈ scope g) ->
  (exists v, (v ∈ scope f \/ v ∈ scope g) /\ v ∈ scope h) ->
  exists R,
    product f [g; h] = Return R /\ wf_Factor R /\
    (forall v, v ∈ scope R <-> v ∈ scope f \/ v ∈ scope g \/ v ∈ scope h) /\
    forall idx, in_range idx (cardinality R) ->
      exists x y z,
        value_at f (scope R) idx = Return x /\
        value_at g (scope R) idx = Return y /\
        value_at h (scope R) idx = Return z /\
        value_at R (scope R) idx = Return (Np.mul (Np.mul x y) z).
Proof.
  intros Hwf Hwg Hwh Hfg Hfh Hgh Hcfg Hch.
  destruct (bivar_common_ok f g M Hwf Hwg Hfg Hcfg)
    as (P & ec & HP & HwfP & HsP & _ & HPf & HPg & HcellP).
  assert (compatible P h) as HPh.
  { intros v c1 c2 (i & Hi & Hci) H2.
    assert (v ∈ scope f \/ v ∈ scope g) as [Hv|Hv].
    { apply elem_of_union_scope. rewrite <- HsP. by eapply list_elem_of_lookup_2. }
    - destruct (card_of_exists f v Hwf Hv) as [c Hc].
      destruct HPf as (_ & _ & _ & HPf).
      rewrite <- (HPf i v c1 c Hi Hci Hc). by apply (Hfh v).
    - destruct (card_of_exists g v Hwg Hv) as [c Hc].
      destruct HPg as (_ & _ & _ & HPg).
      rewrite <- (HPg i v c1 c Hi Hci Hc). by apply (Hgh v). }
  assert (exists v, v ∈ scope P /\ v ∈ scope h) as HcPh.
  { destruct Hch as (v & Hv & Hvh). exists v. split; [|done].
    rewrite HsP. by apply elem_of_union_scope. }
  destruct (bivar_common_ok P h M HwfP Hwh HPh HcPh)
    as (R & ec' & HR & HwfR & HsR & _ & HRP & HRh & HcellR).
  exists R. split.
  { unfold product, factor_product. simpl. unfold product, factor_product in HP.
    simpl in HP. rewrite HP. exact HR. }
  split; [done|]. split.
  { intros v. rewrite HsR, elem_of_union_scope, HsP, elem_of_union_scope. tauto. }
  intros idx Hr.
  destruct (HcellR idx Hr) as (xP & z & q & HxP & Hz & Hq & Hv).
  simpl in Hq. injection Hq as <-.
  destruct (value_at_digits P (scope R) (cardinality R) idx HwfP HRP Hr)
    as (ds & xP' & Hds & Hrd & HxP' & HvP).
  assert (xP' = xP) as -> by congruence.
  destruct (HcellP ds Hrd) as (x & y & q & Hx & Hy & Hq & Hv').
  simpl in Hq. injection Hq as <-.
  assert (xP = Np.mul x y) as -> by congruence.
  exists x, y, z. split; [|split; [|split; [done|by apply value_at_self]]].
  - eapply (value_at_through f (scope R) (scope P)); try done.
    by apply (joint_scope_trans f P).
  - eapply (value_at_through g (scope R) (scope P)); try done.
    by apply (joint_scope_trans g P).
Qed.

Lemma scenario_A_self_compatible : compatible phi_x3x1 phi_x3x1.
Proof. intros v c1 c2 H1 H2. exact (card_of_fun phi_x3x1 v c1 c2 phi_x3x1_wf H1 H2). Qed.

Lemma product_of_three_cells_witness :
  exists R,
    product phi_x1x2x3 [phi_x3x1; phi_x3x1] = Return R /\ wf_Factor R /\
    (forall v, v ∈ scope R <->
               v ∈ scope phi_x1x2x3 \/ v ∈ scope phi_x3x1 \/ v ∈ scope phi_x3x1) /\
    forall idx, in_range idx (cardinality R) ->
      exists x y z,
        value_at phi_x1x2x3 (scope R) idx = Return x /\
        value_at phi_x3x1 (scope R) idx = Return y /\
        value_at phi_x3x1 (scope R) idx = Return z /\
        value_at R (scope R) idx = Return (Np.mul (Np.mul x y) z).
Proof.
  apply (product_of_three_cells phi_x1x2x3 phi_x3x1 phi_x3x1
           phi_x1x2x3_wf phi_x3x1_wf phi_x3x1_wf
           scenario_A_compatible scenario_A_compatible scenario_A_self_compatible
           scenario_A_common).
  destruct scenario_A_common as (v & H1 & H2). exists v. split; [by left|exact H2].
Defined.
